(** * js/src/vm/RegExpObject.cpp: flag parsing, MatchPairs, RegExpShared
      compilation and execution, and the per-compartment RegExpShared table.

    The development follows the order of the C++ file.  Strings are lists of
    UTF-16 code units, [size_t] is a 64-bit unsigned integer and [int] a
    32-bit signed one, both carried as [Z] with the wrap-around written out.
    [MOZ_ASSERT] has its debug-build meaning: a failed assertion stops the
    program ([Crash]). *)

From stdpp Require Import gmap list strings.
From Stdlib Require Import ZArith Lia Ascii.

Open Scope Z_scope.

(** ** Machine integers and strings *)

Definition char16_t := Z.

(** The code unit of an ASCII character literal such as ['g']. *)
Definition chr (a : ascii) : char16_t := Z.of_N (N_of_ascii a).

(** A C or JS string literal as code units. *)
Definition lit (s : string) : list char16_t := map chr (String.list_ascii_of_string s).

Definition SIZE_BITS : Z := 64.
Definition size_t_wrap (x : Z) : Z := x mod 2 ^ SIZE_BITS.

(** Conversion of an integer value to [int]: reduction modulo 2^32 into
    [-2^31, 2^31). *)
Definition int_wrap (x : Z) : Z := (x + 2 ^ 31) mod 2 ^ 32 - 2 ^ 31.

(** Conversion of a [char16_t] to [char], kept as the low byte. *)
Definition to_char (c : char16_t) : Z := c mod 256.

(** What a reader of a NUL-terminated [char] array sees: the characters
    before the first NUL. *)
Fixpoint c_str (buf : list Z) : list Z :=
  match buf with
  | [] => []
  | c :: buf => if c =? 0 then [] else c :: c_str buf
  end.

(** A linear string: its characters and whether they are stored as Latin-1. *)
Record JSLinearString := mkString {
  hasLatin1Chars : bool;
  chars : list char16_t
}.

(** Atoms are interned, so that pointer identity of atoms is equality of
    their characters; an atom is carried as its characters. *)
Definition JSAtom := list char16_t.

Definition str_length (s : list char16_t) : Z := Z.of_nat (List.length s).

(** The length of an array as a [size_t]. *)
Definition array_length {A} (l : list A) : Z := Z.of_nat (List.length l).

(** ** Outcomes: a value, a failed assertion, or an exhausted step budget *)

(** The assertions of the file, and accesses outside an allocated block. *)
Inductive assertion :=
  | A_pairCount_positive        (* MOZ_ASSERT(pairCount > 0), initArray / initArrayFrom *)
  | A_pairs_nonnull             (* MOZ_ASSERT(pairs_), allocOrExpandArray *)
  | A_pairCount_unchanged       (* MOZ_ASSERT(pairCount_ == pairCount) *)
  | A_pairs_null                (* MOZ_ASSERT(!pairs_) *)
  | A_pair_check                (* MOZ_ASSERT(pairs_[i].check()), displace *)
  | A_index_in_pairCount        (* MOZ_ASSERT(i < pairCount_), operator[] *)
  | A_pairCount_is_one          (* MOZ_ASSERT(pairCount() == 1), execute *)
  | A_checkAgainst              (* matches->checkAgainst(origLength) *)
  | A_one_kind_of_code          (* MOZ_ASSERT(!code.jitCode || !code.byteCode) *)
  | A_capacity_reserved         (* infallibleAppend within the reserved capacity *)
  | A_out_of_bounds             (* access outside the allocated block *)
  | A_null_code.                (* running a null code pointer *)

Inductive outcome (A : Type) : Type :=
  | Done (a : A)
  | Crash (why : assertion)
  | Timeout.
Arguments Done {A} a.
Arguments Crash {A} why.
Arguments Timeout {A}.

#[global] Instance outcome_ret : MRet outcome := fun A a => Done a.
#[global] Instance outcome_bind : MBind outcome := fun A B k m =>
  match m with
  | Done a => k a
  | Crash why => Crash why
  | Timeout => Timeout
  end.

Definition MOZ_ASSERT (why : assertion) (b : bool) : outcome unit :=
  if b then Done tt else Crash why.

(** A pointer read as a condition. *)
Definition nonnull {A} (p : option A) : bool :=
  match p with Some _ => true | None => false end.

(** ** Error reports left on the context *)

Inductive JSErrNum := JSMSG_BAD_REGEXP_FLAG | JSMSG_OUT_OF_MEMORY | JSMSG_OVER_RECURSED.

Record ErrorReport := mkReport {
  errorNumber : JSErrNum;
  errorArgs : list Z          (* the NUL-terminated [char] argument, without the NUL *)
}.

Definition js_ReportOutOfMemory : ErrorReport := mkReport JSMSG_OUT_OF_MEMORY [].
Definition js_ReportOverRecursed : ErrorReport := mkReport JSMSG_OVER_RECURSED [].

(** ** RegExpFlag *)

Module Flags.

Definition RegExpFlag := Z.

(** Modelled from the spec: the enumerators of [RegExpFlag] (RegExpObject.h,
    tied to JSREG_FOLD, JSREG_GLOB, JSREG_MULTILINE and JSREG_STICKY by the
    static assertions at the head of the file), four independent bits. *)
Definition IgnoreCaseFlag : RegExpFlag := 0x01.
Definition GlobalFlag : RegExpFlag := 0x02.
Definition MultilineFlag : RegExpFlag := 0x04.
Definition StickyFlag : RegExpFlag := 0x08.
Definition AllFlags : RegExpFlag := 0x0f.

(** [flags & flag] read as a condition. *)
Definition has_flag (flags flag : RegExpFlag) : bool := negb (Z.land flags flag =? 0).

(** static bool HandleRegExpFlag(RegExpFlag flag, RegExpFlag *flags):
    the returned pair is the result and the new value of [*flags]. *)
Definition HandleRegExpFlag (flag : RegExpFlag) (flags : RegExpFlag) : bool * RegExpFlag :=
  if has_flag flags flag then (false, flags)
  else (true, Z.lor flags flag).

(** The [switch] of the parsing loop: the flag of a recognised letter, or
    [None] for the [default] label. *)
Definition flag_of_char (c : char16_t) : option RegExpFlag :=
  if c =? chr "i" then Some IgnoreCaseFlag
  else if c =? chr "g" then Some GlobalFlag
  else if c =? chr "m" then Some MultilineFlag
  else if c =? chr "y" then Some StickyFlag
  else None.

(** template <typename CharT> ParseRegExpFlags(chars, length, flagsOut, lastParsedOut):
    the loop, from the current values of [*flagsOut] and [*lastParsedOut];
    the result carries the returned truth value and the final values of both. *)
Fixpoint ParseRegExpFlags_loop (chars : list char16_t)
    (flagsOut : RegExpFlag) (lastParsedOut : char16_t)
  : bool * RegExpFlag * char16_t :=
  match chars with
  | [] => (true, flagsOut, lastParsedOut)
  | c :: rest =>
      let lastParsedOut := c in
      match flag_of_char c with
      | Some flag =>
          let '(ok, flagsOut) := HandleRegExpFlag flag flagsOut in
          if ok then ParseRegExpFlags_loop rest flagsOut lastParsedOut
          else (false, flagsOut, lastParsedOut)
      | None => (false, flagsOut, lastParsedOut)
      end
  end.

(** [lastParsed0] is whatever the caller's uninitialised [lastParsed] holds. *)
Definition ParseRegExpFlags (chars : list char16_t) (lastParsed0 : char16_t)
  : bool * RegExpFlag * char16_t :=
  ParseRegExpFlags_loop chars 0 lastParsed0.

(** bool js::ParseRegExpFlags(JSContext *cx, JSString *flagStr, RegExpFlag *flagsOut).
    [linear] is the result of [flagStr->ensureLinear(cx)], [None] when it
    fails; [flagsOut0] is the caller's value of [*flagsOut].  The result is
    the returned truth value, [*flagsOut], and the reports made on [cx]. *)
Definition js_ParseRegExpFlags (linear : option JSLinearString)
    (flagsOut0 : RegExpFlag) (lastParsed0 : char16_t)
  : bool * RegExpFlag * list ErrorReport :=
  match linear with
  | None => (false, flagsOut0, [])
  | Some linear =>
      let '(ok, flagsOut, lastParsed) := ParseRegExpFlags (chars linear) lastParsed0 in
      if negb ok then
        let charBuf := [to_char lastParsed; 0] in
        (false, flagsOut, [mkReport JSMSG_BAD_REGEXP_FLAG (c_str charBuf)])
      else (true, flagsOut, [])
  end.

(** *** Notions for the statements about parsing *)

Definition is_flag_letter (c : char16_t) : bool :=
  match flag_of_char c with Some _ => true | None => false end.

(** The character at position [i] of [s] is offending: it is no flag letter,
    or it already occurs before position [i]. *)
Definition offending_at (s : list char16_t) (i : nat) (c : char16_t) : Prop :=
  s !! i = Some c /\ (is_flag_letter c = false \/ c ∈ take i s).

(** [i] is the first offending position of [s]. *)
Definition first_offending (s : list char16_t) (i : nat) (c : char16_t) : Prop :=
  offending_at s i c /\ forall j d, (j < i)%nat -> ~ offending_at s j d.

(** No position of [s] is offending once the letters of [pre] have been seen. *)
Definition clean_after (pre s : list char16_t) : Prop :=
  forall i c, s !! i = Some c -> is_flag_letter c = true /\ c ∉ pre ++ take i s.

(** The bits of [flags] are exactly those of the letters that occur in [s]. *)
Definition bits_of_letters (s : list char16_t) (flags : RegExpFlag) : Prop :=
  0 <= flags <= AllFlags /\
  forall c f, flag_of_char c = Some f -> (has_flag flags f = true <-> c ∈ s).

End Flags.

(** ** StringBuffer *)

Module StringBuffer.

(** The buffer's characters and the capacity reserved for it.  The
    allocator behind it is summarised by [limit], the longest buffer it will
    grant: an operation that would make the buffer longer fails. *)
Record t := mk {
  contents : list char16_t;
  reserved : Z
}.

Definition empty : t := mk [] 0.

Definition length (sb : t) : Z := str_length (contents sb).

Definition reserve (limit : Z) (n : Z) (sb : t) : bool * t :=
  if n <=? limit then (true, mk (contents sb) (Z.max (reserved sb) n))
  else (false, sb).

Definition append (limit : Z) (cs : list char16_t) (sb : t) : bool * t :=
  let n := length sb + str_length cs in
  if n <=? limit then (true, mk (contents sb ++ cs) (Z.max (reserved sb) n))
  else (false, sb).

(** Appending within the reserved capacity; the capacity is asserted. *)
Definition infallibleAppend (cs : list char16_t) (sb : t) : outcome t :=
  _ ← MOZ_ASSERT A_capacity_reserved (length sb + str_length cs <=? reserved sb);
  mret (mk (contents sb ++ cs) (reserved sb)).

(** finishString / finishAtom: the characters, or nothing when the final
    allocation fails. *)
Definition finish (limit : Z) (sb : t) : option (list char16_t) :=
  if length sb <=? limit then Some (contents sb) else None.

End StringBuffer.

(** ** RegExpObject *)

Module RegExpObject.
Import Flags.

(** The reserved slots of a RegExp object and its private pointer to a
    RegExpShared ([None] for nullptr). *)
Record t := mk {
  lastIndex : Z;
  source : JSAtom;
  global : bool;
  ignoreCase : bool;
  multiline : bool;
  sticky : bool;
  private : option positive
}.

(** RegExpObject::init; [shape_ok] is the result of ensureInitialCustomShape. *)
Definition init (shape_ok : bool) (self : t) (src : JSAtom) (flags : RegExpFlag)
  : bool * t :=
  if negb shape_ok then (false, self)
  else
    (true,
     {| private := None;
        lastIndex := 0;
        source := src;
        global := has_flag flags GlobalFlag;
        ignoreCase := has_flag flags IgnoreCaseFlag;
        multiline := has_flag flags MultilineFlag;
        sticky := has_flag flags StickyFlag |}).

(** [cond && !sb.append(c)] of toString: append when [cond] holds; the result
    tells whether toString goes on. *)
Definition append_if (limit : Z) (cond : bool) (c : ascii) (sb : StringBuffer.t)
  : bool * StringBuffer.t :=
  if cond then StringBuffer.append limit [chr c] sb else (true, sb).

(** JSFlatString *RegExpObject::toString(JSContext *cx) const; [None] is the
    nullptr returned when an append fails. *)
Definition toString (limit : Z) (self : t) : outcome (option (list char16_t)) :=
  let src := source self in
  let sb := StringBuffer.empty in
  let len := str_length src in
  '(ok, sb) ←
    (if negb (len =? 0) then
       let '(ok, sb) := StringBuffer.reserve limit (size_t_wrap (len + 2)) sb in
       if negb ok then mret (false, sb)
       else
         sb ← StringBuffer.infallibleAppend [chr "/"] sb;
         let '(ok, sb) := StringBuffer.append limit src sb in
         if negb ok then mret (false, sb)
         else
           sb ← StringBuffer.infallibleAppend [chr "/"] sb;
           mret (true, sb)
     else
       mret (StringBuffer.append limit (lit "/(?:)/") sb));
  if negb ok then mret None
  else
    let '(ok, sb) := append_if limit (global self) "g" sb in
    if negb ok then mret None else
    let '(ok, sb) := append_if limit (ignoreCase self) "i" sb in
    if negb ok then mret None else
    let '(ok, sb) := append_if limit (multiline self) "m" sb in
    if negb ok then mret None else
    let '(ok, sb) := append_if limit (sticky self) "y" sb in
    if negb ok then mret None else
    mret (StringBuffer.finish limit sb).

(** The rendering in the words of the specification: [/source/flags], the
    body of an empty source being [/(?:)/], and the letters of the set bits
    in the order g, i, m, y. *)
Definition spec_flag_letters (flags : RegExpFlag) : list char16_t :=
  (if has_flag flags GlobalFlag then [chr "g"] else []) ++
  (if has_flag flags IgnoreCaseFlag then [chr "i"] else []) ++
  (if has_flag flags MultilineFlag then [chr "m"] else []) ++
  (if has_flag flags StickyFlag then [chr "y"] else []).

Definition spec_body (src : JSAtom) : list char16_t :=
  match src with
  | [] => lit "/(?:)/"
  | _ => [chr "/"] ++ src ++ [chr "/"]
  end.

Definition spec_toString (src : JSAtom) (flags : RegExpFlag) : list char16_t :=
  spec_body src ++ spec_flag_letters flags.

(** An object before [init]. *)
Definition blank : t := mk 0 [] false false false false None.

End RegExpObject.

(** ** MatchPairs *)

Module MatchPairs.

(** A capture: two [int] offsets. *)
Record MatchPair := mkPair {
  start : Z;
  limit : Z
}.

Definition sizeof_MatchPair : Z := 8.

(** Modelled from the spec: MatchPair::check (vm/MatchPairs.h), the sanity
    test asserted by displace: a pair is (start offset, end offset), or both
    are -1 when the capture did not take part. *)
Definition check (p : MatchPair) : bool :=
  ((start p =? -1) && (limit p =? -1)) || ((0 <=? start p) && (start p <=? limit p)).

(** An allocator (a LifoAlloc, or the system allocator behind a Vector): a
    bump pointer, the bytes it can still grant, and the contents found in
    memory that has not been written yet. *)
Record Memory := mkMemory {
  next_free : Z;
  available : Z;
  raw : Z -> MatchPair
}.

Definition alloc (bytes : Z) (mem : Memory) : option Z * Memory :=
  if bytes <=? available mem
  then (Some (next_free mem),
        mkMemory (next_free mem + bytes) (available mem - bytes) (raw mem))
  else (None, mem).

(** The pairs that fit a block of [bytes] bytes at address [p], as found. *)
Definition fresh_block (mem : Memory) (p : Z) (bytes : Z) : list MatchPair :=
  map (fun i => raw mem (p + sizeof_MatchPair * Z.of_nat i))
      (seq 0 (Z.to_nat (bytes / sizeof_MatchPair))).

(** The two subclasses of MatchPairs. *)
Inductive Class := ScopedMatchPairs | VectorMatchPairs.

(** [pairs_] is the address of the array ([None] for nullptr) and [block] what
    is stored there; the array is owned by the object and not aliased. *)
Record t := mk {
  class_ : Class;
  pairCount_ : Z;
  pairs_ : option Z;
  block : list MatchPair
}.

Definition set_block (mp : t) (b : list MatchPair) : t :=
  mk (class_ mp) (pairCount_ mp) (pairs_ mp) b.

(** A buffer as its constructor leaves it. *)
Definition new (c : Class) : t := mk c 0 None [].

(** bool ScopedMatchPairs::allocOrExpandArray(size_t pairCount) *)
Definition Scoped_allocOrExpandArray (pairCount : Z) (mp : t) (mem : Memory)
  : outcome (bool * t * Memory) :=
  if negb (pairCount_ mp =? 0) then
    _ ← MOZ_ASSERT A_pairs_nonnull (nonnull (pairs_ mp));
    _ ← MOZ_ASSERT A_pairCount_unchanged (pairCount_ mp =? pairCount);
    mret (true, mp, mem)
  else
    _ ← MOZ_ASSERT A_pairs_null (negb (nonnull (pairs_ mp)));
    let bytes := size_t_wrap (sizeof_MatchPair * pairCount) in
    match alloc bytes mem with
    | (None, mem) => mret (false, mp, mem)
    | (Some p, mem') =>
        mret (true, mk (class_ mp) pairCount (Some p) (fresh_block mem p bytes), mem')
    end.

(** bool VectorMatchPairs::allocOrExpandArray(size_t pairCount).
    [vec_.resizeUninitialized(n)] keeps the first [n] elements in place when
    the vector is long enough and otherwise moves them to a new allocation of
    [n] elements (the inline storage and the capacity policy of the Vector
    are left out); [&vec_[0]] asserts that the vector is not empty. *)
Definition Vector_allocOrExpandArray (pairCount : Z) (mp : t) (mem : Memory)
  : outcome (bool * t * Memory) :=
  let n := size_t_wrap (sizeof_MatchPair * pairCount) in
  if n <=? array_length (block mp) then
    _ ← MOZ_ASSERT A_out_of_bounds (0 <? n);
    mret (true, mk (class_ mp) pairCount (pairs_ mp) (take (Z.to_nat n) (block mp)), mem)
  else
    let bytes := size_t_wrap (sizeof_MatchPair * n) in
    match alloc bytes mem with
    | (None, mem) => mret (false, mp, mem)
    | (Some p, mem') =>
        mret (true,
              mk (class_ mp) pairCount (Some p)
                 (block mp ++ drop (List.length (block mp)) (fresh_block mem p bytes)),
              mem')
    end.

(** The virtual call. *)
Definition allocOrExpandArray (pairCount : Z) (mp : t) (mem : Memory)
  : outcome (bool * t * Memory) :=
  match class_ mp with
  | ScopedMatchPairs => Scoped_allocOrExpandArray pairCount mp mem
  | VectorMatchPairs => Vector_allocOrExpandArray pairCount mp mem
  end.

(** [pairs_[i] = p] *)
Definition store (i : nat) (p : MatchPair) (b : list MatchPair)
  : outcome (list MatchPair) :=
  if bool_decide (i < List.length b)%nat then mret (<[i:=p]> b)
  else Crash A_out_of_bounds.

(** The loop of initArray: [count] iterations are left, the next index is [i]. *)
Fixpoint initArray_loop (count : nat) (i : nat) (b : list MatchPair)
  : outcome (list MatchPair) :=
  match count with
  | O => mret b
  | S count =>
      b ← store i (mkPair (-1) (-1)) b;
      initArray_loop count (S i) b
  end.

(** bool MatchPairs::initArray(size_t pairCount) *)
Definition initArray (pairCount : Z) (mp : t) (mem : Memory)
  : outcome (bool * t * Memory) :=
  _ ← MOZ_ASSERT A_pairCount_positive (0 <? pairCount);
  '(ok, mp, mem) ← allocOrExpandArray pairCount mp mem;
  if negb ok then mret (false, mp, mem)
  else
    b ← initArray_loop (Z.to_nat pairCount) 0 (block mp);
    mret (true, set_block mp b, mem).

(** bool MatchPairs::initArrayFrom(MatchPairs &copyFrom) *)
Definition initArrayFrom (copyFrom : t) (mp : t) (mem : Memory)
  : outcome (bool * t * Memory) :=
  _ ← MOZ_ASSERT A_pairCount_positive (0 <? pairCount_ copyFrom);
  '(ok, mp, mem) ← allocOrExpandArray (pairCount_ copyFrom) mp mem;
  if negb ok then mret (false, mp, mem)
  else
    let n := Z.to_nat (pairCount_ mp) in
    _ ← MOZ_ASSERT A_out_of_bounds
          (bool_decide (n <= List.length (block copyFrom))%nat
           && bool_decide (n <= List.length (block mp))%nat);
    mret (true, set_block mp (take n (block copyFrom) ++ drop n (block mp)), mem).

(** [x += (x < 0) ? 0 : disp] on an [int] lvalue with a [size_t] operand: the
    sum is taken in [size_t] and converted back to [int]. *)
Definition displace_offset (disp : Z) (x : Z) : Z :=
  int_wrap (size_t_wrap (size_t_wrap x + (if x <? 0 then 0 else disp))).

Definition displace_pair (disp : Z) (p : MatchPair) : MatchPair :=
  mkPair (displace_offset disp (start p)) (displace_offset disp (limit p)).

Fixpoint displace_loop (count : nat) (i : nat) (disp : Z) (b : list MatchPair)
  : outcome (list MatchPair) :=
  match count with
  | O => mret b
  | S count =>
      match b !! i with
      | None => Crash A_out_of_bounds
      | Some p =>
          _ ← MOZ_ASSERT A_pair_check (check p);
          displace_loop count (S i) disp (<[i := displace_pair disp p]> b)
      end
  end.

(** void MatchPairs::displace(size_t disp) *)
Definition displace (disp : Z) (mp : t) : outcome t :=
  if disp =? 0 then mret mp
  else
    b ← displace_loop (Z.to_nat (pairCount_ mp)) 0 disp (block mp);
    mret (set_block mp b).

(** The pair of a capture that did not take part. *)
Definition invalid_pair : MatchPair := mkPair (-1) (-1).

(** Un-displacement in the words of the specification: the amount is added
    to every offset that is not negative. *)
Definition add_back (amount : Z) (x : Z) : Z := if x <? 0 then x else x + amount.

Definition add_back_pair (amount : Z) (p : MatchPair) : MatchPair :=
  mkPair (add_back amount (start p)) (add_back amount (limit p)).

(** An offset and the amount added to it stay within [int]. *)
Definition fits_int (amount : Z) (x : Z) : Prop := - 2 ^ 31 <= x /\ x + amount < 2 ^ 31.

(** An offset is -1 or lies within [0, inputLength]. *)
Definition offset_ok (inputLength : Z) (x : Z) : bool :=
  (x =? -1) || ((0 <=? x) && (x <=? inputLength)).

Definition pair_ok (inputLength : Z) (p : MatchPair) : bool :=
  offset_ok inputLength (start p) && offset_ok inputLength (limit p).

(** The pairs in use: the first [pairCount_] entries of the array. *)
Definition pairs (mp : t) : list MatchPair := take (Z.to_nat (pairCount_ mp)) (block mp).

(** Modelled from the spec: MatchPairs::checkAgainst (vm/MatchPairs.h), the
    assertion that every recorded offset lies within [0, input length] (or is
    the -1 of a capture that did not take part). *)
Definition checkAgainst (inputLength : Z) (mp : t) : outcome unit :=
  MOZ_ASSERT A_checkAgainst (forallb (pair_ok inputLength) (pairs mp)).

(** Assignment to the pair at index [i] of the buffer; operator[] asserts the index. *)
Definition set_pair (i : nat) (p : MatchPair) (mp : t) : outcome t :=
  _ ← MOZ_ASSERT A_index_in_pairCount (Z.of_nat i <? pairCount_ mp);
  b ← store i p (block mp);
  mret (set_block mp b).

End MatchPairs.

(** ** String helpers of jsstr.cpp *)

(** Modelled from the spec: IsRegExpMetaChar / StringHasRegExpMetaChars
    (jsstr.cpp), which decide whether a pattern "contains no regex
    metacharacters": the characters with a special meaning in a pattern. *)
Definition IsRegExpMetaChar (c : char16_t) : bool :=
  bool_decide (c ∈ lit "^$\.*+?()[]{}|").

Definition StringHasRegExpMetaChars (str : list char16_t) : bool :=
  existsb IsRegExpMetaChar str.

Fixpoint starts_with (pat text : list char16_t) : bool :=
  match pat, text with
  | [], _ => true
  | p :: pat, c :: text => (p =? c) && starts_with pat text
  | _ :: _, [] => false
  end.

(** The first position of [text] at which [pat] occurs. *)
Fixpoint StringMatch (text pat : list char16_t) : option nat :=
  if starts_with pat text then Some O
  else match text with
       | [] => None
       | _ :: rest => S <$> StringMatch rest pat
       end.

(** Modelled from the spec: StringFindPattern (jsstr.cpp), "a direct substring
    search for the source text starting at the (possibly displaced) offset":
    the first position at or after [start] where [pat] occurs in [text], as
    an [int], or -1. *)
Definition StringFindPattern (text pat : list char16_t) (start : Z) : Z :=
  match StringMatch (drop (Z.to_nat start) text) pat with
  | Some i => int_wrap (start + Z.of_nat i)
  | None => -1
  end.

(** ** RegExpShared *)

Module RegExpShared.
Import Flags.

Inductive CompilationMode := Normal | MatchOnly.

Inductive RegExpRunStatus :=
  | RegExpRunStatus_Error
  | RegExpRunStatus_Success_NotFound
  | RegExpRunStatus_Success.

#[global] Instance CompilationMode_eq_dec : EqDecision CompilationMode.
Proof. solve_decision. Defined.
#[global] Instance RegExpRunStatus_eq_dec : EqDecision RegExpRunStatus.
Proof. solve_decision. Defined.

(** Generated code is carried as its bytes. *)
Definition JitCode := list Z.
Definition ByteCode := list Z.

Record RegExpCompilation := mkCompilation {
  jitCode : option JitCode;
  byteCode : option ByteCode
}.

Definition compiled (c : RegExpCompilation) : bool :=
  match jitCode c, byteCode c with
  | None, None => false
  | _, _ => true
  end.

Record t := mk {
  source : JSAtom;
  flags : RegExpFlag;
  parenCount : Z;
  canStringMatch : bool;
  marked_ : bool;
  compilationArray : list RegExpCompilation;
  tables : list Z
}.

(** RegExpShared::RegExpShared(JSAtom *source, RegExpFlag flags) *)
Definition new (source : JSAtom) (flags : RegExpFlag) : t :=
  mk source flags 0 false false (replicate 4 (mkCompilation None None)) [].

Definition ignoreCase (re : t) : bool := has_flag (flags re) IgnoreCaseFlag.
Definition global (re : t) : bool := has_flag (flags re) GlobalFlag.
Definition multiline (re : t) : bool := has_flag (flags re) MultilineFlag.
Definition sticky (re : t) : bool := has_flag (flags re) StickyFlag.

(** Modelled from the spec: RegExpShared::CompilationIndex and compilation()
    (RegExpObject.h): one slot per execution mode (normal, match-only) and
    per character width (narrow, wide). *)
Definition CompilationIndex (mode : CompilationMode) (latin1 : bool) : nat :=
  match mode with
  | Normal => if latin1 then 0 else 1
  | MatchOnly => if latin1 then 2 else 3
  end%nat.

Definition compilation (re : t) (mode : CompilationMode) (latin1 : bool)
  : RegExpCompilation :=
  default (mkCompilation None None) (compilationArray re !! CompilationIndex mode latin1).

Definition isCompiled (re : t) (mode : CompilationMode) (latin1 : bool) : bool :=
  compiled (compilation re mode latin1).

(** Modelled from the spec: RegExpShared::pairCount (RegExpObject.h), the
    capture count plus one for the whole match. *)
Definition pairCount (re : t) : Z := size_t_wrap (parenCount re + 1).

Definition set_literal (re : t) : t :=
  mk (source re) (flags re) 0 true (marked_ re) (compilationArray re) (tables re).

Definition set_parenCount (re : t) (n : Z) : t :=
  mk (source re) (flags re) n (canStringMatch re) (marked_ re)
     (compilationArray re) (tables re).

Definition set_compilation (re : t) (mode : CompilationMode) (latin1 : bool)
    (c : RegExpCompilation) (tbls : list Z) : t :=
  mk (source re) (flags re) (parenCount re) (canStringMatch re) (marked_ re)
     (<[CompilationIndex mode latin1 := c]> (compilationArray re)) tbls.

(** The tables that the code generator hands to the instance
    (RegExpShared::addTable), whatever becomes of the code. *)
Definition set_tables (re : t) (tbls : list Z) : t :=
  mk (source re) (flags re) (parenCount re) (canStringMatch re) (marked_ re)
     (compilationArray re) tbls.

Definition set_marked (re : t) (b : bool) : t :=
  mk (source re) (flags re) (parenCount re) (canStringMatch re) b
     (compilationArray re) (tables re).

(** void RegExpShared::trace(JSTracer *trc); the marking of the source string
    and of the jit code concerns the collector's mark bits only. *)
Definition trace (is_gc_marking_tracer : bool) (re : t) : t :=
  if is_gc_marking_tracer then set_marked re true else re.

(** *** The collaborators of compile and execute

    The irregexp parser, code generator, interpreter and native-code runner,
    and the interrupt machinery of the runtime, act on a state [W] of their
    own. *)

Record RegExpCompileData := mkData {
  tree : list Z;
  capture_count : Z
}.

Record RegExpCode := mkCode {
  code_jitCode : option JitCode;
  code_byteCode : option ByteCode
}.

Definition code_empty (c : RegExpCode) : bool :=
  match code_jitCode c, code_byteCode c with
  | None, None => true
  | _, _ => false
  end.

Record Host (W : Type) := mkHost {
  (** irregexp::ParsePattern(ts, alloc, pattern, multiline, match_only, &data) *)
  ParsePattern : W -> JSAtom -> bool -> bool -> option RegExpCompileData * W;
  (** irregexp::CompilePattern(cx, shared, &data, input, global, ignoreCase,
      latin1, match_only): the code, and the tables now owned by [shared] *)
  CompilePattern : W -> t -> RegExpCompileData -> JSLinearString ->
                   bool -> bool -> bool -> bool -> RegExpCode * list Z * W;
  (** irregexp::InterpretCode(cx, byteCode, chars, start, length, matches):
      the status, and what the array of [matches] holds afterwards (unused
      when [matches] is null) *)
  InterpretCode : W -> ByteCode -> list char16_t -> Z -> Z -> option MatchPairs.t ->
                  RegExpRunStatus * list MatchPairs.MatchPair * W;
  (** irregexp::ExecuteCode(cx, code, chars, start, length, matches), likewise *)
  ExecuteCode : W -> JitCode -> list char16_t -> Z -> Z -> option MatchPairs.t ->
                RegExpRunStatus * list MatchPairs.MatchPair * W;
  (** AutoStableStringChars::init(cx, input) *)
  stableChars_init : W -> bool * W;
  (** cx->runtime()->interrupt, read under the interrupt lock *)
  interrupt : W -> bool;
  (** InvokeInterruptCallback(cx) *)
  InvokeInterruptCallback : W -> bool * W
}.
Arguments ParsePattern {W}.
Arguments CompilePattern {W}.
Arguments InterpretCode {W}.
Arguments ExecuteCode {W}.
Arguments stableChars_init {W}.
Arguments interrupt {W}.
Arguments InvokeInterruptCallback {W}.

(** What execute and compile use of the JSContext. *)
Record JSContext (W : Type) := mkCx {
  world : W;
  reports : list ErrorReport;
  mem : MatchPairs.Memory;      (* the allocator behind the MatchPairs buffer *)
  sb_limit : Z                  (* the longest StringBuffer that can be had *)
}.
Arguments mkCx {W}.
Arguments world {W}.
Arguments reports {W}.
Arguments mem {W}.
Arguments sb_limit {W}.

Definition set_world {W} (cx : JSContext W) (w : W) : JSContext W :=
  mkCx w (reports cx) (mem cx) (sb_limit cx).
Definition set_mem {W} (cx : JSContext W) (m : MatchPairs.Memory) : JSContext W :=
  mkCx (world cx) (reports cx) m (sb_limit cx).
Definition report {W} (cx : JSContext W) (r : ErrorReport) : JSContext W :=
  mkCx (world cx) (reports cx ++ [r]) (mem cx) (sb_limit cx).

(** [CompilationMode mode = matches ? Normal : MatchOnly;] *)
Definition mode_of (matches : option MatchPairs.t) : CompilationMode :=
  match matches with Some _ => Normal | None => MatchOnly end.

(** The literal fast path is taken only by instances it was meant for: the
    property that compile establishes when it sets [canStringMatch]. *)
Definition literal_ok (re : t) : Prop :=
  canStringMatch re = true ->
  sticky re = false /\ ignoreCase re = false /\
  StringHasRegExpMetaChars (source re) = false /\ parenCount re = 0.

(** What execute relies on from the engine: after a match, each offset
    recorded for a pair in use is -1 or lies within [0, length], for the
    length the engine was given. *)
Definition engine_in_bounds {W} (H : Host W) : Prop :=
  forall w code chs st len mp b w',
    0 <= len ->
    InterpretCode H w code chs st len (Some mp) = (RegExpRunStatus_Success, b, w') \/
    ExecuteCode H w code chs st len (Some mp) = (RegExpRunStatus_Success, b, w') ->
    forallb (MatchPairs.pair_ok len) (take (Z.to_nat (MatchPairs.pairCount_ mp)) b) = true.

Section WithHost.
Context {W : Type} (H : Host W).

(** bool RegExpShared::compile(JSContext *cx, HandleAtom pattern,
                               HandleLinearString input, CompilationMode mode) *)
Definition compile_pattern (cx : JSContext W) (re : t) (pattern : JSAtom)
    (input : JSLinearString) (mode : CompilationMode)
  : outcome (bool * t * JSContext W) :=
  if negb (ignoreCase re) && negb (StringHasRegExpMetaChars pattern) then
    mret (true, set_literal re, cx)
  else
    (* Parse the pattern. *)
    let '(data, w) :=
      ParsePattern H (world cx) pattern (multiline re) (bool_decide (mode = MatchOnly)) in
    let cx := set_world cx w in
    match data with
    | None => mret (false, re, cx)
    | Some data =>
        let re := set_parenCount re (capture_count data) in
        let '(code, tbls, w) :=
          CompilePattern H (world cx) re data input false (ignoreCase re)
                         (hasLatin1Chars input) (bool_decide (mode = MatchOnly)) in
        let cx := set_world cx w in
        (* the generator was given [this]: its tables stay, code or no code *)
        let re := set_tables re tbls in
        if code_empty code then mret (false, re, cx)
        else
          _ ← MOZ_ASSERT A_one_kind_of_code
                (negb (nonnull (code_jitCode code))
                 || negb (nonnull (code_byteCode code)));
          mret (true,
                set_compilation re mode (hasLatin1Chars input)
                  (mkCompilation (code_jitCode code) (code_byteCode code)) tbls,
                cx)
    end.

(** bool RegExpShared::compile(JSContext *cx, HandleLinearString input,
                               CompilationMode mode) *)
Definition compile (cx : JSContext W) (re : t) (input : JSLinearString)
    (mode : CompilationMode) : outcome (bool * t * JSContext W) :=
  if negb (sticky re) then
    let pattern := source re in
    compile_pattern cx re pattern input mode
  else
    let prefix := lit "^(?:" in
    let postfix := lit ")" in
    let sb := StringBuffer.empty in
    let '(ok, sb) :=
      StringBuffer.reserve (sb_limit cx)
        (size_t_wrap (size_t_wrap (str_length prefix + str_length (source re))
                      + str_length postfix)) sb in
    if negb ok then mret (false, re, cx)
    else
      sb ← StringBuffer.infallibleAppend prefix sb;
      let '(ok, sb) := StringBuffer.append (sb_limit cx) (source re) sb in
      if negb ok then mret (false, re, cx)
      else
        sb ← StringBuffer.infallibleAppend postfix sb;
        match StringBuffer.finish (sb_limit cx) sb with
        | None => mret (false, re, cx)
        | Some fakeySource => compile_pattern cx re fakeySource input mode
        end.

(** bool RegExpShared::compileIfNecessary(cx, input, mode) *)
Definition compileIfNecessary (cx : JSContext W) (re : t) (input : JSLinearString)
    (mode : CompilationMode) : outcome (bool * t * JSContext W) :=
  if isCompiled re mode (hasLatin1Chars input) || canStringMatch re then
    mret (true, re, cx)
  else compile cx re input mode.

(** The offsets of execute after its sticky adjustment. *)
Record Slice := mkSlice {
  charsOffset : Z;
  length : Z;
  origLength : Z;
  displacement : Z;
  start : Z
}.

(** Lines 564-574 of execute: the locals, and their adjustment for a sticky
    pattern. *)
Definition sticky_slice (re : t) (input : JSLinearString) (start : Z) : Slice :=
  let charsOffset := 0 in
  let length := str_length (chars input) in
  let origLength := length in
  let displacement := 0 in
  if sticky re then
    let displacement := start in
    let charsOffset := size_t_wrap (charsOffset + displacement) in
    let length := size_t_wrap (length - displacement) in
    let start := 0 in
    mkSlice charsOffset length origLength displacement start
  else mkSlice charsOffset length origLength displacement start.

(** The characters from the pointer [chars + charsOffset] on. *)
Definition chars_from (input : JSLinearString) (charsOffset : Z) : list char16_t :=
  drop (Z.to_nat charsOffset) (chars input).

(** The buffer after the engine left [b] in its array. *)
Definition written (matches : option MatchPairs.t) (b : list MatchPairs.MatchPair)
  : option MatchPairs.t :=
  (fun mp => MatchPairs.set_block mp b) <$> matches.

(** [matches->displace(displacement); matches->checkAgainst(origLength);] *)
Definition displace_and_check (sl : Slice) (mp : MatchPairs.t) : outcome MatchPairs.t :=
  mp ← MatchPairs.displace (displacement sl) mp;
  _ ← MatchPairs.checkAgainst (origLength sl) mp;
  mret mp.

(** The [while (true)] loop of execute around the native code; [fuel] bounds
    the number of attempts.  The result is the status on leaving the loop:
    Error and Success_NotFound are returned from inside it, Success breaks
    out of it. *)
Fixpoint execute_jit_loop (fuel : nat) (cx : JSContext W) (code : option JitCode)
    (chars : list char16_t) (start length : Z) (matches : option MatchPairs.t)
  : outcome (RegExpRunStatus * option MatchPairs.t * JSContext W) :=
  match fuel with
  | O => Timeout
  | S fuel =>
      match code with
      | None => Crash A_null_code
      | Some code =>
          let '(result, b, w) :=
            ExecuteCode H (world cx) code chars start length matches in
          let matches := written matches b in
          let cx := set_world cx w in
          match result with
          | RegExpRunStatus_Error =>
              (* The RegExp engine might exit with an exception if an interrupt
                 was requested. Check this case and retry until a clean result
                 is obtained. *)
              let interrupted := interrupt H (world cx) in
              if interrupted then
                let '(ok, w) := InvokeInterruptCallback H (world cx) in
                let cx := set_world cx w in
                if negb ok then mret (RegExpRunStatus_Error, matches, cx)
                else execute_jit_loop fuel cx (Some code) chars start length matches
              else
                mret (RegExpRunStatus_Error, matches, report cx js_ReportOverRecursed)
          | RegExpRunStatus_Success_NotFound =>
              mret (RegExpRunStatus_Success_NotFound, matches, cx)
          | RegExpRunStatus_Success =>
              mret (RegExpRunStatus_Success, matches, cx)
          end
      end
  end.

(** Lines 547-558 of execute: compilation at the point of use and the memory
    of the output vector.  The truth value is false where execute returns
    RegExpRunStatus_Error. *)
Definition execute_prepare (cx : JSContext W) (re : t) (input : JSLinearString)
    (matches : option MatchPairs.t)
  : outcome (bool * t * option MatchPairs.t * JSContext W) :=
  let mode := mode_of matches in
  (* Compile the code at point-of-use. *)
  '(ok, re, cx) ← compileIfNecessary cx re input mode;
  if negb ok then mret (false, re, matches, cx)
  else
    (* Ensure sufficient memory for output vector. *)
    match matches with
    | Some mp =>
        '(ok, mp, m) ← MatchPairs.allocOrExpandArray (pairCount re) mp (mem cx);
        mret (ok, re, Some mp, set_mem cx m)
    | None => mret (true, re, None, cx)
    end.

(** Lines 659-663: what follows the loop once it is left with a match. *)
Definition execute_finish (sl : Slice) (re : t)
    (r : RegExpRunStatus * option MatchPairs.t * JSContext W)
  : outcome (RegExpRunStatus * t * option MatchPairs.t * JSContext W) :=
  let '(result, matches, cx) := r in
  match result with
  | RegExpRunStatus_Success =>
      match matches with
      | Some mp =>
          mp ← displace_and_check sl mp;
          mret (RegExpRunStatus_Success, re, Some mp, cx)
      | None => mret (RegExpRunStatus_Success, re, None, cx)
      end
  | _ => mret (result, re, matches, cx)
  end.

(** Lines 576-663 of execute: the three ways of running the pattern, on the
    offsets [sl]. *)
Definition execute_dispatch (fuel : nat) (sl : Slice) (cx : JSContext W) (re : t)
    (input : JSLinearString) (matches : option MatchPairs.t)
  : outcome (RegExpRunStatus * t * option MatchPairs.t * JSContext W) :=
  let mode := mode_of matches in
  if canStringMatch re then
    _ ← MOZ_ASSERT A_pairCount_is_one (pairCount re =? 1);
    let res := StringFindPattern (chars input) (source re)
                 (size_t_wrap (start sl + charsOffset sl)) in
    if res =? -1 then mret (RegExpRunStatus_Success_NotFound, re, matches, cx)
    else
      match matches with
      | Some mp =>
          let p := MatchPairs.mkPair res
                     (int_wrap (size_t_wrap (size_t_wrap res + str_length (source re)))) in
          mp ← MatchPairs.set_pair 0 p mp;
          _ ← MatchPairs.checkAgainst (origLength sl) mp;
          mret (RegExpRunStatus_Success, re, Some mp, cx)
      | None => mret (RegExpRunStatus_Success, re, None, cx)
      end
  else
  match byteCode (compilation re mode (hasLatin1Chars input)) with
  | Some byteCode =>
      let '(ok, w) := stableChars_init H (world cx) in
      let cx := set_world cx w in
      if negb ok then mret (RegExpRunStatus_Error, re, matches, cx)
      else
        let chars := chars_from input (charsOffset sl) in
        let '(result, b, w) :=
          InterpretCode H (world cx) byteCode chars (start sl) (length sl) matches in
        let matches := written matches b in
        let cx := set_world cx w in
        match result, matches with
        | RegExpRunStatus_Success, Some mp =>
            mp ← displace_and_check sl mp;
            mret (result, re, Some mp, cx)
        | _, _ => mret (result, re, matches, cx)
        end
  | None =>
      let code := jitCode (compilation re mode (hasLatin1Chars input)) in
      let chars := chars_from input (charsOffset sl) in
      r ← execute_jit_loop fuel cx code chars (start sl) (length sl) matches;
      execute_finish sl re r
  end.

(** The two phases of the specification's account of a compiled pattern,
    against which execute_dispatch is compared.  Step 5: the run of the
    compiled code (interpreter or native code with its retries) on the
    offsets [sl], up to the status, the buffer and the context it leaves. *)
Definition run_compiled (fuel : nat) (sl : Slice) (cx : JSContext W) (re : t)
    (input : JSLinearString) (matches : option MatchPairs.t)
  : outcome (RegExpRunStatus * option MatchPairs.t * JSContext W) :=
  let slot := compilation re (mode_of matches) (hasLatin1Chars input) in
  let chars := chars_from input (charsOffset sl) in
  match byteCode slot with
  | Some byteCode =>
      let '(ok, w) := stableChars_init H (world cx) in
      if negb ok then mret (RegExpRunStatus_Error, matches, set_world cx w)
      else
        let '(result, b, w) :=
          InterpretCode H w byteCode chars (start sl) (length sl) matches in
        mret (result, written matches b, set_world cx w)
  | None => execute_jit_loop fuel cx (jitCode slot) chars (start sl) (length sl) matches
  end.

(** Step 7: on a confirmed match with captures, the un-displacement and the
    validation against the original input length. *)
Definition post_match (sl : Slice) (re : t)
    (r : RegExpRunStatus * option MatchPairs.t * JSContext W)
  : outcome (RegExpRunStatus * t * option MatchPairs.t * JSContext W) :=
  let '(st, m, cx) := r in
  match st, m with
  | RegExpRunStatus_Success, Some mp =>
      mp ← MatchPairs.displace (displacement sl) mp;
      _ ← MatchPairs.checkAgainst (origLength sl) mp;
      mret (RegExpRunStatus_Success, re, Some mp, cx)
  | _, _ => mret (st, re, m, cx)
  end.

(** RegExpRunStatus RegExpShared::execute(JSContext *cx, HandleLinearString input,
                                          size_t start, MatchPairs *matches) *)
Definition execute (fuel : nat) (cx : JSContext W) (re : t) (input : JSLinearString)
    (start : Z) (matches : option MatchPairs.t)
  : outcome (RegExpRunStatus * t * option MatchPairs.t * JSContext W) :=
  '(ok, re, matches, cx) ← execute_prepare cx re input matches;
  if negb ok then mret (RegExpRunStatus_Error, re, matches, cx)
  else execute_dispatch fuel (sticky_slice re input start) cx re input matches.

End WithHost.

End RegExpShared.

(** ** RegExpCompartment *)

Module RegExpCompartment.
Import Flags.

(** The key of the table: the source atom and the flags, compared by value. *)
Abbreviation Key := (JSAtom * RegExpFlag)%type.

(** [set_] holds pointers to RegExpShared instances, found under the key made
    of their source and flags; the instances themselves live in a heap of
    their own, by address. *)
Record t := mk {
  set_ : gmap Key positive;
  matchResultTemplateObject_ : option positive
}.

(** RegExpCompartment::RegExpCompartment followed by init *)
Definition empty : t := mk ∅ None.

(** What a call of get meets: whether the zone needs an incremental barrier,
    and whether the two allocations succeed. *)
Record Env := mkEnv {
  needsIncrementalBarrier : bool;
  new_succeeds : bool;
  add_succeeds : bool
}.

(** static inline void MaybeTraceRegExpShared(JSContext *cx, RegExpShared *shared);
    the barrier tracer of a zone is a marking tracer. *)
Definition MaybeTraceRegExpShared (env : Env) (shared : positive)
    (heap : gmap positive RegExpShared.t) : gmap positive RegExpShared.t :=
  if needsIncrementalBarrier env then alter (RegExpShared.trace true) shared heap
  else heap.

(** bool RegExpCompartment::get(JSContext *cx, JSAtom *source, RegExpFlag flags,
                                RegExpGuard *g).
    The result is the returned truth value, the pointer held by the guard
    (initially [g]), the table, the heap and the reports made. *)
Definition get (env : Env) (c : t) (heap : gmap positive RegExpShared.t)
    (source : JSAtom) (flags : RegExpFlag) (g : option positive)
  : bool * option positive * t * gmap positive RegExpShared.t * list ErrorReport :=
  let key : Key := (source, flags) in
  match set_ c !! key with
  | Some p =>
      (true, Some p, c, MaybeTraceRegExpShared env p heap, [])
  | None =>
      if negb (new_succeeds env) then (false, g, c, heap, [])
      else
        let shared := fresh (dom heap) in
        let heap' := <[shared := RegExpShared.new source flags]> heap in
        if negb (add_succeeds env) then
          (* the scoped pointer deletes the new instance *)
          (false, g, c, heap, [js_ReportOutOfMemory])
        else
          let c := mk (<[key := shared]> (set_ c)) (matchResultTemplateObject_ c) in
          (true, Some shared, c, MaybeTraceRegExpShared env shared heap', [])
  end.

(** What sweep asks of the collector. *)
Record GC := mkGC {
  isHeapCompacting : bool;
  IsStringAboutToBeFinalized : JSAtom -> bool;
  IsJitCodeAboutToBeFinalized : RegExpShared.JitCode -> bool;
  IsObjectAboutToBeFinalized : positive -> bool
}.

(** The inner loop of sweep over the compilations of one instance. *)
Fixpoint sweep_compilations (gc : GC) (cs : list RegExpShared.RegExpCompilation)
    (keep : bool) : bool :=
  match cs with
  | [] => keep
  | compilation :: cs =>
      let keep :=
        match RegExpShared.jitCode compilation with
        | Some code => if IsJitCodeAboutToBeFinalized gc code then false else keep
        | None => keep
        end in
      sweep_compilations gc cs keep
  end.

Definition sweep_keep (gc : GC) (shared : RegExpShared.t) : bool :=
  let keep := RegExpShared.marked_ shared
              && negb (IsStringAboutToBeFinalized gc (RegExpShared.source shared)) in
  sweep_compilations gc (RegExpShared.compilationArray shared) keep.

(** One round of the outer loop of sweep, at the entry [e].  An entry whose
    instance is gone from the heap is left alone; no such entry exists in a
    table whose pointers are live. *)
Definition sweep_entry (gc : GC)
    (st : gmap Key positive * gmap positive RegExpShared.t) (e : Key * positive)
  : gmap Key positive * gmap positive RegExpShared.t :=
  let '(set, heap) := st in
  let '(key, p) := e in
  match heap !! p with
  | None => (set, heap)
  | Some shared =>
      if sweep_keep gc shared || isHeapCompacting gc then
        (set, <[p := RegExpShared.set_marked shared false]> heap)
      else
        (delete key set, delete p heap)
  end.

(** void RegExpCompartment::sweep(JSRuntime *rt) *)
Definition sweep (gc : GC) (c : t) (heap : gmap positive RegExpShared.t)
  : t * gmap positive RegExpShared.t :=
  let '(set, heap) := foldl (sweep_entry gc) (set_ c, heap) (map_to_list (set_ c)) in
  let template :=
    match matchResultTemplateObject_ c with
    | Some obj => if IsObjectAboutToBeFinalized gc obj then None else Some obj
    | None => None
    end in
  (mk set template, heap).

(** A run of get calls, each with its own environment and key; the table and
    the heap are threaded through. *)
Fixpoint gets (reqs : list (Env * JSAtom * RegExpFlag)) (c : t)
    (heap : gmap positive RegExpShared.t) : t * gmap positive RegExpShared.t :=
  match reqs with
  | [] => (c, heap)
  | (env, source, flags) :: reqs =>
      let '(_, _, c, heap, _) := get env c heap source flags None in
      gets reqs c heap
  end.

(** The table and the heap agree: every entry points to a live instance made
    for that key, and no instance is entered twice. *)
Definition consistent (c : t) (heap : gmap positive RegExpShared.t) : Prop :=
  (forall key p, set_ c !! key = Some p ->
     exists shared, heap !! p = Some shared /\
       key = (RegExpShared.source shared, RegExpShared.flags shared)) /\
  (forall k1 k2 p, set_ c !! k1 = Some p -> set_ c !! k2 = Some p -> k1 = k2).

(** Retention in the words of the specification: the instance was marked
    since the last sweep and its source text and compiled code are still
    referenced from outside, or every instance is being preserved. *)
Definition code_alive (gc : GC) (compilation : RegExpShared.RegExpCompilation) : bool :=
  match RegExpShared.jitCode compilation with
  | Some code => negb (IsJitCodeAboutToBeFinalized gc code)
  | None => true
  end.

Definition spec_retained (gc : GC) (shared : RegExpShared.t) : bool :=
  (RegExpShared.marked_ shared
   && negb (IsStringAboutToBeFinalized gc (RegExpShared.source shared))
   && forallb (code_alive gc) (RegExpShared.compilationArray shared))
  || isHeapCompacting gc.

Definition spec_template (gc : GC) (c : t) : option positive :=
  match matchResultTemplateObject_ c with
  | Some obj => if IsObjectAboutToBeFinalized gc obj then None else Some obj
  | None => None
  end.

End RegExpCompartment.

(** ** A small host, for running execute on examples

    It understands the patterns [^(?:LITERAL)] that compile hands over for a
    sticky literal source, generates the literal itself as code (native code
    or bytecode, as its state says), and runs it by comparing the literal
    with the characters at position 0; on a match it records the whole match
    in the first pair and leaves the other pairs at (-1, -1).  While an
    interrupt is pending the run is abandoned with an error; the interrupt
    callback takes one pending interrupt away and answers as the state says.
    Every run is recorded with the characters, start and length it was
    given. *)

Module Toy.
Import RegExpShared.

Record World := mkWorld {
  pending : nat;
  permit : bool;
  use_jit : bool;
  calls : list (list char16_t * Z * Z)
}.

(** The literal of a pattern [^(?:LITERAL)]. *)
Definition anchored_literal (pattern : JSAtom) : option (list char16_t) :=
  if starts_with (lit "^(?:") pattern then
    match reverse (drop 4 pattern) with
    | c :: rest =>
        if (c =? chr ")") && negb (StringHasRegExpMetaChars (reverse rest))
        then Some (reverse rest) else None
    | [] => None
    end
  else None.

Definition parse (w : World) (pattern : JSAtom) (multiline match_only : bool)
  : option RegExpCompileData * World :=
  (flip mkData 0 <$> anchored_literal pattern, w).

Definition generate (w : World) (shared : t) (data : RegExpCompileData)
    (input : JSLinearString) (global ignoreCase latin1 match_only : bool)
  : RegExpCode * list Z * World :=
  if ignoreCase then (mkCode None None, tables shared, w)
  else if use_jit w then (mkCode (Some (tree data)) None, tables shared, w)
  else (mkCode None (Some (tree data)), tables shared, w).

Definition run (w : World) (code : list Z) (chars : list char16_t)
    (start length : Z) (matches : option MatchPairs.t)
  : RegExpRunStatus * list MatchPairs.MatchPair * World :=
  let b := from_option MatchPairs.block [] matches in
  let w := mkWorld (pending w) (permit w) (use_jit w)
             (calls w ++ [(chars, start, length)]) in
  if (0 <? pending w)%nat then (RegExpRunStatus_Error, b, w)
  else if (start =? 0)
          && starts_with code (take (Z.to_nat (Z.min length (str_length chars))) chars) then
    (RegExpRunStatus_Success,
     match b with
     | [] => []
     | _ :: rest => MatchPairs.mkPair 0 (str_length code)
                    :: (const MatchPairs.invalid_pair <$> rest)
     end, w)
  else (RegExpRunStatus_Success_NotFound, b, w).

Definition host : Host World :=
  mkHost World parse generate run run
    (fun w => (true, w))
    (fun w => (0 <? pending w)%nat)
    (fun w => (permit w,
               mkWorld (Nat.pred (pending w)) (permit w) (use_jit w) (calls w))).

(** A context over a world, with room for a few pairs and short buffers. *)
Definition context (w : World) : JSContext World :=
  mkCx w [] (MatchPairs.mkMemory 4096 1024 (fun _ => MatchPairs.mkPair 7 9)) 64.

Definition quiet (jit : bool) : World := mkWorld 0 true jit [].

(** The input ["xxa"], a fresh scoped buffer, and the sticky source [a]. *)
Definition xxa : JSLinearString := mkString true (lit "xxa").
Definition fresh_pairs : option MatchPairs.t :=
  Some (MatchPairs.new MatchPairs.ScopedMatchPairs).
Definition sticky_a : t := new (lit "a") Flags.StickyFlag.

End Toy.

(** ** The compilation slots of an instance *)

Module Slots.
Import RegExpShared.

(** [compilationArray] is an array of four compilations. *)
Definition slots_ok (re : t) : Prop := List.length (compilationArray re) = 4%nat.

End Slots.

(** ** The other entry points of the table *)

Module RegExpCompartmentOps.
Import Flags RegExpCompartment.

(** bool RegExpCompartment::get(JSContext *cx, HandleAtom atom, JSString *opt,
                                RegExpGuard *g).
    [opt] is [None] for a null flag string and otherwise what
    [ensureLinear] makes of it; [lastParsed0] is as in js::ParseRegExpFlags. *)
Definition get_opt (env : Env) (c : t) (heap : gmap positive RegExpShared.t)
    (atom : JSAtom) (opt : option (option JSLinearString)) (lastParsed0 : char16_t)
    (g : option positive)
  : bool * option positive * t * gmap positive RegExpShared.t * list ErrorReport :=
  let flags : RegExpFlag := 0 in
  match opt with
  | Some flagStr =>
      let '(ok, flags, reports) := js_ParseRegExpFlags flagStr flags lastParsed0 in
      if negb ok then (false, g, c, heap, reports)
      else get env c heap atom flags g
  | None => get env c heap atom flags g
  end.

(** RegExpCompartment::~RegExpCompartment(): every instance still entered is
    deleted. *)
Definition destroy (c : t) (heap : gmap positive RegExpShared.t)
  : gmap positive RegExpShared.t :=
  foldl (fun heap (e : Key * positive) => delete e.2 heap) heap (map_to_list (set_ c)).

(** Every instance of the heap is entered in the table. *)
Definition no_leak (c : t) (heap : gmap positive RegExpShared.t) : Prop :=
  forall p, is_Some (heap !! p) -> exists key, set_ c !! key = Some p.

End RegExpCompartmentOps.

(** * Properties *)

(** Case analysis on the condition of the first conditional of the goal. *)
Ltac case_if :=
  match goal with
  | |- context [if ?c then _ else _] => destruct c eqn:?
  end.

Tactic Notation "case_if" "as" ident(E) :=
  match goal with
  | |- context [if ?c then _ else _] => destruct c eqn:E
  end.

(** ** Flag parsing *)

Section FlagFacts.
Import Flags.

Lemma flag_of_char_cases c f :
  flag_of_char c = Some f ->
  (c = chr "i" /\ f = IgnoreCaseFlag) \/ (c = chr "g" /\ f = GlobalFlag) \/
  (c = chr "m" /\ f = MultilineFlag) \/ (c = chr "y" /\ f = StickyFlag).
Proof.
  unfold flag_of_char.
  destruct (Z.eqb_spec c (chr "i")); [intros [= <-]; tauto|].
  destruct (Z.eqb_spec c (chr "g")); [intros [= <-]; tauto|].
  destruct (Z.eqb_spec c (chr "m")); [intros [= <-]; tauto|].
  destruct (Z.eqb_spec c (chr "y")); [intros [= <-]; tauto|].
  discriminate.
Qed.

Lemma flag_of_char_inj c1 c2 f :
  flag_of_char c1 = Some f -> flag_of_char c2 = Some f -> c1 = c2.
Proof.
  intros H1 H2.
  apply flag_of_char_cases in H1, H2.
  unfold IgnoreCaseFlag, GlobalFlag, MultilineFlag, StickyFlag in *.
  intuition congruence.
Qed.

Lemma small_flags_cases (x : Z) :
  0 <= x <= AllFlags ->
  x = 0 \/ x = 1 \/ x = 2 \/ x = 3 \/ x = 4 \/ x = 5 \/ x = 6 \/ x = 7 \/
  x = 8 \/ x = 9 \/ x = 10 \/ x = 11 \/ x = 12 \/ x = 13 \/ x = 14 \/ x = 15.
Proof. unfold AllFlags. lia. Qed.

(** Setting one flag bit leaves the other three as they were. *)
Lemma has_flag_lor flags c f c' f' :
  0 <= flags <= AllFlags ->
  flag_of_char c = Some f -> flag_of_char c' = Some f' ->
  0 <= Z.lor flags f <= AllFlags /\
  has_flag (Z.lor flags f) f' = has_flag flags f' || bool_decide (c' = c).
Proof.
  intros Hr Hc Hc'.
  destruct (flag_of_char_cases _ _ Hc) as [[-> ->]|[[-> ->]|[[-> ->]|[-> ->]]]];
  destruct (flag_of_char_cases _ _ Hc') as [[-> ->]|[[-> ->]|[[-> ->]|[-> ->]]]];
  destruct (small_flags_cases _ Hr) as
    [->|[->|[->|[->|[->|[->|[->|[->|[->|[->|[->|[->|[->|[->|[->| ->]]]]]]]]]]]]]]];
  vm_compute; intuition congruence.
Qed.

Lemma bits_of_letters_nil : bits_of_letters [] 0.
Proof.
  split; [unfold AllFlags; lia|].
  intros c f Hf. rewrite elem_of_nil.
  destruct (flag_of_char_cases _ _ Hf) as [[-> ->]|[[-> ->]|[[-> ->]|[-> ->]]]];
    vm_compute; intuition congruence.
Qed.

Lemma HandleRegExpFlag_seen seen flags c f :
  bits_of_letters seen flags -> flag_of_char c = Some f -> c ∈ seen ->
  HandleRegExpFlag f flags = (false, flags).
Proof.
  intros [_ Hb] Hf Hin. unfold HandleRegExpFlag.
  apply (Hb _ _ Hf) in Hin. by rewrite Hin.
Qed.

Lemma HandleRegExpFlag_fresh seen flags c f :
  bits_of_letters seen flags -> flag_of_char c = Some f -> c ∉ seen ->
  HandleRegExpFlag f flags = (true, Z.lor flags f) /\
  bits_of_letters (seen ++ [c]) (Z.lor flags f).
Proof.
  intros [Hr Hb] Hf Hnin. unfold HandleRegExpFlag.
  destruct (has_flag flags f) eqn:E.
  { apply (Hb _ _ Hf) in E. contradiction. }
  split; [done|]. split.
  - by destruct (has_flag_lor flags c f c f Hr Hf Hf).
  - intros c' f' Hf'.
    destruct (has_flag_lor flags c f c' f' Hr Hf Hf') as [_ ->].
    rewrite elem_of_app, list_elem_of_singleton, orb_true_iff, bool_decide_eq_true.
    by rewrite (Hb _ _ Hf').
Qed.

Lemma clean_after_nil pre : clean_after pre [].
Proof. intros i c. by rewrite lookup_nil. Qed.

Lemma clean_after_cons pre c s :
  is_flag_letter c = true -> c ∉ pre -> clean_after (pre ++ [c]) s ->
  clean_after pre (c :: s).
Proof.
  intros Hl Hn Hs [|i] d; simpl.
  - intros [= <-]. by rewrite app_nil_r.
  - intros Hd. specialize (Hs i d Hd). by rewrite <- app_assoc in Hs.
Qed.

(** The loop, started after the letters [pre] with their bits in [flags]. *)
Lemma ParseRegExpFlags_loop_spec s : forall pre flags last,
  bits_of_letters pre flags ->
  match ParseRegExpFlags_loop s flags last with
  | (true, flags', last') =>
      bits_of_letters (pre ++ s) flags' /\ clean_after pre s
  | (false, _, c) =>
      exists i, s !! i = Some c /\
        (is_flag_letter c = false \/ c ∈ pre ++ take i s) /\
        clean_after pre (take i s)
  end.
Proof.
  induction s as [|c s IH]; intros pre flags last Hinv; simpl.
  - rewrite app_nil_r. auto using clean_after_nil.
  - destruct (flag_of_char c) as [f|] eqn:Hf.
    + destruct (decide (c ∈ pre)) as [Hin|Hnin].
      * rewrite (HandleRegExpFlag_seen _ _ _ _ Hinv Hf Hin).
        exists 0%nat. simpl. rewrite app_nil_r. auto using clean_after_nil.
      * destruct (HandleRegExpFlag_fresh _ _ _ _ Hinv Hf Hnin) as [-> Hinv'].
        specialize (IH (pre ++ [c]) (Z.lor flags f) c Hinv').
        assert (Hl : is_flag_letter c = true) by (unfold is_flag_letter; by rewrite Hf).
        destruct (ParseRegExpFlags_loop s (Z.lor flags f) c) as [[[] fl] lp].
        -- destruct IH as (Hb & Hc). rewrite <- app_assoc in Hb.
           split; [exact Hb|]. by apply clean_after_cons.
        -- destruct IH as (i & Hi & Ho & Hc). exists (S i). simpl.
           rewrite <- app_assoc in Ho. split; [done|]. split; [done|].
           by apply clean_after_cons.
    + exists 0%nat. simpl. unfold is_flag_letter. rewrite Hf.
      auto using clean_after_nil.
Qed.

Lemma clean_after_not_offending s :
  clean_after [] s -> forall i c, ~ offending_at s i c.
Proof.
  intros Hc i c [Hi Ho]. destruct (Hc i c Hi) as [Hl Hn]. simpl in Hn.
  destruct Ho; congruence.
Qed.

Lemma first_offending_intro s i c :
  s !! i = Some c ->
  (is_flag_letter c = false \/ c ∈ take i s) ->
  clean_after [] (take i s) ->
  first_offending s i c.
Proof.
  intros Hi Ho Hc. split; [done|].
  intros j d Hj [Hd Hod].
  assert (Hd' : take i s !! j = Some d) by (by rewrite lookup_take_lt).
  destruct (Hc j d Hd') as [Hl Hn]. simpl in Hn.
  rewrite take_take in Hn. replace (j `min` i)%nat with j in Hn by lia.
  destruct Hod; congruence.
Qed.

Lemma to_char_latin1 c : 0 <= c < 256 -> to_char c = c.
Proof. intros H. unfold to_char. by rewrite Z.mod_small. Qed.

(** C5, as the code has it: parsing a linear flag string fails exactly when
    some position holds a character that is no flag letter or a letter seen
    before.  On failure one report is made, always under the one error number
    JSMSG_BAD_REGEXP_FLAG, for the character at the first such position:
    the argument of the report is that character when it fits a [char] and
    is not NUL, and the empty string when its low byte is NUL, which ends the
    [char] buffer at once.  On success nothing is reported and the bits set
    are exactly those of the letters present; the empty string succeeds with
    no bit set. *)
Theorem js_ParseRegExpFlags_outcome (linear : JSLinearString) flags0 last0 :
  let s := chars linear in
  let r := js_ParseRegExpFlags (Some linear) flags0 last0 in
  (r.1.1 = false <-> exists i c, offending_at s i c) /\
  (r.1.1 = false ->
     exists i c arg, first_offending s i c /\
       r.2 = [mkReport JSMSG_BAD_REGEXP_FLAG arg] /\
       (0 < c < 256 -> arg = [c]) /\
       (to_char c = 0 -> arg = [])) /\
  (r.1.1 = true -> r.2 = [] /\ bits_of_letters s r.1.2) /\
  (s = [] -> r = (true, 0, [])).
Proof.
  intros s r. subst r. unfold js_ParseRegExpFlags, ParseRegExpFlags.
  pose proof (ParseRegExpFlags_loop_spec s [] 0 last0 bits_of_letters_nil) as H.
  fold s. destruct (ParseRegExpFlags_loop s 0 last0) as [[[] fl] lp] eqn:E; simpl.
  - destruct H as [Hb Hc]. simpl in Hb.
    split; [|split; [done|split; [done|]]].
    + split; [done|]. intros (i & c & Ho).
      by destruct (clean_after_not_offending s Hc i c).
    + intros Hs. rewrite Hs in E. simpl in E. by injection E as <- _.
  - destruct H as (i & Hi & Ho & Hc). simpl in Ho.
    pose proof (first_offending_intro s i lp Hi Ho Hc) as Hfirst.
    split; [|split; [|split; [done|]]].
    + split; [|done]. intros _. exists i, lp. apply Hfirst.
    + intros _. exists i, lp, (c_str [to_char lp; 0]).
      split; [done|]. split; [done|]. cbn [c_str]. split.
      * intros Hr. rewrite to_char_latin1 by lia.
        destruct (Z.eqb_spec lp 0) as [?|_]; [lia|done].
      * by intros ->.
    + intros Hs. rewrite Hs in Hi. by rewrite lookup_nil in Hi.
Qed.

(** C5 as stated fails: a repeated letter and an unknown letter are reported
    under the same error number, so the two kinds of failure are not told
    apart by the error raised. *)
Lemma js_ParseRegExpFlags_one_error_kind :
  (js_ParseRegExpFlags (Some (mkString true (lit "gg"))) 0 0).2
    = [mkReport JSMSG_BAD_REGEXP_FLAG [chr "g"]] /\
  (js_ParseRegExpFlags (Some (mkString true (lit "x"))) 0 0).2
    = [mkReport JSMSG_BAD_REGEXP_FLAG [chr "x"]] /\
  errorNumber <$> (js_ParseRegExpFlags (Some (mkString true (lit "gg"))) 0 0).2
    = errorNumber <$> (js_ParseRegExpFlags (Some (mkString true (lit "x"))) 0 0).2.
Proof. by vm_compute. Qed.

(** The character handed to the report is the low byte of the offending code
    unit: U+0167 alone is reported exactly as the repeated letter of ["gg"]. *)
Example js_ParseRegExpFlags_two_byte_report :
  (js_ParseRegExpFlags (Some (mkString false [0x167])) 0 0).2
    = (js_ParseRegExpFlags (Some (mkString true (lit "gg"))) 0 0).2.
Proof. by vm_compute. Qed.

(** A NUL as the offending character ends the argument before it begins. *)
Example js_ParseRegExpFlags_nul_report :
  (js_ParseRegExpFlags (Some (mkString true [0])) 0 0).2
    = [mkReport JSMSG_BAD_REGEXP_FLAG []].
Proof. by vm_compute. Qed.

Example js_ParseRegExpFlags_gim :
  js_ParseRegExpFlags (Some (mkString true (lit "gim"))) 0 0
    = (true, Z.lor (Z.lor GlobalFlag IgnoreCaseFlag) MultilineFlag, []).
Proof. by vm_compute. Qed.

End FlagFacts.

(** ** Textual form of a RegExp object *)

Section ToStringFacts.
Import Flags RegExpObject.

Lemma str_length_app (a b : list char16_t) :
  str_length (a ++ b) = str_length a + str_length b.
Proof. unfold str_length. rewrite length_app. lia. Qed.

Lemma str_length_nonneg (a : list char16_t) : 0 <= str_length a.
Proof. unfold str_length. lia. Qed.

Lemma append_spec limit cs sb :
  StringBuffer.append limit cs sb =
    if StringBuffer.length sb + str_length cs <=? limit
    then (true, StringBuffer.mk (StringBuffer.contents sb ++ cs)
                  (Z.max (StringBuffer.reserved sb)
                         (StringBuffer.length sb + str_length cs)))
    else (false, sb).
Proof. reflexivity. Qed.

(** The four conditional appends and the final allocation, from a buffer
    that holds [body]. *)
Lemma toString_flags_phase limit (g i m y : bool) body res :
  str_length body <= limit ->
  (let sb := StringBuffer.mk body res in
   let '(ok, sb) := append_if limit g "g" sb in
   if negb ok then mret None else
   let '(ok, sb) := append_if limit i "i" sb in
   if negb ok then mret None else
   let '(ok, sb) := append_if limit m "m" sb in
   if negb ok then mret None else
   let '(ok, sb) := append_if limit y "y" sb in
   if negb ok then mret None else
   mret (StringBuffer.finish limit sb))
  = Done (let out := body ++ (if g then [chr "g"] else []) ++
                     (if i then [chr "i"] else []) ++
                     (if m then [chr "m"] else []) ++
                     (if y then [chr "y"] else []) in
          if str_length out <=? limit then Some out else None).
Proof.
  intros Hbody.
  destruct g, i, m, y; cbn -[Z.leb chr Z.max];
    unfold append_if, StringBuffer.append, StringBuffer.finish, StringBuffer.length;
    cbn -[Z.leb chr Z.max];
    rewrite ?str_length_app, ?app_nil_r, <- ?app_assoc;
    change (str_length [chr "g"]) with 1; change (str_length [chr "i"]) with 1;
    change (str_length [chr "m"]) with 1; change (str_length [chr "y"]) with 1;
    repeat (match goal with |- context [?a <=? ?b] => destruct (Z.leb_spec a b) end;
            cbn -[Z.leb chr Z.max];
            rewrite ?str_length_app, ?app_nil_r, <- ?app_assoc;
            change (str_length [chr "g"]) with 1; change (str_length [chr "i"]) with 1;
            change (str_length [chr "m"]) with 1; change (str_length [chr "y"]) with 1);
    try reflexivity;
    exfalso; unfold str_length in *; cbn [List.length] in *; lia.
Qed.

Lemma size_t_wrap_small x : 0 <= x < 2 ^ SIZE_BITS -> size_t_wrap x = x.
Proof. intros H. unfold size_t_wrap. by apply Z.mod_small. Qed.

Lemma spec_flag_letters_length flags : 0 <= str_length (spec_flag_letters flags).
Proof. apply str_length_nonneg. Qed.

Lemma infallibleAppend_ok cs sb :
  StringBuffer.length sb + str_length cs <= StringBuffer.reserved sb ->
  StringBuffer.infallibleAppend cs sb =
    Done (StringBuffer.mk (StringBuffer.contents sb ++ cs) (StringBuffer.reserved sb)).
Proof.
  intros H. unfold StringBuffer.infallibleAppend, MOZ_ASSERT.
  by replace (StringBuffer.length sb + str_length cs <=? StringBuffer.reserved sb)
    with true by (symmetry; apply Z.leb_le; lia).
Qed.

Lemma reserve_contents limit n sb ok sb' :
  StringBuffer.reserve limit n sb = (ok, sb') ->
  StringBuffer.contents sb' = StringBuffer.contents sb.
Proof. unfold StringBuffer.reserve. case_if; by intros [= <- <-]. Qed.

Lemma infallibleAppend_Done cs sb sb' :
  StringBuffer.infallibleAppend cs sb = Done sb' ->
  StringBuffer.contents sb' = StringBuffer.contents sb ++ cs.
Proof.
  unfold StringBuffer.infallibleAppend, MOZ_ASSERT. case_if; [|done].
  by intros [= <-].
Qed.

Lemma append_Done limit cs sb sb' :
  StringBuffer.append limit cs sb = (true, sb') ->
  StringBuffer.contents sb' = StringBuffer.contents sb ++ cs.
Proof. unfold StringBuffer.append. case_if; [|done]. by intros [= <-]. Qed.

Lemma finish_Some limit sb cs :
  StringBuffer.finish limit sb = Some cs -> cs = StringBuffer.contents sb.
Proof. unfold StringBuffer.finish. case_if; [|done]. by intros [= <-]. Qed.

Lemma toString_init limit self src flags :
  str_length src + 2 < 2 ^ SIZE_BITS ->
  toString limit (init true self src flags).2 =
    Done (if str_length (spec_toString src flags) <=? limit
          then Some (spec_toString src flags) else None).
Proof.
  intros Hlen. unfold toString, init, spec_toString.
  cbn [negb snd source global ignoreCase multiline sticky].
  pose proof (spec_flag_letters_length flags) as Hfl.
  pose proof (str_length_nonneg src) as Hsrc.
  destruct src as [|c src].
  - change (str_length [] =? 0) with true. cbn [negb spec_body].
    rewrite append_spec. change (StringBuffer.length StringBuffer.empty) with 0.
    rewrite Z.add_0_l.
    destruct (Z.leb_spec (str_length (lit "/(?:)/")) limit) as [Hle|Hgt].
    + cbn [mbind outcome_bind mret outcome_ret negb StringBuffer.contents app].
      apply (toString_flags_phase limit
               (has_flag flags GlobalFlag) (has_flag flags IgnoreCaseFlag)
               (has_flag flags MultilineFlag) (has_flag flags StickyFlag)
               (lit "/(?:)/")). exact Hle.
    + cbn [mbind outcome_bind mret outcome_ret negb].
      rewrite str_length_app.
      destruct (Z.leb_spec (str_length (lit "/(?:)/") + str_length (spec_flag_letters flags)) limit);
        [lia|done].
  - set (s := c :: src) in *.
    assert (Hpos : 0 < str_length s) by (unfold s, str_length; simpl; lia).
    replace (str_length s =? 0) with false by (symmetry; apply Z.eqb_neq; lia).
    cbn [negb spec_body]. fold s.
    rewrite size_t_wrap_small by lia.
    unfold StringBuffer.reserve.
    assert (Hsp : spec_body s = [chr "/"] ++ s ++ [chr "/"]) by reflexivity.
    assert (Hbl : str_length ([chr "/"] ++ s ++ [chr "/"]) = str_length s + 2).
    { rewrite !str_length_app. change (str_length [chr "/"]) with 1. lia. }
    rewrite Hsp.
    destruct (Z.leb_spec (str_length s + 2) limit) as [Hle|Hgt].
    + cbn [negb StringBuffer.contents StringBuffer.reserved StringBuffer.empty].
      rewrite infallibleAppend_ok
        by (unfold StringBuffer.length; cbn [StringBuffer.contents StringBuffer.reserved];
            change (str_length [chr "/"]) with 1; change (str_length []) with 0; lia).
      cbn [mbind outcome_bind StringBuffer.contents StringBuffer.reserved app].
      rewrite append_spec. unfold StringBuffer.length at 1.
      cbn [StringBuffer.contents StringBuffer.reserved].
      change (str_length [chr "/"]) with 1.
      replace (1 + str_length s <=? limit) with true
        by (symmetry; apply Z.leb_le; lia).
      cbn [negb].
      rewrite infallibleAppend_ok
        by (unfold StringBuffer.length; cbn [StringBuffer.contents StringBuffer.reserved];
            rewrite str_length_app;
            change (str_length [chr "/"]) with 1; lia).
      cbn [mbind outcome_bind mret outcome_ret negb
           StringBuffer.contents StringBuffer.reserved].
      apply (toString_flags_phase limit
               (has_flag flags GlobalFlag) (has_flag flags IgnoreCaseFlag)
               (has_flag flags MultilineFlag) (has_flag flags StickyFlag)
               ([chr "/"] ++ s ++ [chr "/"])).
      lia.
    + cbn [mbind outcome_bind mret outcome_ret negb].
      rewrite str_length_app, Hbl.
      destruct (Z.leb_spec (str_length s + 2 + str_length (spec_flag_letters flags)) limit);
        [lia|done].
Qed.

(** C6: the text of a RegExp object initialised from [src] and [flags] is
    [/src/] (or [/(?:)/] for the empty source) followed by the letters of the
    set bits in the order g, i, m, y, whenever the string buffer obtains the
    memory it needs; the flags parsed from ["gim"] render as ["gim"] again,
    and the empty source without flags renders as ["/(?:)/"]. *)
Theorem toString_canonical limit self src flags
    (Hlen : str_length src + 2 < 2 ^ SIZE_BITS) :
  toString limit (init true self src flags).2 =
    Done (if str_length (spec_toString src flags) <=? limit
          then Some (spec_toString src flags) else None) /\
  (let parsed := (js_ParseRegExpFlags (Some (mkString true (lit "gim"))) 0 0).1.2 in
   spec_flag_letters parsed = lit "gim" /\
   toString 64 (init true self (lit "a") parsed).2 = Done (Some (lit "/a/gim"))) /\
  toString 64 (init true self [] 0).2 = Done (Some (lit "/(?:)/")).
Proof.
  split; [by apply toString_init|].
  split; [split|].
  - by vm_compute.
  - rewrite toString_init by (by vm_compute). by vm_compute.
  - rewrite toString_init by (by vm_compute). by vm_compute.
Qed.

Lemma toString_canonical_witness :
  toString 5 (init true blank (lit "ab+c") (Z.lor GlobalFlag StickyFlag)).2 = Done None /\
  toString 8 (init true blank (lit "ab+c") (Z.lor GlobalFlag StickyFlag)).2
    = Done (Some (lit "/ab+c/gy")).
Proof.
  split.
  - etransitivity;
      [apply (toString_canonical 5 blank (lit "ab+c") (Z.lor GlobalFlag StickyFlag));
       by vm_compute|by vm_compute].
  - etransitivity;
      [apply (toString_canonical 8 blank (lit "ab+c") (Z.lor GlobalFlag StickyFlag));
       by vm_compute|by vm_compute].
Defined.

End ToStringFacts.

(** ** The table of shared instances *)

Section CompartmentFacts.
Import Flags RegExpCompartment.

Implicit Types (c : t) (heap : gmap positive RegExpShared.t).

Lemma get_hit env c heap source flags g p :
  set_ c !! (source, flags) = Some p ->
  get env c heap source flags g
    = (true, Some p, c, MaybeTraceRegExpShared env p heap, []).
Proof. intros Hp. unfold get. cbv zeta. by rewrite Hp. Qed.

(** A successful get leaves its result in the table under the key asked for;
    it found it there, or it entered a fresh instance, one entry more. *)
Lemma get_success env c heap source flags g p c1 heap1 r1 :
  get env c heap source flags g = (true, Some p, c1, heap1, r1) ->
  set_ c1 !! (source, flags) = Some p /\
  ((set_ c !! (source, flags) = Some p /\ c1 = c) \/
   (set_ c !! (source, flags) = None /\ heap !! p = None /\
    set_ c1 = <[(source, flags) := p]> (set_ c) /\
    size (set_ c1) = S (size (set_ c)) /\
    heap1 !! p = Some (RegExpShared.trace (needsIncrementalBarrier env)
                         (RegExpShared.new source flags)))).
Proof.
  unfold get. cbv zeta. destruct (set_ c !! (source, flags)) as [q|] eqn:Hq.
  - intros [= <- <- _ _]. split; [done|]. by left.
  - destruct (new_succeeds env); [|discriminate].
    destruct (add_succeeds env); [|discriminate].
    cbn [negb]. intros [= <- <- <- _]. cbn [set_].
    split; [by rewrite lookup_insert_eq|]. right.
    assert (Hfresh : heap !! fresh (dom heap) = None).
    { apply not_elem_of_dom, is_fresh. }
    split; [done|]. split; [done|]. split; [done|].
    split; [by apply map_size_insert_None|].
    unfold MaybeTraceRegExpShared, RegExpShared.trace.
    destruct (needsIncrementalBarrier env).
    + by rewrite lookup_alter_eq, lookup_insert_eq.
    + by rewrite lookup_insert_eq.
Qed.

(** No get takes an entry away or changes it. *)
Lemma get_keeps_entries env c heap source flags g key p :
  set_ c !! key = Some p ->
  set_ (get env c heap source flags g).1.1.2 !! key = Some p.
Proof.
  intros Hk. unfold get. cbv zeta.
  destruct (set_ c !! (source, flags)) as [q|] eqn:Hq; [done|].
  destruct (new_succeeds env); [|done].
  destruct (add_succeeds env); [|done].
  cbn [negb fst snd set_]. rewrite lookup_insert_ne; [done|]. congruence.
Qed.

Lemma gets_keep_entries reqs : forall c heap key p,
  set_ c !! key = Some p -> set_ (gets reqs c heap).1 !! key = Some p.
Proof.
  induction reqs as [|[[env source] flags] reqs IH]; intros c heap key p Hk; [done|].
  cbn [gets].
  pose proof (get_keeps_entries env c heap source flags None key p Hk) as Hk'.
  destruct (get env c heap source flags None) as [[[[b g] c1] heap1] r1].
  by apply IH.
Qed.

(** C1: a lookup of (source, flags) that finds the key returns the instance
    entered under it and enters nothing; one that misses, its two allocations
    succeeding, constructs one instance for that source and those flags at
    an address not in use, enters it under the key as the one new entry, and
    returns it; nothing else in table or heap changes.  Every later lookup
    of an equal source and equal flags in that table, whatever was looked up
    in between, then returns the instance at the same address and enters
    nothing. *)
Theorem get_same_instance env1 c heap source flags g1
    (Halloc : set_ c !! (source, flags) = None ->
              new_succeeds env1 = true /\ add_succeeds env1 = true) :
  exists p c1 heap1,
    get env1 c heap source flags g1 = (true, Some p, c1, heap1, []) /\
    match set_ c !! (source, flags) with
    | Some q =>
        p = q /\ c1 = c /\ heap1 = MaybeTraceRegExpShared env1 p heap
    | None =>
        heap !! p = None /\
        set_ c1 = <[(source, flags) := p]> (set_ c) /\
        matchResultTemplateObject_ c1 = matchResultTemplateObject_ c /\
        size (set_ c1) = S (size (set_ c)) /\
        (forall key, key <> (source, flags) -> set_ c1 !! key = set_ c !! key) /\
        heap1 !! p = Some (RegExpShared.trace (needsIncrementalBarrier env1)
                             (RegExpShared.new source flags)) /\
        (forall q, q <> p -> heap1 !! q = heap !! q)
    end /\
    forall env2 reqs g2,
      let '(c2, heap2) := gets reqs c1 heap1 in
      get env2 c2 heap2 source flags g2
        = (true, Some p, c2, MaybeTraceRegExpShared env2 p heap2, []).
Proof.
  assert (Hlater : forall p c1 heap1,
            set_ c1 !! (source, flags) = Some p ->
            forall env2 reqs g2,
              let '(c2, heap2) := gets reqs c1 heap1 in
              get env2 c2 heap2 source flags g2
                = (true, Some p, c2, MaybeTraceRegExpShared env2 p heap2, [])).
  { intros p c1 heap1 Hin env2 reqs g2.
    pose proof (gets_keep_entries reqs c1 heap1 _ _ Hin) as Hk.
    destruct (gets reqs c1 heap1) as [c2 heap2]. cbn [fst] in Hk. by apply get_hit. }
  destruct (set_ c !! (source, flags)) as [q|] eqn:Hq.
  - exists q, c, (MaybeTraceRegExpShared env1 q heap).
    split; [by apply get_hit|]. split; [done|]. by apply Hlater.
  - destruct (Halloc eq_refl) as [Hnew Hadd].
    assert (Hfresh : heap !! fresh (dom heap) = None).
    { apply not_elem_of_dom, is_fresh. }
    eexists (fresh (dom heap)), _, _. split; [|split].
    + unfold get. cbv zeta. rewrite Hq, Hnew, Hadd. reflexivity.
    + cbn [set_ matchResultTemplateObject_]. split; [done|]. split; [done|].
      split; [done|]. split; [by apply map_size_insert_None|].
      split; [intros key Hne; by rewrite lookup_insert_ne|].
      unfold MaybeTraceRegExpShared, RegExpShared.trace.
      destruct (needsIncrementalBarrier env1).
      * split; [by rewrite lookup_alter_eq, lookup_insert_eq|].
        intros q Hne. by rewrite lookup_alter_ne, lookup_insert_ne.
      * split; [by rewrite lookup_insert_eq|].
        intros q Hne. by rewrite lookup_insert_ne.
    + apply Hlater. cbn [set_]. by rewrite lookup_insert_eq.
Qed.

Lemma get_same_instance_witness :
  let env := mkEnv false true true in
  exists p c1 heap1,
    get env empty ∅ (lit "a*") GlobalFlag None = (true, Some p, c1, heap1, []) /\
    size (set_ c1) = 1%nat /\
    heap1 !! p = Some (RegExpShared.new (lit "a*") GlobalFlag) /\
    let '(c2, heap2) :=
      gets [(env, lit "b+", GlobalFlag); (env, lit "a*", 0)] c1 heap1 in
    get env c2 heap2 (lit "a*") GlobalFlag None
      = (true, Some p, c2, MaybeTraceRegExpShared env p heap2, []).
Proof.
  intros env.
  destruct (get_same_instance env empty ∅ (lit "a*") GlobalFlag None
              (fun _ => conj eq_refl eq_refl))
    as (p & c1 & heap1 & Hget & Hcase & Hlater).
  exists p, c1, heap1. split; [done|].
  change (set_ empty !! (lit "a*", GlobalFlag)) with (@None positive) in Hcase.
  destruct Hcase as (_ & _ & _ & Hsize & _ & Hnew & _).
  split; [exact Hsize|]. split; [exact Hnew|].
  apply (Hlater env [(env, lit "b+", GlobalFlag); (env, lit "a*", 0)] None).
Defined.

(** *** Consistency of the table with the heap *)

Lemma consistent_empty : consistent empty ∅.
Proof. split; intros *; cbn [set_ empty]; by rewrite lookup_empty. Qed.

Lemma trace_key b shared :
  RegExpShared.source (RegExpShared.trace b shared) = RegExpShared.source shared /\
  RegExpShared.flags (RegExpShared.trace b shared) = RegExpShared.flags shared.
Proof. by destruct b. Qed.

Lemma consistent_trace env c heap q :
  consistent c heap -> consistent c (MaybeTraceRegExpShared env q heap).
Proof.
  intros [Hlive Hinj]. split; [|done].
  intros key p Hp. destruct (Hlive key p Hp) as (shared & Hs & Hk).
  unfold MaybeTraceRegExpShared. destruct (needsIncrementalBarrier env); [|eauto].
  destruct (decide (q = p)) as [->|Hne].
  - exists (RegExpShared.trace true shared). by rewrite lookup_alter_eq, Hs.
  - exists shared. by rewrite lookup_alter_ne.
Qed.

Lemma get_consistent env c heap source flags g :
  consistent c heap ->
  let r := get env c heap source flags g in
  consistent r.1.1.2 r.1.2.
Proof.
  intros Hc. unfold get. cbv zeta.
  destruct (set_ c !! (source, flags)) as [q|] eqn:Hq.
  { cbn [fst snd]. by apply consistent_trace. }
  destruct (new_succeeds env); [|done].
  destruct (add_succeeds env); [|done].
  cbn [negb fst snd]. apply consistent_trace.
  destruct Hc as [Hlive Hinj].
  assert (Hfresh : heap !! fresh (dom heap) = None).
  { apply not_elem_of_dom, is_fresh. }
  split; cbn [set_].
  - intros key p. destruct (decide (key = (source, flags))) as [->|Hne].
    + rewrite lookup_insert_eq. intros [= <-].
      exists (RegExpShared.new source flags). by rewrite lookup_insert_eq.
    + rewrite lookup_insert_ne by done. intros Hp.
      destruct (Hlive key p Hp) as (shared & Hs & Hk). exists shared.
      split; [|done]. rewrite lookup_insert_ne; [done|]. congruence.
  - intros k1 k2 p.
    destruct (decide (k1 = (source, flags))) as [->|Hn1];
      destruct (decide (k2 = (source, flags))) as [->|Hn2]; [done|..].
    + rewrite lookup_insert_eq, lookup_insert_ne by done. intros [= <-] Hp.
      destruct (Hlive _ _ Hp) as (? & ? & _). congruence.
    + rewrite lookup_insert_eq, lookup_insert_ne by done. intros Hp [= <-].
      destruct (Hlive _ _ Hp) as (? & ? & _). congruence.
    + rewrite !lookup_insert_ne by done. apply Hinj.
Qed.

Lemma gets_consistent reqs : forall c heap,
  consistent c heap ->
  consistent (gets reqs c heap).1 (gets reqs c heap).2.
Proof.
  induction reqs as [|[[env source] flags] reqs IH]; intros c heap Hc; [done|].
  cbn [gets].
  pose proof (get_consistent env c heap source flags None Hc) as Hc'.
  destruct (get env c heap source flags None) as [[[[b g] c1] heap1] r1].
  by apply IH.
Qed.

(** *** sweep *)

Lemma sweep_compilations_spec gc cs keep :
  sweep_compilations gc cs keep = keep && forallb (code_alive gc) cs.
Proof.
  revert keep. induction cs as [|c cs IH]; intros keep; simpl.
  - by rewrite andb_true_r.
  - rewrite IH. unfold code_alive at 2.
    destruct (RegExpShared.jitCode c) as [code|]; [|done].
    by destruct (IsJitCodeAboutToBeFinalized gc code), keep.
Qed.

Lemma sweep_keep_spec gc shared :
  sweep_keep gc shared || isHeapCompacting gc = spec_retained gc shared.
Proof. unfold sweep_keep, spec_retained. by rewrite sweep_compilations_spec. Qed.

(** The outer loop over a list of entries with distinct keys and distinct
    pointers: each listed entry is decided on the instance it points to, and
    nothing else changes. *)
Lemma sweep_loop_spec gc (l : list (Key * positive)) :
  forall (set : gmap Key positive) heap,
  NoDup l.*1 -> NoDup l.*2 ->
  let r := foldl (sweep_entry gc) (set, heap) l in
  (forall key p shared, (key, p) ∈ l -> heap !! p = Some shared ->
     if spec_retained gc shared
     then r.1 !! key = set !! key /\
          r.2 !! p = Some (RegExpShared.set_marked shared false)
     else r.1 !! key = None /\ r.2 !! p = None) /\
  (forall key, key ∉ l.*1 -> r.1 !! key = set !! key) /\
  (forall p, p ∉ l.*2 -> r.2 !! p = heap !! p).
Proof.
  induction l as [|[k q] l IH]; intros set heap Hk Hp.
  { cbn. split; [|done]. intros ??? Hin. by apply elem_of_nil in Hin. }
  cbn [fmap list_fmap fst snd] in Hk, Hp.
  apply NoDup_cons in Hk as [Hk1 Hk2]. apply NoDup_cons in Hp as [Hp1 Hp2].
  cbn [foldl].
  set (st1 := sweep_entry gc (set, heap) (k, q)).
  assert (Hother : (forall key, key ≠ k -> st1.1 !! key = set !! key) /\
                   (forall p, p ≠ q -> st1.2 !! p = heap !! p)).
  { unfold st1, sweep_entry. destruct (heap !! q) as [sh|]; [|done].
    destruct (sweep_keep gc sh || isHeapCompacting gc); cbn [fst snd].
    - split; [done|]. intros p Hne. by rewrite lookup_insert_ne.
    - split; intros ? Hne; by rewrite lookup_delete_ne. }
  destruct Hother as [Hset1 Hheap1].
  specialize (IH st1.1 st1.2 Hk2 Hp2).
  rewrite <- surjective_pairing in IH. cbv zeta in IH.
  destruct IH as (IHin & IHkeys & IHptrs). cbv zeta.
  split; [|split].
  - intros key p shared Hin Hsh.
    apply elem_of_cons in Hin as [[= -> ->]|Hin].
    + rewrite (IHkeys k Hk1), (IHptrs q Hp1).
      unfold st1, sweep_entry. rewrite Hsh, sweep_keep_spec.
      destruct (spec_retained gc shared); cbn [fst snd].
      * by rewrite lookup_insert_eq.
      * by rewrite !lookup_delete_eq.
    + assert (key ≠ k).
      { intros ->. apply Hk1. apply list_elem_of_fmap. by exists (k, p). }
      assert (p ≠ q).
      { intros ->. apply Hp1. apply list_elem_of_fmap. by exists (key, q). }
      specialize (IHin key p shared Hin). rewrite Hheap1 in IHin by done.
      specialize (IHin Hsh). by rewrite Hset1 in IHin.
  - intros key Hnin. cbn [fmap list_fmap fst] in Hnin.
    apply not_elem_of_cons in Hnin as [Hne Hnin].
    by rewrite IHkeys, Hset1.
  - intros p Hnin. cbn [fmap list_fmap snd] in Hnin.
    apply not_elem_of_cons in Hnin as [Hne Hnin].
    by rewrite IHptrs, Hheap1.
Qed.

(** C7: sweep decides every entry of a consistent table on the instance it
    points to.  The entry stays, with the mark of its instance cleared,
    exactly when the instance was marked and its source string and each jit
    code it holds are not about to be finalized, or the heap is being
    compacted; otherwise the instance is deleted and the entry removed.
    Nothing is entered, and the template object is cleared, on its own
    account, when it is about to be finalized. *)
Theorem sweep_retains_exactly gc c heap (Hcons : consistent c heap) :
  let r := sweep gc c heap in
  (forall key p shared, set_ c !! key = Some p -> heap !! p = Some shared ->
     if spec_retained gc shared
     then set_ r.1 !! key = Some p /\
          r.2 !! p = Some (RegExpShared.set_marked shared false)
     else set_ r.1 !! key = None /\ r.2 !! p = None) /\
  (forall key, set_ c !! key = None -> set_ r.1 !! key = None) /\
  matchResultTemplateObject_ r.1 = spec_template gc c /\
  consistent r.1 r.2.
Proof.
  destruct Hcons as [Hlive Hinj].
  assert (Hk : NoDup (map_to_list (set_ c)).*1) by apply NoDup_fst_map_to_list.
  assert (Hp : NoDup (map_to_list (set_ c)).*2).
  { apply NoDup_fmap_2_strong; [|apply NoDup_map_to_list].
    intros [k1 p1] [k2 p2] H1 H2 Heq. cbn in Heq. subst p2.
    apply elem_of_map_to_list in H1, H2. by rewrite (Hinj k1 k2 p1). }
  pose proof (sweep_loop_spec gc (map_to_list (set_ c)) (set_ c) heap Hk Hp) as Hloop.
  cbv zeta in Hloop. unfold sweep. cbv zeta.
  destruct (foldl (sweep_entry gc) (set_ c, heap) (map_to_list (set_ c)))
    as [set' heap'] eqn:Hfold.
  cbn [fst snd set_ matchResultTemplateObject_] in *.
  destruct Hloop as (Hin & Hkeys & Hptrs).
  assert (Hentries : forall key p shared,
    set_ c !! key = Some p -> heap !! p = Some shared ->
    if spec_retained gc shared
    then set' !! key = Some p /\ heap' !! p = Some (RegExpShared.set_marked shared false)
    else set' !! key = None /\ heap' !! p = None).
  { intros key p shared Hkp Hsh.
    assert (Hel : (key, p) ∈ map_to_list (set_ c)) by by apply elem_of_map_to_list.
    specialize (Hin key p shared Hel Hsh).
    destruct (spec_retained gc shared); [|done]. by rewrite <- Hkp. }
  assert (Habsent : forall key, set_ c !! key = None -> set' !! key = None).
  { intros key Hnone. rewrite Hkeys; [done|].
    intros Hel. apply list_elem_of_fmap in Hel as ([k p] & -> & Hel).
    apply elem_of_map_to_list in Hel. cbn in Hnone. congruence. }
  assert (Hsub : forall key p, set' !! key = Some p ->
    set_ c !! key = Some p /\
    exists shared, heap !! p = Some shared /\ spec_retained gc shared = true).
  { intros key p Hkp. destruct (set_ c !! key) as [q|] eqn:Hq.
    - destruct (Hlive key q Hq) as (shared & Hsh & _).
      pose proof (Hentries key q shared Hq Hsh) as He.
      destruct (spec_retained gc shared) eqn:Hr.
      + destruct He as [He _]. split; [congruence|].
        exists shared. split; congruence.
      + destruct He as [He _]. congruence.
    - rewrite (Habsent key Hq) in Hkp. discriminate. }
  split; [done|]. split; [done|]. split; [done|]. split.
  - intros key p Hkp. destruct (Hsub key p Hkp) as (Hq & shared & Hsh & Hr).
    pose proof (Hentries key p shared Hq Hsh) as He. rewrite Hr in He.
    destruct He as [_ He]. exists (RegExpShared.set_marked shared false).
    split; [done|]. destruct (Hlive key p Hq) as (sh & Hsh' & ->).
    by replace sh with shared by congruence.
  - intros k1 k2 p H1 H2. apply (Hinj k1 k2 p).
    + by destruct (Hsub k1 p H1).
    + by destruct (Hsub k2 p H2).
Qed.

Lemma sweep_retains_exactly_witness :
  let gc := mkGC false (fun _ => false) (fun _ => false) (fun _ => true) in
  let st := gets [(mkEnv true true true, lit "a*", GlobalFlag);
                  (mkEnv false true true, lit "b+", 0)] empty ∅ in
  let r := sweep gc (mk (set_ st.1) (Some 7%positive)) st.2 in
  (set_ r.1 !! (lit "a*", GlobalFlag) = Some 1%positive /\
   r.2 !! 1%positive = Some (RegExpShared.new (lit "a*") GlobalFlag)) /\
  (set_ r.1 !! (lit "b+", 0) = None /\ r.2 !! 2%positive = None) /\
  matchResultTemplateObject_ r.1 = None.
Proof.
  intros gc st r.
  assert (Hc : consistent (mk (set_ st.1) (Some 7%positive)) st.2).
  { apply (gets_consistent _ empty ∅ consistent_empty). }
  destruct (sweep_retains_exactly gc _ _ Hc) as (Hin & _ & Ht & _).
  split; [|split].
  - apply (Hin (lit "a*", GlobalFlag) 1%positive
             (RegExpShared.set_marked (RegExpShared.new (lit "a*") GlobalFlag) true));
      by vm_compute.
  - apply (Hin (lit "b+", 0) 2%positive (RegExpShared.new (lit "b+") 0));
      by vm_compute.
  - exact Ht.
Defined.

End CompartmentFacts.

(** ** MatchPairs buffers *)

Section MatchPairsFacts.
Import MatchPairs.

Lemma store_Done i p b b' :
  store i p b = Done b' ->
  (i < List.length b)%nat /\ b' = take i b ++ p :: drop (S i) b.
Proof.
  unfold store. case_bool_decide as Hi; [|discriminate].
  intros [= <-]. split; [done|]. by apply insert_take_drop.
Qed.

(** The loop of initArray writes [count] invalid pairs from index [i] on and
    fails only by running off the block. *)
Lemma initArray_loop_Done count : forall i b b',
  initArray_loop count i b = Done b' ->
  (count = 0 \/ i + count <= List.length b)%nat /\
  b' = take i b ++ replicate count invalid_pair ++ drop (i + count) b.
Proof.
  induction count as [|count IH]; intros i b b'; cbn [initArray_loop].
  - intros [= <-]. split; [by left|]. cbn. by rewrite Nat.add_0_r, take_drop.
  - destruct (store i (mkPair (-1) (-1)) b) as [b1| |] eqn:Hst; [|done..].
    cbn [mbind outcome_bind]. intros Hloop.
    apply store_Done in Hst as [Hi ->].
    apply IH in Hloop as [Hlen ->].
    assert (Hti : List.length (take i b) = i) by (rewrite length_take; lia).
    split.
    + right. destruct Hlen as [->|Hlen]; [lia|].
      rewrite length_app in Hlen. cbn [List.length] in Hlen.
      rewrite Hti, length_drop in Hlen. lia.
    + rewrite take_app_ge by lia. rewrite Hti.
      replace (S i - i)%nat with 1%nat by lia. cbn [take].
      rewrite take_0. rewrite <- app_assoc. cbn [app replicate]. f_equal. f_equal.
      rewrite drop_app_ge by lia. rewrite Hti.
      replace (S i + count - i)%nat with (S count) by lia. cbn [drop].
      rewrite drop_drop. f_equal. f_equal. lia.
Qed.

Lemma initArray_loop_ok count : forall i b,
  (i + count <= List.length b)%nat ->
  initArray_loop count i b =
    Done (take i b ++ replicate count invalid_pair ++ drop (i + count) b).
Proof.
  induction count as [|count IH]; intros i b Hlen; cbn [initArray_loop].
  - cbn. by rewrite Nat.add_0_r, take_drop.
  - unfold store. rewrite bool_decide_eq_true_2 by lia.
    cbn [mbind outcome_bind mret outcome_ret].
    rewrite IH by (rewrite length_insert; lia).
    f_equal. rewrite insert_take_drop by lia.
    assert (Hti : List.length (take i b) = i) by (rewrite length_take; lia).
    rewrite take_app_ge by lia. rewrite Hti.
    replace (S i - i)%nat with 1%nat by lia. cbn [take].
    rewrite take_0. rewrite <- app_assoc. cbn [app replicate]. f_equal. f_equal.
    rewrite drop_app_ge by lia. rewrite Hti.
    replace (S i + count - i)%nat with (S count) by lia. cbn [drop].
    rewrite drop_drop. f_equal. f_equal. lia.
Qed.

(** A successful scoped allocation leaves the count asked for, a non-null
    array, and the class unchanged. *)
Lemma Scoped_allocOrExpandArray_Done n mp mem mp1 mem1 :
  Scoped_allocOrExpandArray n mp mem = Done (true, mp1, mem1) ->
  pairCount_ mp1 = n /\ nonnull (pairs_ mp1) = true /\ class_ mp1 = class_ mp.
Proof.
  unfold Scoped_allocOrExpandArray, MOZ_ASSERT.
  destruct (Z.eqb_spec (pairCount_ mp) 0) as [Hz|Hnz]; cbn [negb].
  - destruct (nonnull (pairs_ mp)); cbn [negb mbind outcome_bind]; [done|].
    destruct (alloc _ mem) as [[p|] mem']; [|done].
    by intros [= <- <-].
  - destruct (nonnull (pairs_ mp)) eqn:Hp; cbn [mbind outcome_bind]; [|done].
    destruct (Z.eqb_spec (pairCount_ mp) n) as [Heq|]; cbn [mbind outcome_bind]; [|done].
    by intros [= <- <-].
Qed.

(** An allocated scoped buffer is reused as it is for the same count, and a
    request for any other count fails the assertion. *)
Lemma Scoped_allocOrExpandArray_again n m mp mem :
  pairCount_ mp = n -> n <> 0 -> nonnull (pairs_ mp) = true ->
  Scoped_allocOrExpandArray m mp mem =
    if decide (m = n) then Done (true, mp, mem) else Crash A_pairCount_unchanged.
Proof.
  intros Hc Hn Hp. unfold Scoped_allocOrExpandArray, MOZ_ASSERT.
  rewrite Hc, Hp. destruct (Z.eqb_spec n 0); [done|]. cbn [negb mbind outcome_bind].
  destruct (Z.eqb_spec n m); destruct (decide (m = n)); done || congruence.
Qed.

Lemma allocOrExpandArray_pairCount n mp mem mp1 mem1 :
  allocOrExpandArray n mp mem = Done (true, mp1, mem1) -> pairCount_ mp1 = n.
Proof.
  unfold allocOrExpandArray. destruct (class_ mp).
  - intros Ha. by apply Scoped_allocOrExpandArray_Done in Ha as [? _].
  - unfold Vector_allocOrExpandArray, MOZ_ASSERT. case_if.
    + case_if; [|done]. cbn [mbind outcome_bind]. by intros [= <- <-].
    + destruct (alloc _ mem) as [[p|] mem']; [|done]. by intros [= <- <-].
Qed.

(** *** displace *)

Lemma int_wrap_small x : - 2 ^ 31 <= x < 2 ^ 31 -> int_wrap x = x.
Proof. intros Hx. unfold int_wrap. rewrite Z.mod_small; lia. Qed.

Lemma displace_offset_add_back disp x :
  0 <= disp < 2 ^ SIZE_BITS -> fits_int disp x ->
  displace_offset disp x = add_back disp x.
Proof.
  intros Hd [Hlo Hhi]. unfold displace_offset, add_back, size_t_wrap, SIZE_BITS in *.
  destruct (Z.ltb_spec x 0) as [Hneg|Hpos].
  - rewrite Z.add_0_r, Z.mod_mod by lia.
    replace (x mod 2 ^ 64) with (x + 2 ^ 64)
      by (apply Z.mod_unique with (-1); lia).
    unfold int_wrap.
    replace ((x + 2 ^ 64 + 2 ^ 31) mod 2 ^ 32) with (x + 2 ^ 31)
      by (apply Z.mod_unique with (2 ^ 32); lia).
    lia.
  - rewrite (Z.mod_small x) by lia. rewrite Z.mod_small by lia.
    apply int_wrap_small. lia.
Qed.

Lemma displace_pair_add_back disp p :
  0 <= disp < 2 ^ SIZE_BITS ->
  fits_int disp (start p) -> fits_int disp (limit p) ->
  displace_pair disp p = add_back_pair disp p.
Proof.
  intros Hd Hs Hl. unfold displace_pair, add_back_pair.
  by rewrite !displace_offset_add_back.
Qed.

(** The loop of displace rewrites [count] pairs from index [i] on. *)
Lemma displace_loop_Done disp count : forall i b b',
  displace_loop count i disp b = Done b' ->
  b' = take i b ++ (displace_pair disp <$> take count (drop i b)) ++ drop (i + count) b.
Proof.
  induction count as [|count IH]; intros i b b'; cbn [displace_loop].
  - intros [= <-]. rewrite take_0, Nat.add_0_r. cbn [fmap list_fmap app].
    by rewrite take_drop.
  - destruct (b !! i) as [p|] eqn:Hp; [|done].
    unfold MOZ_ASSERT. case_if; [|done]. cbn [mbind outcome_bind].
    intros Hloop. apply IH in Hloop as ->.
    pose proof (lookup_lt_Some _ _ _ Hp) as Hi.
    rewrite insert_take_drop by done.
    assert (Hti : List.length (take i b) = i) by (rewrite length_take; lia).
    rewrite take_app_ge by lia. rewrite Hti.
    replace (S i - i)%nat with 1%nat by lia. cbn [take]. rewrite take_0.
    rewrite <- app_assoc. f_equal. cbn [app].
    rewrite (drop_S b p i Hp). cbn [take fmap list_fmap]. f_equal.
    rewrite !drop_app_ge by lia. rewrite Hti.
    replace (S i - i)%nat with 1%nat by lia.
    replace (S i + count - i)%nat with (S count) by lia. cbn [drop].
    rewrite drop_0, drop_drop. cbn [app]. do 3 f_equal. lia.
Qed.

Lemma displace_Done disp mp mp' :
  displace disp mp = Done mp' ->
  pairCount_ mp' = pairCount_ mp /\ pairs_ mp' = pairs_ mp /\
  pairs mp' = (if disp =? 0 then id else displace_pair disp) <$> pairs mp.
Proof.
  unfold displace. case_if.
  - intros [= <-]. by rewrite list_fmap_id.
  - destruct (displace_loop _ _ _ _) as [b| |] eqn:Hl; [|done..].
    cbn [mbind outcome_bind]. intros [= <-].
    apply displace_loop_Done in Hl. unfold pairs. cbn [set_block pairCount_ pairs_ block].
    split; [done|]. split; [done|]. rewrite Hl, take_0, drop_0. cbn [app].
    set (n := Z.to_nat (pairCount_ mp)).
    destruct (decide (n <= List.length (block mp))%nat) as [Hle|Hgt].
    + rewrite take_app_length'; [done|]. rewrite length_fmap, length_take. lia.
    + rewrite (take_ge (block mp)), (drop_ge (block mp)) by lia.
      rewrite app_nil_r, take_ge; [done|]. rewrite length_fmap. lia.
Qed.

(** A displacement that succeeds adds the amount to every offset that is
    not negative, as long as the sums fit an [int]. *)
Lemma displace_adds_back disp mp mp' :
  0 <= disp < 2 ^ SIZE_BITS ->
  displace disp mp = Done mp' ->
  (forall p, p ∈ pairs mp -> fits_int disp (start p) /\ fits_int disp (limit p)) ->
  pairs mp' = add_back_pair disp <$> pairs mp.
Proof.
  intros Hd Hdone Hfit. apply displace_Done in Hdone as (_ & _ & ->).
  apply Forall_fmap_ext_1, Forall_forall. intros p Hp.
  destruct (Hfit p Hp) as [Hs Hl]. case_if.
  - apply Z.eqb_eq in Heqb as ->. unfold add_back_pair, add_back. destruct p as [s l].
    cbn [start limit id]. by rewrite !Z.add_0_r, !Tauto.if_same.
  - by apply displace_pair_add_back.
Qed.

(** *** Which assertion can fail where *)

Lemma bind_no_checkAgainst {A B} (m : outcome A) (k : A -> outcome B) :
  m <> Crash A_checkAgainst ->
  (forall a, m = Done a -> k a <> Crash A_checkAgainst) ->
  m ≫= k <> Crash A_checkAgainst.
Proof.
  intros Hm Hk. destruct m as [a|why|]; cbn [mbind outcome_bind].
  - by apply Hk.
  - intros [= ->]. by apply Hm.
  - discriminate.
Qed.

Lemma allocOrExpandArray_no_checkAgainst n mp mem :
  allocOrExpandArray n mp mem <> Crash A_checkAgainst.
Proof.
  unfold allocOrExpandArray, Scoped_allocOrExpandArray, Vector_allocOrExpandArray,
    MOZ_ASSERT.
  destruct (class_ mp);
    repeat (case_if; cbn [mbind outcome_bind mret outcome_ret]);
    try discriminate; destruct (alloc _ mem) as [[p|] mem']; discriminate.
Qed.

Lemma displace_loop_no_checkAgainst disp count : forall i b,
  displace_loop count i disp b <> Crash A_checkAgainst.
Proof.
  induction count as [|count IH]; intros i b; cbn [displace_loop]; [done|].
  destruct (b !! i) as [p|]; [|done]. unfold MOZ_ASSERT.
  case_if; cbn [mbind outcome_bind]; [apply IH|done].
Qed.

Lemma displace_no_checkAgainst disp mp : displace disp mp <> Crash A_checkAgainst.
Proof.
  unfold displace. case_if; [done|].
  apply bind_no_checkAgainst; [apply displace_loop_no_checkAgainst|].
  intros b _. discriminate.
Qed.

Lemma set_pair_no_checkAgainst i p mp : set_pair i p mp <> Crash A_checkAgainst.
Proof.
  unfold set_pair, MOZ_ASSERT, store.
  repeat (case_if; cbn [mbind outcome_bind mret outcome_ret]); discriminate.
Qed.

Lemma set_pair_Done i p mp mp' :
  set_pair i p mp = Done mp' ->
  pairCount_ mp' = pairCount_ mp /\ block mp' = <[i:=p]> (block mp) /\
  (i < List.length (block mp))%nat.
Proof.
  unfold set_pair, MOZ_ASSERT, store.
  destruct (Z.of_nat i <? pairCount_ mp); cbn [mbind outcome_bind]; [|done].
  case_bool_decide; [|done]. cbn [mbind outcome_bind]. by intros [= <-].
Qed.

(** *** Offsets within bounds *)

Lemma offset_ok_spec L x : offset_ok L x = true <-> x = -1 \/ 0 <= x <= L.
Proof. unfold offset_ok. lia. Qed.

Lemma offset_ok_add_back L disp x :
  0 <= disp -> offset_ok L x = true -> offset_ok (disp + L) (add_back disp x) = true.
Proof.
  intros Hd. rewrite !offset_ok_spec. unfold add_back.
  destruct (Z.ltb_spec x 0); lia.
Qed.

Lemma offset_ok_fits_int L disp x :
  0 <= disp -> 0 <= L -> disp + L < 2 ^ 31 -> offset_ok L x = true -> fits_int disp x.
Proof.
  intros Hd HL Hl. rewrite offset_ok_spec. unfold fits_int.
  assert (0 < 2 ^ 31) by reflexivity. lia.
Qed.

(** Displacing pairs that are within [0, L] by [disp] leaves them within
    [0, disp + L]. *)
Lemma pair_ok_displaced L disp p :
  0 <= disp < 2 ^ SIZE_BITS -> 0 <= L -> disp + L < 2 ^ 31 ->
  pair_ok L p = true ->
  pair_ok (disp + L) ((if disp =? 0 then id else displace_pair disp) p) = true.
Proof.
  intros Hd HL Hl. unfold pair_ok. rewrite !andb_true_iff. intros [Hs Hlim].
  destruct (Z.eqb_spec disp 0) as [->|Hne].
  - by rewrite Z.add_0_l.
  - rewrite displace_pair_add_back by (done || eapply offset_ok_fits_int; done || lia).
    cbn [add_back_pair start limit]. split; apply offset_ok_add_back; done || lia.
Qed.

(** C8: when initArray(n), n > 0, has succeeded on a scoped buffer, all n
    pairs are (-1, -1) and the array is non-null; a second initArray(n)
    succeeds whatever the allocator could still grant, without touching the
    allocator, on the same array, and again leaves all n pairs at (-1, -1);
    allocOrExpandArray with any other count fails its assertion. *)
Theorem initArray_twice n mp mem mp1 mem1
    (Hn : 0 < n) (Hclass : class_ mp = ScopedMatchPairs)
    (Hfirst : initArray n mp mem = Done (true, mp1, mem1)) :
  pairs mp1 = replicate (Z.to_nat n) invalid_pair /\
  nonnull (pairs_ mp1) = true /\
  (forall mem', initArray n mp1 mem' = Done (true, mp1, mem')) /\
  (forall m mem', m <> n -> allocOrExpandArray m mp1 mem' = Crash A_pairCount_unchanged).
Proof.
  unfold initArray, MOZ_ASSERT in Hfirst.
  destruct (Z.ltb_spec 0 n) as [_|]; [|lia]. cbn [mbind outcome_bind] in Hfirst.
  unfold allocOrExpandArray in Hfirst. rewrite Hclass in Hfirst.
  destruct (Scoped_allocOrExpandArray n mp mem) as [[[ok mp0] mem0]| |] eqn:Ha; [|done..].
  cbn [mbind outcome_bind] in Hfirst. destruct ok; cbn [negb] in Hfirst; [|done].
  destruct (initArray_loop (Z.to_nat n) 0 (block mp0)) as [b| |] eqn:Hl; [|done..].
  cbn [mbind outcome_bind mret outcome_ret] in Hfirst.
  injection Hfirst as <- <-.
  apply Scoped_allocOrExpandArray_Done in Ha as (Hc & Hp & Hcl).
  apply initArray_loop_Done in Hl as [Hlen Hb].
  assert (Hlen' : (Z.to_nat n <= List.length (block mp0))%nat) by lia.
  rewrite take_0 in Hb. cbn [app] in Hb. rewrite Nat.add_0_l in Hb.
  assert (Hbl : (Z.to_nat n <= List.length b)%nat).
  { rewrite Hb, length_app, length_replicate. lia. }
  assert (Hcl1 : class_ (set_block mp0 b) = ScopedMatchPairs) by (cbn; congruence).
  split; [|split; [done|split]].
  - unfold pairs. cbn [pairCount_ block set_block]. rewrite Hc, Hb.
    rewrite take_app_length'; [done|by rewrite length_replicate].
  - intros mem'. unfold initArray, MOZ_ASSERT.
    destruct (Z.ltb_spec 0 n) as [_|]; [|lia]. cbn [mbind outcome_bind].
    unfold allocOrExpandArray. rewrite Hcl1.
    rewrite (Scoped_allocOrExpandArray_again n n) by (cbn; done || lia).
    rewrite decide_True by done. cbn [mbind outcome_bind negb block set_block].
    rewrite initArray_loop_ok by lia.
    cbn [mbind outcome_bind mret outcome_ret]. rewrite take_0. cbn [app].
    rewrite Nat.add_0_l. do 3 f_equal. unfold set_block. cbn. f_equal.
    rewrite Hb at 1 2. rewrite drop_app_length'; [|by rewrite length_replicate].
    by rewrite <- Hb.
  - intros m mem' Hne. unfold allocOrExpandArray. rewrite Hcl1.
    rewrite (Scoped_allocOrExpandArray_again n m) by (cbn; done || lia).
    by rewrite decide_False.
Qed.

Lemma initArray_twice_witness :
  let mem := mkMemory 4096 1024 (fun _ => mkPair 7 9) in
  let mp1 := mk ScopedMatchPairs 3 (Some 4096) (replicate 3 invalid_pair) in
  initArray 3 (new ScopedMatchPairs) mem = Done (true, mp1, mkMemory 4120 1000 (raw mem)) /\
  initArray 3 mp1 (mkMemory 4120 0 (raw mem)) = Done (true, mp1, mkMemory 4120 0 (raw mem)) /\
  allocOrExpandArray 2 mp1 (mkMemory 4120 1000 (raw mem)) = Crash A_pairCount_unchanged.
Proof.
  intros mem mp1.
  assert (Hfirst : initArray 3 (new ScopedMatchPairs) mem
                   = Done (true, mp1, mkMemory 4120 1000 (raw mem))) by (by vm_compute).
  destruct (initArray_twice 3 (new ScopedMatchPairs) mem mp1 _
              ltac:(lia) eq_refl Hfirst) as (_ & _ & Hagain & Hother).
  split; [exact Hfirst|]. split; [apply Hagain|]. apply Hother. lia.
Defined.

End MatchPairsFacts.

(** ** Compilation and execution *)

Section ExecuteFacts.
Import Flags RegExpShared.

Context {W : Type} (H : Host W).

Lemma literal_ok_new src fl : literal_ok (new src fl).
Proof. intros Hc. discriminate Hc. Qed.

Lemma sticky_wrapper_has_meta (src : JSAtom) :
  StringHasRegExpMetaChars (lit "^(?:" ++ src ++ lit ")") = true.
Proof. reflexivity. Qed.

(** compile on a given pattern text: the literal case changes the instance
    only; the other case leaves [canStringMatch] as it was. *)
Lemma compile_pattern_Done cx re pattern input mode ok re' cx' :
  compile_pattern H cx re pattern input mode = Done (ok, re', cx') ->
  source re' = source re /\ flags re' = flags re /\
  if negb (ignoreCase re) && negb (StringHasRegExpMetaChars pattern)
  then ok = true /\ re' = set_literal re /\ cx' = cx
  else canStringMatch re' = canStringMatch re.
Proof.
  unfold compile_pattern.
  destruct (negb (ignoreCase re) && negb (StringHasRegExpMetaChars pattern)).
  { by intros [= <- <- <-]. }
  destruct (ParsePattern H _ _ _ _) as [[data|] w]; [|by intros [= <- <- <-]].
  destruct (CompilePattern H _ _ _ _ _ _ _ _) as [[code tbls] w'].
  destruct (code_empty code); [by intros [= <- <- <-]|].
  unfold MOZ_ASSERT.
  destruct (negb (nonnull (code_jitCode code)) || negb (nonnull (code_byteCode code)));
    [|done].
  cbn [mbind outcome_bind]. by intros [= <- <- <-].
Qed.

(** For a sticky instance compile fails on its string buffer, or compiles the
    wrapped source [^(?:source)]. *)
Lemma compile_sticky cx re input mode r :
  sticky re = true ->
  compile H cx re input mode = Done r ->
  r = (false, re, cx) \/
  compile_pattern H cx re (lit "^(?:" ++ source re ++ lit ")") input mode = Done r.
Proof.
  intros Hs. unfold compile. rewrite Hs. cbn [negb].
  destruct (StringBuffer.reserve _ _ _) as [[] sb1] eqn:E1;
    cbn [negb]; [|intros [= <-]; by left].
  destruct (StringBuffer.infallibleAppend _ sb1) as [sb2| |] eqn:E2; [|done..].
  cbn [mbind outcome_bind].
  destruct (StringBuffer.append _ _ sb2) as [[] sb3] eqn:E3;
    cbn [negb]; [|intros [= <-]; by left].
  destruct (StringBuffer.infallibleAppend _ sb3) as [sb4| |] eqn:E4; [|done..].
  cbn [mbind outcome_bind].
  destruct (StringBuffer.finish _ sb4) as [fakeySource|] eqn:E5;
    [|intros [= <-]; by left].
  apply reserve_contents in E1. apply infallibleAppend_Done in E2.
  apply append_Done in E3. apply infallibleAppend_Done in E4.
  apply finish_Some in E5. subst fakeySource.
  rewrite E4, E3, E2, E1. cbn [StringBuffer.contents StringBuffer.empty app].
  rewrite <- app_assoc. intros Hc. by right.
Qed.

(** What compile does to the literal flag, for any instance. *)
Lemma compile_Done cx re input mode ok re' cx' :
  compile H cx re input mode = Done (ok, re', cx') ->
  source re' = source re /\ flags re' = flags re /\
  if negb (ignoreCase re) && negb (sticky re)
     && negb (StringHasRegExpMetaChars (source re))
  then ok = true /\ re' = set_literal re /\ cx' = cx
  else canStringMatch re' = canStringMatch re.
Proof.
  intros Hc. destruct (sticky re) eqn:Hs.
  - rewrite andb_false_r. cbn [andb].
    apply (compile_sticky _ _ _ _ _ Hs) in Hc as [Hr|Hc].
    { by injection Hr as -> -> ->. }
    apply compile_pattern_Done in Hc as (? & ? & Hc).
    rewrite sticky_wrapper_has_meta, andb_false_r in Hc. done.
  - unfold compile in Hc. rewrite Hs in Hc. cbn [negb] in Hc.
    apply compile_pattern_Done in Hc. by rewrite andb_true_r.
Qed.

Lemma compile_literal_ok cx re input mode ok re' cx' :
  literal_ok re ->
  compile H cx re input mode = Done (ok, re', cx') ->
  literal_ok re'.
Proof.
  intros Hwf Hc. apply compile_Done in Hc as (Hsrc & Hfl & Hc).
  unfold literal_ok, sticky, ignoreCase in *. rewrite Hsrc, Hfl.
  destruct (negb (has_flag (flags re) IgnoreCaseFlag)
            && negb (has_flag (flags re) StickyFlag)
            && negb (StringHasRegExpMetaChars (source re))) eqn:He.
  - destruct Hc as (_ & -> & _). intros _.
    apply andb_true_iff in He as [He He3]. apply andb_true_iff in He as [He1 He2].
    apply negb_true_iff in He1, He2, He3. done.
  - rewrite Hc. intros Hcan. destruct (Hwf Hcan) as (H1 & H2 & H3 & _).
    rewrite H1, H2, H3 in He. discriminate.
Qed.

Lemma sticky_slice_plain re input start0 :
  sticky re = false ->
  sticky_slice re input start0
    = mkSlice 0 (str_length (chars input)) (str_length (chars input)) 0 start0.
Proof. intros Hs. unfold sticky_slice. by rewrite Hs. Qed.

Lemma compileIfNecessary_literal cx re input mode :
  canStringMatch re = true ->
  compileIfNecessary H cx re input mode = Done (true, re, cx).
Proof. intros Hc. unfold compileIfNecessary. by rewrite Hc, orb_true_r. Qed.

(** Execution of a literal instance without captures is the substring search
    and nothing else. *)
Lemma execute_literal_MatchOnly fuel cx re input start0 :
  canStringMatch re = true -> literal_ok re ->
  execute H fuel cx re input start0 None =
    Done (if StringFindPattern (chars input) (source re) (size_t_wrap (start0 + 0)) =? -1
          then RegExpRunStatus_Success_NotFound else RegExpRunStatus_Success,
          re, None, cx).
Proof.
  intros Hc Hwf. destruct (Hwf Hc) as (Hs & _ & _ & Hp).
  unfold execute, execute_prepare. rewrite compileIfNecessary_literal by done.
  cbn [mbind outcome_bind mret outcome_ret negb].
  rewrite sticky_slice_plain by done. unfold execute_dispatch. rewrite Hc.
  unfold pairCount. rewrite Hp. cbn [start charsOffset].
  change (size_t_wrap (0 + 1) =? 1) with true.
  cbn [MOZ_ASSERT mbind outcome_bind]. by case_if.
Qed.

(** C3, as the code has it: after compile, [canStringMatch] holds exactly
    when the source contains no metacharacter, ignore-case is not set and
    sticky is not set (a sticky source is compiled as [^(?:source)], which
    always has metacharacters); in particular it never holds with
    ignore-case.  When it holds, compile has succeeded without calling the
    parser or the code generator, the capture count is 0, no code slot has
    changed, and execution is the substring search. *)
Theorem compile_literal_eligibility cx re input mode ok re' cx'
    (Hwf : literal_ok re)
    (Hc : compile H cx re input mode = Done (ok, re', cx')) :
  (canStringMatch re' = true <->
     ignoreCase re = false /\ sticky re = false /\
     StringHasRegExpMetaChars (source re) = false) /\
  (ignoreCase re = true -> canStringMatch re' = false) /\
  (canStringMatch re' = true ->
     ok = true /\ parenCount re' = 0 /\
     compilationArray re' = compilationArray re /\ cx' = cx /\
     forall fuel cx0 input0 start0,
       execute H fuel cx0 re' input0 start0 None =
         Done (if StringFindPattern (chars input0) (source re) (size_t_wrap (start0 + 0)) =? -1
               then RegExpRunStatus_Success_NotFound else RegExpRunStatus_Success,
               re', None, cx0)).
Proof.
  pose proof (compile_literal_ok _ _ _ _ _ _ _ Hwf Hc) as Hwf'.
  apply compile_Done in Hc as (Hsrc & Hfl & Hc).
  assert (Hiff : canStringMatch re' = true <->
     ignoreCase re = false /\ sticky re = false /\
     StringHasRegExpMetaChars (source re) = false).
  { split.
    - intros Hcan. destruct (Hwf' Hcan) as (H1 & H2 & H3 & _).
      unfold sticky, ignoreCase in *. rewrite Hfl in H1, H2. by rewrite <- Hsrc.
    - intros (H1 & H2 & H3). rewrite H1, H2, H3 in Hc. cbn in Hc.
      by destruct Hc as (_ & -> & _). }
  split; [done|]. split.
  - intros Hi. apply not_true_is_false. intros Hcan.
    apply Hiff in Hcan as [Hcan _]. congruence.
  - intros Hcan. pose proof Hcan as Hcan'.
    apply Hiff in Hcan' as (H1 & H2 & H3). rewrite H1, H2, H3 in Hc. cbn in Hc.
    destruct Hc as (-> & -> & ->). repeat split; try done.
    intros fuel cx0 input0 start0.
    exact (execute_literal_MatchOnly fuel cx0 (set_literal re) input0 start0 Hcan Hwf').
Qed.

(** *** The three ways out of a failed run *)

Lemma execute_prepared fuel cx re input start0 matches re1 m1 cx1 :
  execute_prepare H cx re input matches = Done (true, re1, m1, cx1) ->
  execute H fuel cx re input start0 matches
    = execute_dispatch H fuel (sticky_slice re1 input start0) cx1 re1 input m1.
Proof. intros Hp. unfold execute. by rewrite Hp. Qed.

Lemma execute_dispatch_native fuel sl cx re input matches :
  canStringMatch re = false ->
  byteCode (compilation re (mode_of matches) (hasLatin1Chars input)) = None ->
  execute_dispatch H fuel sl cx re input matches =
    r ← execute_jit_loop H fuel cx
          (jitCode (compilation re (mode_of matches) (hasLatin1Chars input)))
          (chars_from input (charsOffset sl)) (start sl) (length sl) matches;
    execute_finish sl re r.
Proof.
  intros Hc Hb. unfold execute_dispatch. cbv zeta. by rewrite Hc, Hb.
Qed.

Lemma execute_jit_loop_retry fuel cx code chs st len matches b w1 w2 :
  ExecuteCode H (world cx) code chs st len matches = (RegExpRunStatus_Error, b, w1) ->
  interrupt H w1 = true ->
  InvokeInterruptCallback H w1 = (true, w2) ->
  execute_jit_loop H (S fuel) cx (Some code) chs st len matches
    = execute_jit_loop H fuel (set_world cx w2) (Some code) chs st len (written matches b).
Proof.
  intros He Hi Hcb. cbn [execute_jit_loop]. rewrite He.
  cbn [world set_world]. by rewrite Hi, Hcb.
Qed.

Lemma execute_jit_loop_terminated fuel cx code chs st len matches b w1 w2 :
  ExecuteCode H (world cx) code chs st len matches = (RegExpRunStatus_Error, b, w1) ->
  interrupt H w1 = true ->
  InvokeInterruptCallback H w1 = (false, w2) ->
  execute_jit_loop H (S fuel) cx (Some code) chs st len matches
    = Done (RegExpRunStatus_Error, written matches b, set_world cx w2).
Proof.
  intros He Hi Hcb. cbn [execute_jit_loop]. rewrite He.
  cbn [world set_world]. by rewrite Hi, Hcb.
Qed.

Lemma execute_jit_loop_internal_error fuel cx code chs st len matches b w1 :
  ExecuteCode H (world cx) code chs st len matches = (RegExpRunStatus_Error, b, w1) ->
  interrupt H w1 = false ->
  execute_jit_loop H (S fuel) cx (Some code) chs st len matches
    = Done (RegExpRunStatus_Error, written matches b,
            report (set_world cx w1) js_ReportOverRecursed).
Proof.
  intros He Hi. cbn [execute_jit_loop]. rewrite He.
  cbn [world set_world]. by rewrite Hi.
Qed.

(** C4, as the code has it.  Let execute have compiled and sized its buffer,
    and let the instance not be a literal one.  On the native-code path, a
    run that ends in Error is followed by a look at the interrupt flag: with
    the flag set, the callback is invoked and, when it permits, the same run
    (code, characters, start, length) is made again, while Error is returned
    when it refuses; with the flag clear, over-recursion is reported and
    Error returned at once, the callback not being invoked.  On the bytecode
    path the status of the interpreter is returned as it is: an Error is
    returned at once, whatever the interrupt flag and the callback say. *)
Theorem execute_interrupt_retry fuel cx re input start0 matches re1 m1 cx1
    (Hprep : execute_prepare H cx re input matches = Done (true, re1, m1, cx1))
    (Hlit : canStringMatch re1 = false) :
  let sl := sticky_slice re1 input start0 in
  let chs := chars_from input (charsOffset sl) in
  let slot := compilation re1 (mode_of m1) (hasLatin1Chars input) in
  (forall code b w1,
     byteCode slot = None -> jitCode slot = Some code ->
     ExecuteCode H (world cx1) code chs (start sl) (length sl) m1
       = (RegExpRunStatus_Error, b, w1) ->
     (forall w2, interrupt H w1 = true -> InvokeInterruptCallback H w1 = (true, w2) ->
        execute H (S fuel) cx re input start0 matches =
          r ← execute_jit_loop H fuel (set_world cx1 w2) (Some code) chs
                (start sl) (length sl) (written m1 b);
          execute_finish sl re1 r) /\
     (forall w2, interrupt H w1 = true -> InvokeInterruptCallback H w1 = (false, w2) ->
        execute H (S fuel) cx re input start0 matches =
          Done (RegExpRunStatus_Error, re1, written m1 b, set_world cx1 w2)) /\
     (interrupt H w1 = false ->
        execute H (S fuel) cx re input start0 matches =
          Done (RegExpRunStatus_Error, re1, written m1 b,
                report (set_world cx1 w1) js_ReportOverRecursed))) /\
  (forall bc b w0 w1,
     byteCode slot = Some bc ->
     stableChars_init H (world cx1) = (true, w0) ->
     InterpretCode H w0 bc chs (start sl) (length sl) m1
       = (RegExpRunStatus_Error, b, w1) ->
     execute H fuel cx re input start0 matches =
       Done (RegExpRunStatus_Error, re1, written m1 b, set_world cx1 w1)).
Proof.
  intros sl chs slot. split.
  - intros code b w1 Hbc Hjit He.
    rewrite (execute_prepared _ _ _ _ _ _ _ _ _ Hprep).
    rewrite execute_dispatch_native by done. fold sl chs slot. rewrite Hjit.
    split; [|split].
    + intros w2 Hi Hcb. by rewrite (execute_jit_loop_retry _ _ _ _ _ _ _ _ _ _ He Hi Hcb).
    + intros w2 Hi Hcb.
      by rewrite (execute_jit_loop_terminated _ _ _ _ _ _ _ _ _ _ He Hi Hcb).
    + intros Hi. by rewrite (execute_jit_loop_internal_error _ _ _ _ _ _ _ _ _ He Hi).
  - intros bc b w0 w1 Hbc Hst He.
    rewrite (execute_prepared _ _ _ _ _ _ _ _ _ Hprep).
    unfold execute_dispatch. cbv zeta. rewrite Hlit. fold slot. rewrite Hbc.
    rewrite Hst. cbn [negb world set_world]. fold sl chs. by rewrite He.
Qed.

(** *** Sticky execution *)

Lemma compileIfNecessary_Done cx re input mode ok re1 cx1 :
  compileIfNecessary H cx re input mode = Done (ok, re1, cx1) ->
  source re1 = source re /\ flags re1 = flags re /\
  (literal_ok re -> literal_ok re1).
Proof.
  unfold compileIfNecessary. case_if.
  - by intros [= <- <- <-].
  - intros Hc. pose proof (compile_Done _ _ _ _ _ _ _ Hc) as (? & ? & _).
    split; [done|]. split; [done|]. intros Hwf. by eapply compile_literal_ok.
Qed.

Lemma execute_prepare_Done cx re input matches ok re1 m1 cx1 :
  execute_prepare H cx re input matches = Done (ok, re1, m1, cx1) ->
  source re1 = source re /\ flags re1 = flags re /\
  (literal_ok re -> literal_ok re1) /\
  match matches with
  | Some mp => exists mp1, m1 = Some mp1 /\
                 (ok = true -> MatchPairs.pairCount_ mp1 = pairCount re1)
  | None => m1 = None
  end.
Proof.
  unfold execute_prepare. cbv zeta.
  destruct (compileIfNecessary H cx re input (mode_of matches))
    as [[[ok0 re0] cx0]| |] eqn:Hc; [|done..].
  cbn [mbind outcome_bind].
  apply compileIfNecessary_Done in Hc as (Hsrc & Hfl & Hwf).
  destruct ok0; cbn [negb].
  - destruct matches as [mp|].
    + destruct (MatchPairs.allocOrExpandArray _ mp _) as [[[ok1 mp1] mem1]| |] eqn:Ha;
        [|done..].
      cbn [mbind outcome_bind]. intros [= <- <- <- <-].
      split; [done|]. split; [done|]. split; [done|].
      exists mp1. split; [done|]. intros ->.
      by apply allocOrExpandArray_pairCount in Ha.
    + by intros [= <- <- <- <-].
  - intros [= <- <- <- <-]. split; [done|]. split; [done|]. split; [done|].
    destruct matches; [|done]. eexists. split; [done|]. done.
Qed.

Lemma sticky_slice_sticky re input start0 :
  sticky re = true ->
  0 <= start0 <= str_length (chars input) ->
  str_length (chars input) < 2 ^ SIZE_BITS ->
  sticky_slice re input start0
    = mkSlice start0 (str_length (chars input) - start0) (str_length (chars input))
              start0 0.
Proof.
  intros Hs Hr Hl. unfold sticky_slice. rewrite Hs.
  by rewrite Z.add_0_l, !size_t_wrap_small by lia.
Qed.

Lemma execute_finish_post_match sl re
    (r : RegExpRunStatus * option MatchPairs.t * JSContext W) :
  execute_finish sl re r = post_match sl re r.
Proof.
  destruct r as [[st m] cx]. unfold execute_finish, post_match, displace_and_check.
  destruct st; try done. destruct m as [mp|]; [|done].
  destruct (MatchPairs.displace _ mp) as [mp'| |]; [|done..].
  cbn [mbind outcome_bind].
  by destruct (MatchPairs.checkAgainst _ mp') as [[]| |].
Qed.

(** For an instance that is not literal, execute_dispatch is the run of the
    compiled code followed by the post-processing of a match. *)
Lemma execute_dispatch_compiled fuel sl cx re input m :
  canStringMatch re = false ->
  execute_dispatch H fuel sl cx re input m =
    r ← run_compiled H fuel sl cx re input m; post_match sl re r.
Proof.
  intros Hc. unfold execute_dispatch, run_compiled. cbv zeta. rewrite Hc.
  destruct (byteCode _) as [bc|].
  - destruct (stableChars_init H (world cx)) as [[] w]; cbn [negb]; [|done].
    cbn [world set_world].
    destruct (InterpretCode H w bc _ _ _ m) as [[st b] w'].
    cbn [mbind outcome_bind mret outcome_ret post_match].
    unfold displace_and_check.
    destruct st; try done. destruct (written m b) as [mp|]; [|done].
    destruct (MatchPairs.displace _ mp) as [mp'| |]; [|done..].
    cbn [mbind outcome_bind].
    by destruct (MatchPairs.checkAgainst _ mp') as [[]| |].
  - destruct (execute_jit_loop _ _ _ _ _ _ _ _) as [r| |]; [|done..].
    cbn [mbind outcome_bind]. apply execute_finish_post_match.
Qed.

(** execute_dispatch hands the instance back as it received it. *)
Lemma execute_dispatch_same_instance fuel sl cx re input m st re' m' cx' :
  execute_dispatch H fuel sl cx re input m = Done (st, re', m', cx') -> re' = re.
Proof.
  destruct (canStringMatch re) eqn:Hc.
  - unfold execute_dispatch. cbv zeta. rewrite Hc. unfold MOZ_ASSERT.
    destruct (pairCount re =? 1); cbn [mbind outcome_bind]; [|done].
    destruct (StringFindPattern _ _ _ =? -1); [by intros [= _ <- _ _]|].
    destruct m as [mp|]; [|by intros [= _ <- _ _]].
    destruct (MatchPairs.set_pair _ _ mp) as [mp1| |]; cbn [mbind outcome_bind]; [|done..].
    destruct (MatchPairs.checkAgainst _ mp1) as [[]| |]; cbn [mbind outcome_bind]; [|done..].
    by intros [= _ <- _ _].
  - rewrite execute_dispatch_compiled by done.
    destruct (run_compiled _ _ _ _ _ _ _) as [[[s m1] cx1]| |]; cbn [mbind outcome_bind];
      [|done..].
    unfold post_match. destruct s; try by intros [= _ <- _ _].
    destruct m1 as [mp|]; [|by intros [= _ <- _ _]].
    destruct (MatchPairs.displace _ mp) as [mp1| |]; cbn [mbind outcome_bind]; [|done..].
    destruct (MatchPairs.checkAgainst _ mp1) as [[]| |]; cbn [mbind outcome_bind]; [|done..].
    by intros [= _ <- _ _].
Qed.

(** Every instance that execute returns, starting from a new one, keeps the
    literal flag for the instances it was meant for. *)
Lemma execute_literal_ok fuel cx re input start0 m st re' m' cx' :
  literal_ok re ->
  execute H fuel cx re input start0 m = Done (st, re', m', cx') ->
  literal_ok re'.
Proof.
  intros Hwf. unfold execute.
  destruct (execute_prepare H cx re input m) as [[[[ok re1] m1] cx1]| |] eqn:Hp;
    cbn [mbind outcome_bind]; [|done..].
  apply execute_prepare_Done in Hp as (_ & _ & Hwf1 & _).
  destruct ok; cbn [negb].
  - intros Hd. apply execute_dispatch_same_instance in Hd as ->. by apply Hwf1.
  - intros [= _ <- _ _]. by apply Hwf1.
Qed.

(** The run of the compiled code at offset [start0] of the input is the run
    from position 0 on the input cut at [start0]. *)
Lemma run_compiled_sliced fuel cx re input start0 m :
  let len := str_length (chars input) in
  let sliced := mkString (hasLatin1Chars input) (drop (Z.to_nat start0) (chars input)) in
  run_compiled H fuel (mkSlice start0 (len - start0) len start0 0) cx re input m
  = run_compiled H fuel (mkSlice 0 (len - start0) (len - start0) 0 0) cx re sliced m.
Proof. reflexivity. Qed.

Lemma str_length_drop (l : list char16_t) (n : Z) :
  0 <= n <= str_length l -> str_length (drop (Z.to_nat n) l) = str_length l - n.
Proof. intros Hn. unfold str_length in *. rewrite length_drop. lia. Qed.

(** C2: for a sticky instance (one that compile has not made literal) and a
    start offset within the input, execute, once it has compiled and sized
    the buffer, runs the compiled code on the input cut at the start offset,
    from position 0 of that slice and over its length (the offsets of a
    plain execution of the slice at 0), and then post-processes a match with
    the start offset as displacement and the original length as bound.  The
    displacement adds the start offset to every offset that is not negative.
    With the small host, the sticky source [a], that is [^(?:a)], on ["xxa"]
    matches at start offset 2 with the pair (2, 3) and is not found at start
    offset 0. *)
Theorem execute_sticky_displacement fuel cx re input start0 matches re1 m1 cx1
    (Hs : sticky re = true) (Hwf : literal_ok re)
    (Hstart : 0 <= start0 <= str_length (chars input))
    (Hlen : str_length (chars input) < 2 ^ SIZE_BITS)
    (Hprep : execute_prepare H cx re input matches = Done (true, re1, m1, cx1)) :
  let len := str_length (chars input) in
  let sliced := mkString (hasLatin1Chars input) (drop (Z.to_nat start0) (chars input)) in
  execute H fuel cx re input start0 matches =
    (r ← run_compiled H fuel
           (mkSlice 0 (str_length (chars sliced)) (str_length (chars sliced)) 0 0)
           cx1 re1 sliced m1;
     post_match (mkSlice start0 (len - start0) len start0 0) re1 r) /\
  (forall mp mp',
     MatchPairs.displace start0 mp = Done mp' ->
     (forall p, p ∈ MatchPairs.pairs mp ->
        MatchPairs.fits_int start0 (MatchPairs.start p) /\
        MatchPairs.fits_int start0 (MatchPairs.limit p)) ->
     MatchPairs.pairs mp' = MatchPairs.add_back_pair start0 <$> MatchPairs.pairs mp) /\
  (let run start :=
     execute Toy.host 2 (Toy.context (Toy.quiet true)) (new (lit "a") StickyFlag)
       (mkString true (lit "xxa")) start
       (Some (MatchPairs.new MatchPairs.ScopedMatchPairs)) in
   (exists re' mp' cx',
      run 2 = Done (RegExpRunStatus_Success, re', Some mp', cx') /\
      MatchPairs.pairs mp' = [MatchPairs.mkPair 2 3]) /\
   (exists re' m' cx', run 0 = Done (RegExpRunStatus_Success_NotFound, re', m', cx'))).
Proof.
  intros len sliced.
  pose proof (execute_prepare_Done _ _ _ _ _ _ _ _ Hprep) as (Hsrc & Hfl & Hwf1 & _).
  assert (Hs1 : sticky re1 = true) by (unfold sticky in *; by rewrite Hfl).
  assert (Hc1 : canStringMatch re1 = false).
  { apply not_true_is_false. intros Hc. destruct (Hwf1 Hwf Hc) as [? _]. congruence. }
  split; [|split].
  - rewrite (execute_prepared _ _ _ _ _ _ _ _ _ Hprep).
    rewrite sticky_slice_sticky by done.
    rewrite execute_dispatch_compiled by done.
    rewrite run_compiled_sliced. fold sliced. subst len.
    replace (str_length (chars sliced)) with (str_length (chars input) - start0);
      [done|].
    unfold sliced. cbn [chars]. by rewrite str_length_drop.
  - intros mp mp' Hd Hfit. apply (displace_adds_back start0 mp mp'); [lia|done..].
  - split; by vm_compute; eauto.
Qed.

(** *** Offsets stay within the input *)

Lemma starts_with_length pat : forall text,
  starts_with pat text = true -> (List.length pat <= List.length text)%nat.
Proof.
  induction pat as [|p pat IH]; intros [|c text]; cbn; try (done || lia).
  intros Hs. apply andb_true_iff in Hs as [_ Hs]. apply IH in Hs. lia.
Qed.

Lemma StringMatch_bound pat text : forall i,
  StringMatch text pat = Some i -> (i + List.length pat <= List.length text)%nat.
Proof.
  induction text as [|c text IH]; intros i; cbn [StringMatch].
  - destruct (starts_with pat []) eqn:Hs; [|done]. intros [= <-].
    by apply starts_with_length in Hs.
  - destruct (starts_with pat (c :: text)) eqn:Hs.
    + intros [= <-]. by apply starts_with_length in Hs.
    + destruct (StringMatch text pat) as [j|]; [|done]. cbn. intros [= <-].
      specialize (IH j eq_refl). cbn. lia.
Qed.

Lemma StringFindPattern_bound text pat s :
  0 <= s <= str_length text -> str_length text < 2 ^ 31 ->
  StringFindPattern text pat s = -1 \/
  (s <= StringFindPattern text pat s /\
   StringFindPattern text pat s + str_length pat <= str_length text).
Proof.
  intros Hs Hl. unfold StringFindPattern.
  destruct (StringMatch _ pat) as [i|] eqn:Hm; [|by left]. right.
  apply StringMatch_bound in Hm. rewrite length_drop in Hm.
  unfold str_length in *. assert (0 < 2 ^ 31) by reflexivity.
  rewrite int_wrap_small by lia. lia.
Qed.

Lemma forallb_pair_ok_displaced L disp (l : list MatchPairs.MatchPair) :
  0 <= disp < 2 ^ SIZE_BITS -> 0 <= L -> disp + L < 2 ^ 31 ->
  forallb (MatchPairs.pair_ok L) l = true ->
  forallb (MatchPairs.pair_ok (disp + L))
    ((if disp =? 0 then id else MatchPairs.displace_pair disp) <$> l) = true.
Proof.
  intros Hd HL Hl. induction l as [|p l IH]; [done|]. cbn [forallb fmap list_fmap].
  rewrite !andb_true_iff. intros [Hp Hrest]. split; [|by apply IH].
  by apply pair_ok_displaced.
Qed.

(** The post-processing of a match whose offsets lie within the slice does
    not fail the bounds check, and leaves them within the input. *)
Lemma post_match_in_bounds sl re st (m : option MatchPairs.t) (cx : JSContext W) :
  0 <= displacement sl < 2 ^ SIZE_BITS -> 0 <= length sl ->
  displacement sl + length sl = origLength sl -> origLength sl < 2 ^ 31 ->
  (forall mp, st = RegExpRunStatus_Success -> m = Some mp ->
     forallb (MatchPairs.pair_ok (length sl)) (MatchPairs.pairs mp) = true) ->
  post_match sl re (st, m, cx) <> Crash A_checkAgainst /\
  forall mp0 re' m' cx',
    m = Some mp0 ->
    post_match sl re (st, m, cx) = Done (RegExpRunStatus_Success, re', m', cx') ->
    exists mp', m' = Some mp' /\
      forallb (MatchPairs.pair_ok (origLength sl)) (MatchPairs.pairs mp') = true.
Proof.
  intros Hd HL Hsum Horig Hin. unfold post_match.
  destruct st; try (split; [discriminate|intros ???? _ [=]]).
  destruct m as [mp|]; [|split; [discriminate|intros ???? [=]]].
  specialize (Hin mp eq_refl eq_refl).
  destruct (MatchPairs.displace (displacement sl) mp) as [mp1|why|] eqn:Hdisp;
    cbn [mbind outcome_bind].
  - apply displace_Done in Hdisp as (_ & _ & Hpairs).
    assert (Hok : forallb (MatchPairs.pair_ok (origLength sl)) (MatchPairs.pairs mp1) = true).
    { rewrite Hpairs, <- Hsum. by apply forallb_pair_ok_displaced; [..|lia|]. }
    unfold MatchPairs.checkAgainst, MOZ_ASSERT. rewrite Hok.
    cbn [mbind outcome_bind mret outcome_ret].
    split; [discriminate|]. intros mp0 re' m' cx' _ [= <- <- <-]. eauto.
  - split; [|discriminate]. intros [= ->].
    by apply (displace_no_checkAgainst (displacement sl) mp).
  - split; discriminate.
Qed.

(** The loop around the native code keeps the buffer a buffer of the same
    pair count, fails no bounds check, and leaves offsets within [len] on a
    match, for an engine that keeps its offsets within the length given. *)
Lemma execute_jit_loop_in_bounds (Heng : engine_in_bounds H) fuel :
  forall cx mp code chs st len, 0 <= len ->
  execute_jit_loop H fuel cx code chs st len (Some mp) <> Crash A_checkAgainst /\
  forall s m' cx',
    execute_jit_loop H fuel cx code chs st len (Some mp) = Done (s, m', cx') ->
    exists mp', m' = Some mp' /\
      MatchPairs.pairCount_ mp' = MatchPairs.pairCount_ mp /\
      (s = RegExpRunStatus_Success ->
       forallb (MatchPairs.pair_ok len) (MatchPairs.pairs mp') = true).
Proof.
  induction fuel as [|fuel IH]; intros cx mp code chs st len Hlen;
    cbn [execute_jit_loop]; [split; discriminate|].
  destruct code as [code|]; [|split; discriminate].
  destruct (ExecuteCode H (world cx) code chs st len (Some mp)) as [[result b] w] eqn:He.
  cbn [written fmap option_fmap option_map world set_world].
  destruct result.
  - destruct (interrupt H w).
    + destruct (InvokeInterruptCallback H w) as [[] w2]; cbn [negb].
      * destruct (IH (set_world (set_world cx w) w2) (MatchPairs.set_block mp b)
                    (Some code) chs st len Hlen) as [Hnc Hdone].
        split; [done|]. intros s m' cx' Hr.
        destruct (Hdone s m' cx' Hr) as (mp' & ? & ? & ?). eauto.
      * split; [discriminate|]. intros s m' cx' [= <- <- <-].
        eexists. split; [done|]. split; [done|]. discriminate.
    + split; [discriminate|]. intros s m' cx' [= <- <- <-].
      eexists. split; [done|]. split; [done|]. discriminate.
  - split; [discriminate|]. intros s m' cx' [= <- <- <-].
    eexists. split; [done|]. split; [done|]. discriminate.
  - split; [discriminate|]. intros s m' cx' [= <- <- <-].
    eexists. split; [done|]. split; [done|]. intros _.
    unfold MatchPairs.pairs. cbn [MatchPairs.set_block MatchPairs.pairCount_ MatchPairs.block].
    eapply Heng; [exact Hlen|]. right. exact He.
Qed.

Lemma run_compiled_in_bounds (Heng : engine_in_bounds H) fuel sl cx re input mp :
  0 <= length sl ->
  run_compiled H fuel sl cx re input (Some mp) <> Crash A_checkAgainst /\
  forall s m' cx',
    run_compiled H fuel sl cx re input (Some mp) = Done (s, m', cx') ->
    exists mp', m' = Some mp' /\
      (s = RegExpRunStatus_Success ->
       forallb (MatchPairs.pair_ok (length sl)) (MatchPairs.pairs mp') = true).
Proof.
  intros Hlen. unfold run_compiled. cbv zeta.
  destruct (byteCode _) as [bc|].
  - destruct (stableChars_init H (world cx)) as [[] w]; cbn [negb].
    + destruct (InterpretCode H w bc _ _ _ _) as [[result b] w'] eqn:He.
      split; [discriminate|]. intros s m' cx' [= <- <- <-].
      eexists. split; [done|]. intros ->.
      unfold MatchPairs.pairs.
      cbn [MatchPairs.set_block MatchPairs.pairCount_ MatchPairs.block].
      eapply Heng; [exact Hlen|]. left. exact He.
    + split; [discriminate|]. intros s m' cx' [= <- <- <-].
      eexists. split; [done|]. discriminate.
  - destruct (execute_jit_loop_in_bounds Heng fuel cx mp
                (jitCode (compilation re (mode_of (Some mp)) (hasLatin1Chars input)))
                (chars_from input (charsOffset sl)) (start sl) (length sl) Hlen)
      as [Hnc Hdone].
    split; [done|]. intros s m' cx' Hr.
    destruct (Hdone s m' cx' Hr) as (mp' & ? & _ & ?). eauto.
Qed.

Lemma compile_pattern_no_checkAgainst cx re pattern input mode :
  compile_pattern H cx re pattern input mode <> Crash A_checkAgainst.
Proof.
  unfold compile_pattern. case_if; [discriminate|].
  destruct (ParsePattern H _ _ _ _) as [[data|] w]; [|discriminate].
  destruct (CompilePattern H _ _ _ _ _ _ _ _) as [[code tbls] w'].
  unfold MOZ_ASSERT. repeat (case_if; cbn [mbind outcome_bind]); discriminate.
Qed.

Lemma compile_no_checkAgainst cx re input mode :
  compile H cx re input mode <> Crash A_checkAgainst.
Proof.
  unfold compile. case_if; [apply compile_pattern_no_checkAgainst|].
  destruct (StringBuffer.reserve _ _ _) as [[] sb1]; cbn [negb]; [|discriminate].
  apply bind_no_checkAgainst.
  { unfold StringBuffer.infallibleAppend, MOZ_ASSERT.
    case_if; cbn [mbind outcome_bind]; discriminate. }
  intros sb2 _.
  destruct (StringBuffer.append _ _ sb2) as [[] sb3]; cbn [negb]; [|discriminate].
  apply bind_no_checkAgainst.
  { unfold StringBuffer.infallibleAppend, MOZ_ASSERT.
    case_if; cbn [mbind outcome_bind]; discriminate. }
  intros sb4 _. destruct (StringBuffer.finish _ sb4); [|discriminate].
  apply compile_pattern_no_checkAgainst.
Qed.

Lemma execute_prepare_no_checkAgainst cx re input matches :
  execute_prepare H cx re input matches <> Crash A_checkAgainst.
Proof.
  unfold execute_prepare. cbv zeta. apply bind_no_checkAgainst.
  { unfold compileIfNecessary. case_if; [discriminate|apply compile_no_checkAgainst]. }
  intros [[[] re1] cx1] _; cbn [negb]; [|discriminate].
  destruct matches as [mp|]; [|discriminate].
  apply bind_no_checkAgainst; [apply allocOrExpandArray_no_checkAgainst|].
  intros [[ok mp1] mem1] _. discriminate.
Qed.

(** The literal path: the pair recorded lies within the input. *)
Lemma execute_dispatch_literal_in_bounds fuel cx re input start0 mp :
  canStringMatch re = true -> literal_ok re ->
  MatchPairs.pairCount_ mp = pairCount re ->
  0 <= start0 <= str_length (chars input) -> str_length (chars input) < 2 ^ 31 ->
  let r := execute_dispatch H fuel (sticky_slice re input start0) cx re input (Some mp) in
  r <> Crash A_checkAgainst /\
  forall re' m' cx',
    r = Done (RegExpRunStatus_Success, re', m', cx') ->
    exists mp', m' = Some mp' /\
      forallb (MatchPairs.pair_ok (str_length (chars input))) (MatchPairs.pairs mp') = true.
Proof.
  intros Hc Hwf Hcount Hstart Hlen r. subst r.
  destruct (Hwf Hc) as (Hs & _ & _ & Hp).
  assert (H31 : 0 < 2 ^ 31) by reflexivity.
  assert (H64 : 2 ^ 31 < 2 ^ SIZE_BITS) by reflexivity.
  rewrite sticky_slice_plain by done. unfold execute_dispatch. cbv zeta. rewrite Hc.
  unfold pairCount in *. rewrite Hp in *. change (size_t_wrap (0 + 1)) with 1 in *.
  cbn [MOZ_ASSERT Z.eqb Pos.eqb mbind outcome_bind start charsOffset origLength].
  rewrite Z.add_0_r, size_t_wrap_small by lia.
  pose proof (StringFindPattern_bound (chars input) (source re) start0 Hstart Hlen) as Hb.
  pose proof (str_length_nonneg (source re)) as Hsrc.
  set (res := StringFindPattern (chars input) (source re) start0) in *.
  destruct (Z.eqb_spec res (-1)) as [Hres|Hres].
  { split; [discriminate|]. intros ??? [=]. }
  destruct Hb as [?|[Hlo Hhi]]; [done|].
  rewrite (size_t_wrap_small res), size_t_wrap_small, int_wrap_small by lia.
  destruct (MatchPairs.set_pair 0 _ mp) as [mp1|why|] eqn:Hset; cbn [mbind outcome_bind].
  - apply set_pair_Done in Hset as (Hpc & Hblock & Hnonempty).
    assert (Hpairs : MatchPairs.pairs mp1
                     = [MatchPairs.mkPair res (res + str_length (source re))]).
    { unfold MatchPairs.pairs. rewrite Hpc, Hcount, Hblock.
      destruct (MatchPairs.block mp); [cbn in Hnonempty; lia|done]. }
    unfold MatchPairs.checkAgainst, MOZ_ASSERT. rewrite Hpairs.
    assert (Hok : MatchPairs.pair_ok (str_length (chars input))
                    (MatchPairs.mkPair res (res + str_length (source re))) = true).
    { unfold MatchPairs.pair_ok. cbn [MatchPairs.start MatchPairs.limit].
      rewrite andb_true_iff, !offset_ok_spec. lia. }
    cbn [forallb]. rewrite Hok. cbn [andb mbind outcome_bind mret outcome_ret].
    split; [discriminate|]. intros re' m' cx' [= <- <- <-].
    eexists. split; [done|]. rewrite Hpairs. cbn [forallb]. by rewrite Hok.
  - split; [|discriminate]. intros [= ->]. by eapply set_pair_no_checkAgainst.
  - split; discriminate.
Qed.

(** C9: for an engine that keeps the offsets of a match within the length it
    was given, an instance that compile has not wrongly made literal, a
    start offset within the input and an input whose length fits an [int]:
    execute with captures never fails the bounds check on its output, and
    when it reports a match every offset recorded for a pair in use is -1 or
    lies within [0, input length]. *)
Theorem execute_offsets_within_input fuel cx re input start0 mp
    (Heng : engine_in_bounds H) (Hwf : literal_ok re)
    (Hstart : 0 <= start0 <= str_length (chars input))
    (Hlen : str_length (chars input) < 2 ^ 31) :
  let r := execute H fuel cx re input start0 (Some mp) in
  r <> Crash A_checkAgainst /\
  forall re' m' cx',
    r = Done (RegExpRunStatus_Success, re', m', cx') ->
    exists mp', m' = Some mp' /\
      forallb (MatchPairs.pair_ok (str_length (chars input))) (MatchPairs.pairs mp') = true.
Proof.
  intros r. subst r. unfold execute.
  assert (H31 : 0 < 2 ^ 31) by reflexivity.
  assert (H64 : 2 ^ 31 < 2 ^ SIZE_BITS) by reflexivity.
  destruct (execute_prepare H cx re input (Some mp)) as [[[[ok re1] m1] cx1]|why|] eqn:Hprep;
    cbn [mbind outcome_bind].
  2:{ split; [|discriminate]. intros [= ->].
      by apply (execute_prepare_no_checkAgainst cx re input (Some mp)). }
  2:{ split; discriminate. }
  destruct (execute_prepare_Done _ _ _ _ _ _ _ _ Hprep) as (_ & _ & Hwf1 & mp1 & -> & Hcount).
  specialize (Hwf1 Hwf).
  destruct ok; cbn [negb]; [|split; [discriminate|intros ??? [=]]].
  specialize (Hcount eq_refl).
  destruct (canStringMatch re1) eqn:Hc.
  { by apply execute_dispatch_literal_in_bounds. }
  rewrite execute_dispatch_compiled by done.
  set (sl := sticky_slice re1 input start0).
  assert (Hsl : 0 <= displacement sl < 2 ^ SIZE_BITS /\ 0 <= length sl /\
                displacement sl + length sl = origLength sl /\
                origLength sl = str_length (chars input)).
  { unfold sl. destruct (sticky re1) eqn:Hs.
    - rewrite sticky_slice_sticky by (done || lia). cbn. lia.
    - rewrite sticky_slice_plain by done. cbn. lia. }
  destruct Hsl as (Hd & HL & Hsum & Horig).
  destruct (run_compiled_in_bounds Heng fuel sl cx1 re1 input mp1 HL) as [Hnc Hrun].
  destruct (run_compiled H fuel sl cx1 re1 input (Some mp1)) as [[[st m] cx2]|why|] eqn:Hr;
    cbn [mbind outcome_bind].
  - destruct (Hrun st m cx2 eq_refl) as (mp2 & -> & Hin).
    destruct (post_match_in_bounds sl re1 st (Some mp2) cx2 Hd HL Hsum ltac:(lia))
      as [Hpc Hpd].
    { intros mp' Hst [= <-]. by apply Hin. }
    split; [done|]. intros re' m' cx' Hdone. rewrite <- Horig. by eapply Hpd.
  - split; [|discriminate]. intros [= ->]. by apply Hnc.
  - split; discriminate.
Qed.

End ExecuteFacts.

(** ** Execution with the small host *)

Section ToyFacts.
Import Flags RegExpShared.

Lemma toy_in_bounds : engine_in_bounds Toy.host.
Proof.
  assert (Hrun : forall w code chs st len mp b w',
    0 <= len ->
    Toy.run w code chs st len (Some mp) = (RegExpRunStatus_Success, b, w') ->
    forallb (MatchPairs.pair_ok len) (take (Z.to_nat (MatchPairs.pairCount_ mp)) b) = true).
  { intros w code chs st len mp b w' Hlen. unfold Toy.run. cbn [Toy.pending from_option].
    case_if; [discriminate|]. case_if as Hcond; [|discriminate].
    intros [= <- _]. apply andb_true_iff in Hcond as [_ Hsw].
    apply starts_with_length in Hsw. rewrite length_take in Hsw.
    apply forallb_forall. intros p Hp. apply list_elem_of_In in Hp.
    apply elem_of_take in Hp as (i & Hp & _).
    destruct (MatchPairs.block mp) as [|p0 rest]; [by rewrite lookup_nil in Hp|].
    destruct i as [|i]; cbn in Hp.
    - injection Hp as <-. unfold MatchPairs.pair_ok. cbn [MatchPairs.start MatchPairs.limit].
      rewrite andb_true_iff, !offset_ok_spec. unfold str_length in *. lia.
    - apply list_elem_of_lookup_2, list_elem_of_fmap in Hp as (? & -> & _).
      reflexivity. }
  intros w code chs st len mp b w' Hlen [He|He]; by eapply Hrun.
Qed.

(** C3 as stated fails: the source [abc] has no metacharacter and ignore-case
    is not set, yet compile leaves the sticky instance without the literal
    fast path. *)
Lemma compile_sticky_not_literal :
  let re := new (lit "abc") StickyFlag in
  StringHasRegExpMetaChars (source re) = false /\ ignoreCase re = false /\
  exists re' cx',
    compile Toy.host (Toy.context (Toy.quiet true)) re (mkString true (lit "xxabc")) Normal
      = Done (true, re', cx') /\
    canStringMatch re' = false.
Proof.
  vm_compute. split; [done|]. split; [done|]. eexists _, _. split; reflexivity.
Qed.

Lemma compile_literal_eligibility_witness :
  let cx := Toy.context (Toy.quiet true) in
  let re := set_literal (new (lit "abc") 0) in
  canStringMatch re = true /\
  execute Toy.host 0 cx re (mkString true (lit "xxabcxx")) 0 None
    = Done (RegExpRunStatus_Success, re, None, cx).
Proof.
  intros cx re.
  destruct (compile_literal_eligibility Toy.host cx (new (lit "abc") 0)
              (mkString true (lit "xxabcxx")) Normal true re cx
              (literal_ok_new _ _) eq_refl) as (_ & _ & Hexec).
  split; [reflexivity|].
  destruct (Hexec eq_refl) as (_ & _ & _ & _ & Hrun).
  rewrite Hrun. reflexivity.
Defined.

(** The literal path with captures, on the example of the specification. *)
Example execute_literal_abc :
  exists re' mp' cx',
    execute Toy.host 0 (Toy.context (Toy.quiet true)) (new (lit "abc") 0)
      (mkString true (lit "xxabcxx")) 0 Toy.fresh_pairs
    = Done (RegExpRunStatus_Success, re', Some mp', cx') /\
    MatchPairs.pairs mp' = [MatchPairs.mkPair 2 5].
Proof. vm_compute. eexists _, _, _. split; reflexivity. Qed.

(** C4 as stated fails on the bytecode path: the interpreter gives up while
    an interrupt is pending and the callback would permit continuation, yet
    execute returns Error after that single run, the callback not having
    been invoked; on the native-code path the same situation is retried and
    ends in a match. *)
Lemma execute_bytecode_no_retry :
  let run jit :=
    execute Toy.host 5 (Toy.context (Toy.mkWorld 1 true jit [])) Toy.sticky_a
      Toy.xxa 2 Toy.fresh_pairs in
  (exists re' m' cx',
     run false = Done (RegExpRunStatus_Error, re', m', cx') /\
     interrupt Toy.host (world cx') = true /\
     (InvokeInterruptCallback Toy.host (world cx')).1 = true /\
     Toy.pending (world cx') = 1%nat /\
     List.length (Toy.calls (world cx')) = 1%nat) /\
  (exists re' m' cx',
     run true = Done (RegExpRunStatus_Success, re', m', cx') /\
     Toy.pending (world cx') = 0%nat /\
     List.length (Toy.calls (world cx')) = 2%nat).
Proof.
  vm_compute. split; eexists _, _, _; repeat split; reflexivity.
Qed.

Lemma execute_interrupt_retry_witness :
  let cx := Toy.context (Toy.mkWorld 1 true true []) in
  exists re1 m1 cx1 b w2,
    execute_prepare Toy.host cx Toy.sticky_a Toy.xxa Toy.fresh_pairs
      = Done (true, re1, m1, cx1) /\
    execute Toy.host 2 cx Toy.sticky_a Toy.xxa 2 Toy.fresh_pairs =
      r ← execute_jit_loop Toy.host 1 (set_world cx1 w2) (Some (lit "a")) (lit "a")
            0 1 (written m1 b);
      execute_finish (mkSlice 2 1 3 2 0) re1 r.
Proof.
  intros cx. eexists _, _, _, _, _. split; [reflexivity|].
  eapply (execute_interrupt_retry Toy.host 1 cx Toy.sticky_a Toy.xxa 2 Toy.fresh_pairs);
    reflexivity.
Defined.

Lemma execute_sticky_displacement_witness :
  let cx := Toy.context (Toy.quiet true) in
  exists re1 m1 cx1,
    execute_prepare Toy.host cx Toy.sticky_a Toy.xxa Toy.fresh_pairs
      = Done (true, re1, m1, cx1) /\
    execute Toy.host 2 cx Toy.sticky_a Toy.xxa 2 Toy.fresh_pairs =
      r ← run_compiled Toy.host 2 (mkSlice 0 1 1 0 0) cx1 re1 (mkString true (lit "a")) m1;
      post_match (mkSlice 2 1 3 2 0) re1 r.
Proof.
  intros cx. eexists _, _, _. split; [reflexivity|].
  eapply (execute_sticky_displacement Toy.host 2 cx Toy.sticky_a Toy.xxa 2 Toy.fresh_pairs).
  - reflexivity.
  - apply literal_ok_new.
  - by vm_compute.
  - reflexivity.
  - reflexivity.
Defined.

Lemma execute_offsets_within_input_witness :
  let r := execute Toy.host 2 (Toy.context (Toy.quiet false)) Toy.sticky_a Toy.xxa 2
             Toy.fresh_pairs in
  r <> Crash A_checkAgainst /\
  forall re' m' cx',
    r = Done (RegExpRunStatus_Success, re', m', cx') ->
    exists mp', m' = Some mp' /\
      forallb (MatchPairs.pair_ok 3) (MatchPairs.pairs mp') = true.
Proof.
  apply (execute_offsets_within_input Toy.host 2 (Toy.context (Toy.quiet false))
           Toy.sticky_a Toy.xxa 2 (MatchPairs.new MatchPairs.ScopedMatchPairs)
           toy_in_bounds (literal_ok_new _ _)).
  - by vm_compute.
  - reflexivity.
Defined.

(** C10: for a sticky instance execute takes the search length to be the
    [size_t] difference of the input length and the start offset, without a
    test: when the start offset is at most the input length this is their
    difference, and otherwise it is that difference plus 2^64, a value beyond
    the input length.  The length goes to the engine as it is; the small
    host, started at offset 2 of the one-character input ["a"], is given the
    length 2^64 - 1. *)
Theorem sticky_slice_length_wraps re input start0
    (Hs : sticky re = true)
    (Hstart : 0 <= start0 < 2 ^ SIZE_BITS)
    (Hlen : str_length (chars input) < 2 ^ SIZE_BITS) :
  let len := str_length (chars input) in
  let sl := sticky_slice re input start0 in
  (length sl = (len - start0) mod 2 ^ SIZE_BITS /\
   charsOffset sl = start0 /\ start sl = 0 /\ displacement sl = start0 /\
   origLength sl = len) /\
  (start0 <= len -> length sl = len - start0 /\ 0 <= length sl <= len) /\
  (len < start0 -> length sl = 2 ^ SIZE_BITS + len - start0 /\ len < length sl) /\
  (exists re' m' cx',
     execute Toy.host 1 (Toy.context (Toy.quiet false)) Toy.sticky_a
       (mkString true (lit "a")) 2 None
     = Done (RegExpRunStatus_Success_NotFound, re', m', cx') /\
     Toy.calls (world cx') = [([], 0, 2 ^ SIZE_BITS - 1)]).
Proof.
  intros len sl. pose proof (str_length_nonneg (chars input)) as Hnn. fold len in Hnn, Hlen.
  assert (Hsl : sl = mkSlice start0 ((len - start0) mod 2 ^ SIZE_BITS) len start0 0).
  { unfold sl, sticky_slice. rewrite Hs. fold len.
    rewrite Z.add_0_l, (size_t_wrap_small start0) by done. reflexivity. }
  rewrite Hsl. cbn [length charsOffset start displacement origLength].
  split; [done|]. split; [|split].
  - intros Hle. rewrite Z.mod_small by lia. lia.
  - intros Hgt.
    replace ((len - start0) mod 2 ^ SIZE_BITS) with (2 ^ SIZE_BITS + len - start0)
      by (apply Z.mod_unique with (-1); lia).
    lia.
  - vm_compute. eexists _, _, _. split; reflexivity.
Qed.

Lemma sticky_slice_length_wraps_witness :
  length (sticky_slice Toy.sticky_a Toy.xxa 2) = 1 /\
  length (sticky_slice Toy.sticky_a Toy.xxa 5) = 2 ^ 64 - 2.
Proof.
  split.
  - apply (sticky_slice_length_wraps Toy.sticky_a Toy.xxa 2); by vm_compute.
  - etransitivity;
      [apply (sticky_slice_length_wraps Toy.sticky_a Toy.xxa 5); by vm_compute
      |reflexivity].
Defined.

End ToyFacts.

(** ** Further properties of flag parsing and rendering *)

Section FlagOrderFacts.
Import Flags RegExpObject.

Lemma clean_after_iff s :
  clean_after [] s <-> Forall (fun c => is_flag_letter c = true) s /\ NoDup s.
Proof.
  split.
  - intros Hc. split.
    + apply Forall_forall. intros c Hin. apply list_elem_of_lookup in Hin as [i Hi].
      by destruct (Hc i c Hi).
    + apply NoDup_alt. intros i j c Hi Hj.
      destruct (Nat.lt_trichotomy i j) as [Hlt|[?|Hlt]]; [|done|]; exfalso.
      * destruct (Hc j c Hj) as [_ Hn]. apply Hn. cbn [app].
        apply list_elem_of_lookup. exists i. by rewrite lookup_take_lt.
      * destruct (Hc i c Hi) as [_ Hn]. apply Hn. cbn [app].
        apply list_elem_of_lookup. exists j. by rewrite lookup_take_lt.
  - intros [Hl Hnd] i c Hi. split.
    + rewrite Forall_forall in Hl. apply Hl. by eapply list_elem_of_lookup_2.
    + cbn [app]. intros Hin. apply list_elem_of_lookup in Hin as [j Hj].
      pose proof (lookup_lt_Some _ _ _ Hj) as Hlt. rewrite length_take in Hlt.
      rewrite lookup_take_lt in Hj by lia.
      rewrite NoDup_alt in Hnd. specialize (Hnd i j c Hi Hj). lia.
Qed.

(** The template function succeeds exactly on strings of distinct flag
    letters, and then returns the bits of those letters. *)
Lemma ParseRegExpFlags_true s a0 :
  ((ParseRegExpFlags s a0).1.1 = true <->
     Forall (fun c => is_flag_letter c = true) s /\ NoDup s) /\
  ((ParseRegExpFlags s a0).1.1 = true -> bits_of_letters s (ParseRegExpFlags s a0).1.2).
Proof.
  unfold ParseRegExpFlags.
  pose proof (ParseRegExpFlags_loop_spec s [] 0 a0 bits_of_letters_nil) as Hspec.
  destruct (ParseRegExpFlags_loop s 0 a0) as [[[] fl] lp]; cbn [fst snd].
  - destruct Hspec as [Hb Hc]. split; [|done]. split; [|done].
    intros _. by apply clean_after_iff.
  - split; [|done]. split; [done|]. intros Hclean. exfalso.
    apply clean_after_iff in Hclean.
    destruct Hspec as (i & Hi & Ho & _).
    destruct (Hclean i lp Hi) as [Hl Hn]. destruct Ho; congruence.
Qed.

(** A flag set within the four bits is determined by the four bits. *)
Lemma small_flags_ext f1 f2 :
  0 <= f1 <= AllFlags -> 0 <= f2 <= AllFlags ->
  (forall c f, flag_of_char c = Some f -> has_flag f1 f = has_flag f2 f) ->
  f1 = f2.
Proof.
  intros H1 H2 Hext.
  pose proof (Hext (chr "i") IgnoreCaseFlag eq_refl) as Hi.
  pose proof (Hext (chr "g") GlobalFlag eq_refl) as Hg.
  pose proof (Hext (chr "m") MultilineFlag eq_refl) as Hm.
  pose proof (Hext (chr "y") StickyFlag eq_refl) as Hy.
  destruct (small_flags_cases _ H1) as
    [->|[->|[->|[->|[->|[->|[->|[->|[->|[->|[->|[->|[->|[->|[->| ->]]]]]]]]]]]]]]];
  destruct (small_flags_cases _ H2) as
    [->|[->|[->|[->|[->|[->|[->|[->|[->|[->|[->|[->|[->|[->|[->| ->]]]]]]]]]]]]]]];
  try reflexivity; vm_compute in Hi, Hg, Hm, Hy; congruence.
Qed.

Lemma bits_of_letters_unique s1 s2 f1 f2 :
  bits_of_letters s1 f1 -> bits_of_letters s2 f2 ->
  (forall c, c ∈ s1 <-> c ∈ s2) -> f1 = f2.
Proof.
  intros [Hr1 Hb1] [Hr2 Hb2] Hsame. apply small_flags_ext; [done..|].
  intros c f Hf. apply eq_true_iff_eq.
  rewrite (Hb1 c f Hf), (Hb2 c f Hf). apply Hsame.
Qed.

(** X1: the order of the letters does not matter.  Two flag strings that are
    permutations of each other are both accepted or both rejected, and when
    accepted they give the same flags. *)
Theorem ParseRegExpFlags_order_irrelevant (l1 l2 : JSLinearString) f1 a1 f2 a2
    (Hperm : chars l1 ≡ₚ chars l2) :
  let r1 := js_ParseRegExpFlags (Some l1) f1 a1 in
  let r2 := js_ParseRegExpFlags (Some l2) f2 a2 in
  r1.1.1 = r2.1.1 /\ (r1.1.1 = true -> r1.1.2 = r2.1.2).
Proof.
  intros r1 r2. subst r1 r2. unfold js_ParseRegExpFlags.
  destruct (ParseRegExpFlags_true (chars l1) a1) as [Hok1 Hb1].
  destruct (ParseRegExpFlags_true (chars l2) a2) as [Hok2 Hb2].
  assert (Hiff : (ParseRegExpFlags (chars l1) a1).1.1 = true <->
                 (ParseRegExpFlags (chars l2) a2).1.1 = true).
  { rewrite Hok1, Hok2. by rewrite Hperm. }
  destruct (ParseRegExpFlags (chars l1) a1) as [[ok1 fl1] lp1].
  destruct (ParseRegExpFlags (chars l2) a2) as [[ok2 fl2] lp2].
  cbn [fst snd] in *.
  destruct ok1, ok2; cbn [negb fst snd]; try (split; [done|done]).
  - split; [done|]. intros _.
    apply (bits_of_letters_unique (chars l1) (chars l2)); [by apply Hb1|by apply Hb2|].
    intros c. by rewrite Hperm.
  - destruct Hiff as [Hiff _]. specialize (Hiff eq_refl). discriminate.
  - destruct Hiff as [_ Hiff]. specialize (Hiff eq_refl). discriminate.
Qed.

Lemma ParseRegExpFlags_order_irrelevant_witness :
  (js_ParseRegExpFlags (Some (mkString true (lit "ymgi"))) 0 0).1
  = (js_ParseRegExpFlags (Some (mkString false (lit "gimy"))) 0 0).1.
Proof.
  assert (Hperm : lit "ymgi" ≡ₚ lit "gimy").
  { apply (bool_decide_unpack _). by vm_compute. }
  destruct (ParseRegExpFlags_order_irrelevant (mkString true (lit "ymgi"))
              (mkString false (lit "gimy")) 0 0 0 0 Hperm) as [Hok Hfl].
  apply injective_projections; [exact Hok|]. apply Hfl. reflexivity.
Defined.

(** *** toString and the flag parser *)

Lemma toString_Some limit self src flags out :
  str_length src + 2 < 2 ^ SIZE_BITS ->
  toString limit (init true self src flags).2 = Done (Some out) ->
  out = spec_body src ++ spec_flag_letters flags.
Proof.
  intros Hlen. rewrite toString_init by done. case_if; [|done]. by intros [= <-].
Qed.

Lemma spec_flag_letters_elem flags c :
  c ∈ spec_flag_letters flags <->
  exists f, flag_of_char c = Some f /\ has_flag flags f = true.
Proof.
  unfold spec_flag_letters. split.
  - rewrite !elem_of_app. intros [Hc|[Hc|[Hc|Hc]]].
    + destruct (has_flag flags GlobalFlag) eqn:Hf; [|by apply elem_of_nil in Hc].
      apply list_elem_of_singleton in Hc as ->. by exists GlobalFlag.
    + destruct (has_flag flags IgnoreCaseFlag) eqn:Hf; [|by apply elem_of_nil in Hc].
      apply list_elem_of_singleton in Hc as ->. by exists IgnoreCaseFlag.
    + destruct (has_flag flags MultilineFlag) eqn:Hf; [|by apply elem_of_nil in Hc].
      apply list_elem_of_singleton in Hc as ->. by exists MultilineFlag.
    + destruct (has_flag flags StickyFlag) eqn:Hf; [|by apply elem_of_nil in Hc].
      apply list_elem_of_singleton in Hc as ->. by exists StickyFlag.
  - intros (f & Hf & Hset).
    destruct (flag_of_char_cases _ _ Hf) as [[-> ->]|[[-> ->]|[[-> ->]|[-> ->]]]];
      rewrite Hset, !elem_of_app, !list_elem_of_singleton; tauto.
Qed.

Lemma spec_flag_letters_NoDup flags : NoDup (spec_flag_letters flags).
Proof.
  unfold spec_flag_letters.
  destruct (has_flag flags GlobalFlag), (has_flag flags IgnoreCaseFlag),
    (has_flag flags MultilineFlag), (has_flag flags StickyFlag);
    apply (bool_decide_unpack _); by vm_compute.
Qed.

(** X2: the letters that toString prints after the body parse back to the
    flags the object was initialised from, for every set of the four flags. *)
Theorem toString_letters_parse_back limit self src flags out
    (Hflags : 0 <= flags <= AllFlags)
    (Hlen : str_length src + 2 < 2 ^ SIZE_BITS)
    (Hout : toString limit (init true self src flags).2 = Done (Some out)) :
  exists letters,
    out = spec_body src ++ letters /\
    forall latin1 f0 a0,
      js_ParseRegExpFlags (Some (mkString latin1 letters)) f0 a0 = (true, flags, []).
Proof.
  exists (spec_flag_letters flags). split; [by eapply toString_Some|].
  intros latin1 f0 a0.
  destruct (small_flags_cases _ Hflags) as
    [->|[->|[->|[->|[->|[->|[->|[->|[->|[->|[->|[->|[->|[->|[->| ->]]]]]]]]]]]]]]];
    reflexivity.
Qed.

Lemma toString_letters_parse_back_witness :
  exists letters,
    lit "/a+/gy" = lit "/a+/" ++ letters /\
    js_ParseRegExpFlags (Some (mkString true letters)) 0 0
      = (true, Z.lor GlobalFlag StickyFlag, []).
Proof.
  destruct (toString_letters_parse_back 16 blank (lit "a+") (Z.lor GlobalFlag StickyFlag)
              (lit "/a+/gy") ltac:(by vm_compute) ltac:(by vm_compute)
              ltac:(by vm_compute)) as (letters & Hout & Hparse).
  exists letters. split; [exact Hout|apply Hparse].
Defined.

(** X3: the letters that toString prints for flags obtained from the parser
    are the letters of the parsed string, each once, in the order g, i, m, y. *)
Theorem toString_letters_of_parsed limit self src (l : JSLinearString) f0 a0 flags r out
    (Hlen : str_length src + 2 < 2 ^ SIZE_BITS)
    (Hparse : js_ParseRegExpFlags (Some l) f0 a0 = (true, flags, r))
    (Hout : toString limit (init true self src flags).2 = Done (Some out)) :
  exists letters,
    out = spec_body src ++ letters /\ letters ≡ₚ chars l /\
    letters = filter (fun c => bool_decide (c ∈ chars l)) (lit "gimy").
Proof.
  exists (spec_flag_letters flags). split; [by eapply toString_Some|].
  unfold js_ParseRegExpFlags in Hparse.
  destruct (ParseRegExpFlags_true (chars l) a0) as [Hok Hbits].
  destruct (ParseRegExpFlags (chars l) a0) as [[ok fl] lp]. cbn [fst snd] in *.
  destruct ok; cbn [negb] in Hparse; [|done]. injection Hparse as -> _.
  destruct Hok as [Hok _]. destruct (Hok eq_refl) as [Hletters Hnd].
  destruct (Hbits eq_refl) as [_ Hb].
  split.
  - apply NoDup_Permutation; [apply spec_flag_letters_NoDup|done|].
    intros c. rewrite spec_flag_letters_elem. split.
    + intros (f & Hf & Hset). by apply (Hb c f Hf).
    + intros Hin. rewrite Forall_forall in Hletters. specialize (Hletters c Hin).
      unfold is_flag_letter in Hletters.
      destruct (flag_of_char c) as [f|] eqn:Hf; [|done].
      exists f. split; [done|]. by apply (Hb c f Hf).
  - unfold spec_flag_letters.
    assert (Hdec : forall c f, flag_of_char c = Some f ->
              has_flag flags f = bool_decide (c ∈ chars l)).
    { intros c f Hf. apply eq_true_iff_eq. rewrite bool_decide_eq_true. by apply Hb. }
    rewrite (Hdec (chr "g") GlobalFlag eq_refl), (Hdec (chr "i") IgnoreCaseFlag eq_refl),
      (Hdec (chr "m") MultilineFlag eq_refl), (Hdec (chr "y") StickyFlag eq_refl).
    change (lit "gimy") with [chr "g"; chr "i"; chr "m"; chr "y"].
    rewrite !filter_cons, filter_nil.
    by repeat case_bool_decide.
Qed.

Lemma toString_letters_of_parsed_witness :
  exists letters,
    lit "/a+/gy" = lit "/a+/" ++ letters /\ letters ≡ₚ lit "yg".
Proof.
  destruct (toString_letters_of_parsed 16 blank (lit "a+") (mkString true (lit "yg"))
              0 0 (Z.lor GlobalFlag StickyFlag) [] (lit "/a+/gy")
              ltac:(by vm_compute) ltac:(by vm_compute) ltac:(by vm_compute))
    as (letters & Hout & Hperm & _).
  exists letters. by split.
Defined.

End FlagOrderFacts.

(** ** Further properties of MatchPairs *)

Section MatchPairsMoreFacts.
Import MatchPairs.

(** X4: initArrayFrom, when it succeeds, leaves the buffer with the pair
    count of the buffer copied from and with the same pairs. *)
Theorem initArrayFrom_copies copyFrom mp mem mp' mem'
    (Hdone : initArrayFrom copyFrom mp mem = Done (true, mp', mem')) :
  0 < pairCount_ copyFrom /\
  pairCount_ mp' = pairCount_ copyFrom /\
  pairs mp' = pairs copyFrom.
Proof.
  unfold initArrayFrom, MOZ_ASSERT in Hdone.
  destruct (Z.ltb_spec 0 (pairCount_ copyFrom)) as [Hpos|]; [|done].
  cbn [mbind outcome_bind] in Hdone.
  destruct (allocOrExpandArray _ mp mem) as [[[ok mp0] mem0]| |] eqn:Ha; [|done..].
  cbn [mbind outcome_bind] in Hdone. destruct ok; cbn [negb] in Hdone; [|done].
  apply allocOrExpandArray_pairCount in Ha.
  destruct (bool_decide _ && bool_decide _) eqn:Hb; cbn [mbind outcome_bind] in Hdone;
    [|done].
  injection Hdone as <- _. apply andb_true_iff in Hb as [Hb1 Hb2].
  apply bool_decide_eq_true in Hb1, Hb2.
  split; [done|]. split; [done|].
  unfold pairs. cbn [set_block pairCount_ block]. rewrite Ha in *.
  rewrite take_app_length'; [done|]. rewrite length_take. lia.
Qed.

Lemma initArrayFrom_copies_witness :
  let mem := mkMemory 4096 1024 (fun _ => mkPair 7 9) in
  let src := mk ScopedMatchPairs 2 (Some 64) [mkPair 0 5; mkPair 1 3; mkPair 8 8] in
  exists mp' mem',
    initArrayFrom src (new ScopedMatchPairs) mem = Done (true, mp', mem') /\
    pairs mp' = [mkPair 0 5; mkPair 1 3].
Proof.
  intros mem src. eexists _, _. split; [reflexivity|].
  eapply (initArrayFrom_copies src (new ScopedMatchPairs) mem). reflexivity.
Defined.

Lemma displace_pair_invalid disp : displace_pair disp invalid_pair = invalid_pair.
Proof. reflexivity. Qed.

(** X5: displace keeps the pair count and the array where they are, and a
    pair that is (-1, -1) stays (-1, -1) whatever the displacement. *)
Theorem displace_keeps_undefined disp mp mp'
    (Hdone : displace disp mp = Done mp') :
  pairCount_ mp' = pairCount_ mp /\ pairs_ mp' = pairs_ mp /\
  List.length (pairs mp') = List.length (pairs mp) /\
  forall i, pairs mp !! i = Some invalid_pair -> pairs mp' !! i = Some invalid_pair.
Proof.
  apply displace_Done in Hdone as (Hc & Hp & Hpairs).
  split; [done|]. split; [done|]. rewrite Hpairs. split; [by rewrite length_fmap|].
  intros i Hi. rewrite list_lookup_fmap, Hi. cbn [fmap option_fmap option_map].
  by case_if.
Qed.

Lemma displace_keeps_undefined_witness :
  exists mp',
    displace 4 (mk ScopedMatchPairs 2 (Some 64) [mkPair 1 2; invalid_pair]) = Done mp' /\
    pairs mp' !! 1%nat = Some invalid_pair.
Proof.
  eexists. split; [reflexivity|].
  eapply (displace_keeps_undefined 4
            (mk ScopedMatchPairs 2 (Some 64) [mkPair 1 2; invalid_pair]));
    reflexivity.
Defined.

Lemma add_back_add d1 d2 x : 0 <= d1 -> add_back d2 (add_back d1 x) = add_back (d1 + d2) x.
Proof.
  intros Hd. unfold add_back. destruct (Z.ltb_spec x 0) as [Hx|Hx].
  - destruct (Z.ltb_spec x 0); [done|lia].
  - destruct (Z.ltb_spec (x + d1) 0); lia.
Qed.

(** X6: two displacements in a row amount to one displacement by the sum, as
    long as the displaced offsets fit an [int]. *)
Theorem displace_twice d1 d2 mp mp1 mp2
    (Hd1 : 0 <= d1) (Hd2 : 0 <= d2) (Hsum : d1 + d2 < 2 ^ SIZE_BITS)
    (Hfit : forall p, p ∈ pairs mp ->
              fits_int (d1 + d2) (start p) /\ fits_int (d1 + d2) (limit p))
    (Hfirst : displace d1 mp = Done mp1)
    (Hsecond : displace d2 mp1 = Done mp2) :
  pairs mp2 = add_back_pair (d1 + d2) <$> pairs mp /\
  forall mp3, displace (d1 + d2) mp = Done mp3 -> pairs mp3 = pairs mp2.
Proof.
  assert (Hfit1 : forall p, p ∈ pairs mp ->
            fits_int d1 (start p) /\ fits_int d1 (limit p)).
  { intros p Hp. destruct (Hfit p Hp) as [[? ?] [? ?]]. unfold fits_int. lia. }
  pose proof (displace_adds_back d1 mp mp1 ltac:(lia) Hfirst Hfit1) as H1.
  assert (Hfit2 : forall p, p ∈ pairs mp1 ->
            fits_int d2 (start p) /\ fits_int d2 (limit p)).
  { intros p. rewrite H1. intros Hp.
    apply list_elem_of_fmap in Hp as (q & -> & Hq).
    destruct (Hfit q Hq) as [[? ?] [? ?]].
    unfold fits_int, add_back_pair, add_back. cbn [start limit].
    destruct (Z.ltb_spec (start q) 0), (Z.ltb_spec (limit q) 0); lia. }
  pose proof (displace_adds_back d2 mp1 mp2 ltac:(lia) Hsecond Hfit2) as H2.
  assert (Hall : pairs mp2 = add_back_pair (d1 + d2) <$> pairs mp).
  { rewrite H2, H1, <- list_fmap_compose. apply Forall_fmap_ext_1, Forall_forall.
    intros p _. unfold add_back_pair. cbn [compose start limit].
    by rewrite !add_back_add. }
  split; [done|]. intros mp3 Hthird.
  by rewrite (displace_adds_back (d1 + d2) mp mp3 ltac:(lia) Hthird Hfit).
Qed.

Lemma displace_twice_witness :
  let mp := mk ScopedMatchPairs 2 (Some 64) [mkPair 1 2; invalid_pair] in
  exists mp1 mp2,
    displace 4 mp = Done mp1 /\ displace 3 mp1 = Done mp2 /\
    pairs mp2 = [mkPair 8 9; invalid_pair].
Proof.
  intros mp. eexists _, _. split; [reflexivity|]. split; [reflexivity|].
  eapply (displace_twice 4 3 mp); [lia|lia|by vm_compute| |reflexivity|reflexivity].
  intros p Hp. apply list_elem_of_In in Hp. cbn in Hp.
  destruct Hp as [<-|[<-|[]]]; by vm_compute.
Defined.

Lemma fresh_block_length mem p bytes :
  List.length (fresh_block mem p bytes) = Z.to_nat (bytes / sizeof_MatchPair).
Proof. unfold fresh_block. by rewrite length_map, length_seq. Qed.

(** X7: on a buffer as constructed, initArray(n) depends on the arena only:
    when the arena can grant the 8 n bytes it returns true with n pairs at
    (-1, -1) in a block taken from the arena, and otherwise it returns false
    and leaves buffer and arena as they were. *)
Theorem initArray_fresh_scoped n mem
    (Hn : 0 < n) (Hsize : sizeof_MatchPair * n < 2 ^ SIZE_BITS) :
  initArray n (new ScopedMatchPairs) mem =
    if sizeof_MatchPair * n <=? available mem
    then Done (true,
               mk ScopedMatchPairs n (Some (next_free mem))
                  (replicate (Z.to_nat n) invalid_pair),
               mkMemory (next_free mem + sizeof_MatchPair * n)
                        (available mem - sizeof_MatchPair * n) (raw mem))
    else Done (false, new ScopedMatchPairs, mem).
Proof.
  unfold initArray, MOZ_ASSERT.
  destruct (Z.ltb_spec 0 n) as [_|]; [|lia]. cbn [mbind outcome_bind].
  unfold allocOrExpandArray, Scoped_allocOrExpandArray, MOZ_ASSERT, alloc.
  cbn [new class_ pairCount_ pairs_ nonnull negb Z.eqb mbind outcome_bind].
  unfold sizeof_MatchPair in *. rewrite size_t_wrap_small by lia.
  destruct (8 * n <=? available mem); cbn [mbind outcome_bind mret outcome_ret negb];
    [|done].
  cbn [block].
  assert (Hlen : List.length (fresh_block mem (next_free mem) (8 * n)) = Z.to_nat n).
  { rewrite fresh_block_length. unfold sizeof_MatchPair.
    by rewrite Z.mul_comm, Z.div_mul. }
  rewrite initArray_loop_ok by lia. cbn [mbind outcome_bind].
  rewrite take_0, Nat.add_0_l, drop_ge by lia. by rewrite app_nil_r.
Qed.

Lemma initArray_fresh_scoped_witness :
  initArray 3 (new ScopedMatchPairs) (mkMemory 4096 16 (fun _ => mkPair 7 9))
    = Done (false, new ScopedMatchPairs, mkMemory 4096 16 (fun _ => mkPair 7 9)).
Proof.
  rewrite initArray_fresh_scoped by (by vm_compute). reflexivity.
Defined.

(** X8: the byte size [sizeof(MatchPair) * pairCount] is computed in
    [size_t].  For a count whose byte size does not fit, initArray on a
    buffer as constructed never returns true: it returns false, or its loop
    writes outside the block that was allocated. *)
Theorem initArray_size_overflow n mem
    (Hn : 0 < n) (Hover : 2 ^ SIZE_BITS <= sizeof_MatchPair * n) :
  initArray n (new ScopedMatchPairs) mem = Done (false, new ScopedMatchPairs, mem) \/
  initArray n (new ScopedMatchPairs) mem = Crash A_out_of_bounds.
Proof.
  unfold initArray, MOZ_ASSERT.
  destruct (Z.ltb_spec 0 n) as [_|]; [|lia]. cbn [mbind outcome_bind].
  unfold allocOrExpandArray, Scoped_allocOrExpandArray, MOZ_ASSERT, alloc.
  cbn [new class_ pairCount_ pairs_ nonnull negb Z.eqb mbind outcome_bind].
  case_if; cbn [mbind outcome_bind mret outcome_ret negb]; [|by left].
  right. cbn [block].
  set (bytes := size_t_wrap (sizeof_MatchPair * n)).
  assert (Hbytes : 0 <= bytes < 2 ^ SIZE_BITS).
  { unfold bytes, size_t_wrap. apply Z.mod_pos_bound. reflexivity. }
  assert (Hshort : (List.length (fresh_block mem (next_free mem) bytes) < Z.to_nat n)%nat).
  { rewrite fresh_block_length. unfold sizeof_MatchPair in *.
    assert (bytes / 8 < n); [|lia].
    apply Z.div_lt_upper_bound; lia. }
  destruct (initArray_loop (Z.to_nat n) 0 _) as [b|why|] eqn:Hl.
  - apply initArray_loop_Done in Hl as [Hlen _]. lia.
  - cbn [mbind outcome_bind]. f_equal.
    clear -Hl. revert Hl. generalize (fresh_block mem (next_free mem) bytes).
    generalize 0%nat. induction (Z.to_nat n) as [|k IH]; intros i b; cbn [initArray_loop].
    + discriminate.
    + unfold store. case_bool_decide; cbn [mbind outcome_bind mret outcome_ret].
      * apply IH.
      * by intros [= <-].
  - exfalso. clear -Hl. revert Hl. generalize (fresh_block mem (next_free mem) bytes).
    generalize 0%nat. induction (Z.to_nat n) as [|k IH]; intros i b; cbn [initArray_loop].
    + discriminate.
    + unfold store. case_bool_decide; cbn [mbind outcome_bind mret outcome_ret].
      * apply IH.
      * discriminate.
Qed.

Lemma initArray_size_overflow_witness :
  initArray (2 ^ 61 + 1) (new ScopedMatchPairs) (mkMemory 4096 8 (fun _ => mkPair 7 9))
    = Crash A_out_of_bounds.
Proof.
  destruct (initArray_size_overflow (2 ^ 61 + 1)
              (mkMemory 4096 8 (fun _ => mkPair 7 9))
              ltac:(by vm_compute) ltac:(by vm_compute)) as [Hf|Hc]; [|exact Hc].
  exfalso. revert Hf. unfold initArray, MOZ_ASSERT.
  change (0 <? 2 ^ 61 + 1) with true. cbn [mbind outcome_bind].
  unfold allocOrExpandArray, Scoped_allocOrExpandArray, MOZ_ASSERT, alloc.
  cbn [new class_ pairCount_ pairs_ nonnull negb Z.eqb mbind outcome_bind].
  change (size_t_wrap (sizeof_MatchPair * (2 ^ 61 + 1))) with 8.
  cbn [available Z.leb Z.compare Pos.compare Pos.compare_cont mbind outcome_bind
       mret outcome_ret negb].
  destruct (initArray_loop _ _ _) as [b|why|]; cbn [mbind outcome_bind mret outcome_ret];
    discriminate.
Defined.

End MatchPairsMoreFacts.

(** ** Further properties of compilation and execution *)

Section CompileMoreFacts.
Import Flags RegExpShared Slots.
Context {W : Type} (H : Host W).

Lemma slots_ok_new src fl : slots_ok (new src fl).
Proof. reflexivity. Qed.

Lemma CompilationIndex_inj m1 l1 m2 l2 :
  CompilationIndex m1 l1 = CompilationIndex m2 l2 -> m1 = m2 /\ l1 = l2.
Proof. by destruct m1, l1, m2, l2. Qed.

Lemma CompilationIndex_bound m l : (CompilationIndex m l < 4)%nat.
Proof. destruct m, l; cbn; lia. Qed.

(** The ways in which compile on a given text comes back. *)
Lemma compile_pattern_cases cx re pattern input mode ok re' cx' :
  compile_pattern H cx re pattern input mode = Done (ok, re', cx') ->
  (ok = true /\ re' = set_literal re /\ cx' = cx) \/
  (ok = false /\
     exists n, (exists tbls, re' = set_tables (set_parenCount re n) tbls) \/ re' = re) \/
  (ok = true /\ exists n c tbls,
     compiled c = true /\
     re' = set_compilation (set_parenCount re n) mode (hasLatin1Chars input) c tbls).
Proof.
  unfold compile_pattern. case_if; [intros [= <- <- <-]; by left|].
  destruct (ParsePattern H _ _ _ _) as [[data|] w].
  2:{ intros [= <- <- <-]. right. left. split; [done|]. exists 0. by right. }
  destruct (CompilePattern H _ _ _ _ _ _ _ _) as [[code tbls] w'].
  destruct (code_empty code) eqn:Hempty.
  { intros [= <- <- <-]. right. left. split; [done|]. eexists. left. by eexists. }
  unfold MOZ_ASSERT. case_if; cbn [mbind outcome_bind]; [|done].
  intros [= <- <- <-]. right. right. split; [done|]. eexists _, _, _. split; [|done].
  unfold compiled, code_empty in *. cbn [jitCode byteCode].
  by destruct (code_jitCode code), (code_byteCode code).
Qed.

Lemma compile_cases cx re input mode ok re' cx' :
  compile H cx re input mode = Done (ok, re', cx') ->
  (ok = true /\ re' = set_literal re /\ cx' = cx) \/
  (ok = false /\
     exists n, (exists tbls, re' = set_tables (set_parenCount re n) tbls) \/ re' = re) \/
  (ok = true /\ exists n c tbls,
     compiled c = true /\
     re' = set_compilation (set_parenCount re n) mode (hasLatin1Chars input) c tbls).
Proof.
  intros Hc. destruct (sticky re) eqn:Hs.
  - apply (compile_sticky H _ _ _ _ _ Hs) in Hc as [Hr|Hc].
    + injection Hr as -> -> ->. right. left. split; [done|]. exists 0. by right.
    + by eapply compile_pattern_cases.
  - unfold compile in Hc. rewrite Hs in Hc. cbn [negb] in Hc.
    by eapply compile_pattern_cases.
Qed.

(** X9: compilation is memoised.  Once compile has succeeded for a mode and a
    character width, compileIfNecessary for that mode and width returns true
    at once: the instance and the context, the state of the parser and code
    generator included, stay as they are. *)
Theorem compile_memoized cx re input mode re' cx'
    (Hslots : slots_ok re)
    (Hc : compile H cx re input mode = Done (true, re', cx')) :
  forall cx2 input2,
    hasLatin1Chars input2 = hasLatin1Chars input ->
    compileIfNecessary H cx2 re' input2 mode = Done (true, re', cx2).
Proof.
  intros cx2 input2 Hwidth. unfold compileIfNecessary.
  apply compile_cases in Hc as [(_ & -> & _)|[[? _]|(_ & n & c & tbls & Hcomp & ->)]];
    [by rewrite orb_true_r|done|].
  unfold isCompiled, compilation. rewrite Hwidth.
  cbn [set_compilation compilationArray].
  rewrite list_lookup_insert_eq.
  - change (default _ (Some c)) with c. by rewrite Hcomp.
  - cbn [set_parenCount compilationArray]. unfold slots_ok in Hslots. rewrite Hslots.
    apply CompilationIndex_bound.
Qed.

Lemma compilation_set_other re mode latin1 c tbls mode2 latin2 :
  (mode2, latin2) <> (mode, latin1) ->
  compilation (set_compilation re mode latin1 c tbls) mode2 latin2
    = compilation re mode2 latin2.
Proof.
  intros Hne. unfold compilation. cbn [set_compilation compilationArray].
  rewrite list_lookup_insert_ne; [done|].
  intros Heq. apply CompilationIndex_inj in Heq as [-> ->]. done.
Qed.

(** X10: compile writes to one slot only: the compilations of every other
    mode and character width are what they were, whether it succeeds or
    fails. *)
Theorem compile_other_slots cx re input mode ok re' cx'
    (Hc : compile H cx re input mode = Done (ok, re', cx')) :
  forall mode2 latin2,
    (mode2, latin2) <> (mode, hasLatin1Chars input) ->
    compilation re' mode2 latin2 = compilation re mode2 latin2.
Proof.
  intros mode2 latin2 Hne.
  apply compile_cases in
    Hc as [(_ & -> & _)|[(_ & n & [[tbls ->]| ->])|(_ & n & c & tbls & _ & ->)]];
    try done.
  by rewrite compilation_set_other.
Qed.

(** X11: a compile that fails is not remembered.  It leaves every
    compilation slot, the literal flag, the source and the flags as they
    were, so that compileIfNecessary will attempt the compilation again; only
    the capture count may have been overwritten by the parser's, and the
    tables may have been changed by the code generator before it gave up. *)
Theorem compile_failure_not_memoized cx re input mode re' cx'
    (Hc : compile H cx re input mode = Done (false, re', cx')) :
  compilationArray re' = compilationArray re /\
  canStringMatch re' = canStringMatch re /\
  source re' = source re /\ flags re' = flags re /\ marked_ re' = marked_ re /\
  forall cx2 input2 mode2,
    compileIfNecessary H cx2 re' input2 mode2 =
      if isCompiled re mode2 (hasLatin1Chars input2) || canStringMatch re
      then Done (true, re', cx2) else compile H cx2 re' input2 mode2.
Proof.
  apply compile_cases in Hc as [[? _]|[(_ & n & [[tbls ->]| ->])|[? _]]]; try done.
Qed.

Lemma compile_slots_ok cx re input mode ok re' cx' :
  slots_ok re -> compile H cx re input mode = Done (ok, re', cx') -> slots_ok re'.
Proof.
  intros Hs Hc.
  apply compile_cases in
    Hc as [(_ & -> & _)|[(_ & n & [[tbls ->]| ->])|(_ & n & c & tbls & _ & ->)]];
    try done.
  unfold slots_ok in *. cbn [set_compilation set_parenCount compilationArray].
  by rewrite length_insert.
Qed.

(** X12: execute never changes what identifies an instance: the source and
    the flags of the instance it returns are those it was given, the
    instance still has its four slots, and the literal flag is still set only
    where it may be. *)
Theorem execute_keeps_key fuel cx re input start0 m st re' m' cx'
    (Hdone : execute H fuel cx re input start0 m = Done (st, re', m', cx')) :
  source re' = source re /\ flags re' = flags re /\
  (slots_ok re -> slots_ok re') /\ (literal_ok re -> literal_ok re').
Proof.
  split; [|split; [|split]]; [..|intros Hwf; by eapply execute_literal_ok].
  all: unfold execute in Hdone;
    destruct (execute_prepare H cx re input m) as [[[[ok re1] m1] cx1]| |] eqn:Hp;
    cbn [mbind outcome_bind] in Hdone; [|done..];
    assert (Hre : re' = re1) by
      (destruct ok; cbn [negb] in Hdone;
       [by eapply execute_dispatch_same_instance|by injection Hdone as _ <- _ _]);
    subst re'.
  - by apply execute_prepare_Done in Hp as (? & _).
  - by apply execute_prepare_Done in Hp as (_ & ? & _).
  - intros Hs. unfold execute_prepare in Hp. cbv zeta in Hp.
    destruct (compileIfNecessary H cx re input (mode_of m))
      as [[[ok0 re0] cx0]| |] eqn:Hc; cbn [mbind outcome_bind] in Hp; [|done..].
    assert (Hs0 : slots_ok re0).
    { unfold compileIfNecessary in Hc. revert Hc. case_if.
      - by intros [= _ <- _].
      - intros Hc. by eapply compile_slots_ok. }
    destruct ok0; cbn [negb] in Hp.
    + destruct m as [mp|]; [|by injection Hp as _ <- _ _].
      destruct (MatchPairs.allocOrExpandArray _ mp _) as [[[ok1 mp1] mem1]| |];
        cbn [mbind outcome_bind] in Hp; [|done..].
      by injection Hp as _ <- _ _.
    + by injection Hp as _ <- _ _.
Qed.

(** X13: for a pattern that is not sticky there is no displacement: after
    compiling and sizing the buffer, execute runs the compiled code on the
    whole input from the start offset given, and on a match returns the
    buffer as the engine left it, once the bounds check has passed. *)
Theorem execute_plain_passthrough fuel cx re input start0 matches re1 m1 cx1
    (Hs : sticky re = false)
    (Hprep : execute_prepare H cx re input matches = Done (true, re1, m1, cx1))
    (Hlit : canStringMatch re1 = false) :
  let len := str_length (chars input) in
  execute H fuel cx re input start0 matches =
    r ← run_compiled H fuel (mkSlice 0 len len 0 start0) cx1 re1 input m1;
    match r with
    | (RegExpRunStatus_Success, Some mp, cx2) =>
        _ ← MatchPairs.checkAgainst len mp;
        mret (RegExpRunStatus_Success, re1, Some mp, cx2)
    | (st, m, cx2) => mret (st, re1, m, cx2)
    end.
Proof.
  intros len. rewrite (execute_prepared H _ _ _ _ _ _ _ _ _ Hprep).
  apply execute_prepare_Done in Hprep as (_ & Hfl & _).
  assert (Hs1 : sticky re1 = false) by (unfold sticky in *; by rewrite Hfl).
  rewrite sticky_slice_plain by done. fold len.
  rewrite execute_dispatch_compiled by done.
  destruct (run_compiled _ _ _ _ _ _ _) as [[[st m] cx2]| |]; cbn [mbind outcome_bind];
    [|done..].
  unfold post_match. cbn [displacement origLength].
  by destruct st, m.
Qed.

Lemma compileIfNecessary_literal_after cx re input mode ok re' cx' :
  literal_ok re ->
  compileIfNecessary H cx re input mode = Done (ok, re', cx') ->
  canStringMatch re' = true ->
  ok = true /\ cx' = cx /\ (re' = re \/ re' = set_literal re) /\ literal_ok re'.
Proof.
  intros Hwf Hc Hlit. unfold compileIfNecessary in Hc. revert Hc.
  case_if as Hdone.
  - intros [= <- <- <-]. tauto.
  - intros Hc. apply orb_false_iff in Hdone as [_ Hno].
    pose proof (compile_literal_ok H _ _ _ _ _ _ _ Hwf Hc) as Hwf'.
    apply compile_cases in
      Hc as [(-> & -> & ->)|[(_ & n & [[tbls ->]| ->])|(_ & n & c & tbls & _ & ->)]];
      [tauto|..]; cbn in Hlit; congruence.
Qed.

(** X14: the literal path with captures.  When the instance is a literal one
    after the preparation and its buffer has been sized, execute has
    consulted neither parser nor engine: it reports Success_NotFound when the
    source does not occur at or after the start offset, and otherwise
    Success with the first pair set to the range of the occurrence found,
    [res, res + source length). *)
Theorem execute_literal_captures fuel cx re input start0 mp re1 mp1 cx1
    (Hwf : literal_ok re)
    (Hprep : execute_prepare H cx re input (Some mp) = Done (true, re1, Some mp1, cx1))
    (Hlit : canStringMatch re1 = true)
    (Hblock : MatchPairs.block mp1 <> [])
    (Hstart : 0 <= start0 <= str_length (chars input))
    (Hlen : str_length (chars input) < 2 ^ 31) :
  let res := StringFindPattern (chars input) (source re) start0 in
  (re1 = re \/ re1 = set_literal re) /\
  world cx1 = world cx /\ reports cx1 = reports cx /\
  execute H fuel cx re input start0 (Some mp) =
    if res =? -1 then Done (RegExpRunStatus_Success_NotFound, re1, Some mp1, cx1)
    else Done (RegExpRunStatus_Success, re1,
               Some (MatchPairs.set_block mp1
                       (<[0%nat := MatchPairs.mkPair res (res + str_length (source re))]>
                          (MatchPairs.block mp1))),
               cx1).
Proof.
  intros res.
  assert (H31 : 0 < 2 ^ 31) by reflexivity.
  assert (H64 : 2 ^ 31 < 2 ^ SIZE_BITS) by reflexivity.
  rewrite (execute_prepared H _ _ _ _ _ _ _ _ _ Hprep).
  pose proof (execute_prepare_Done H _ _ _ _ _ _ _ _ Hprep)
    as (Hsrc1 & _ & _ & mp1' & Heq & Hcount).
  injection Heq as <-. specialize (Hcount eq_refl).
  unfold execute_prepare in Hprep. cbv zeta in Hprep.
  destruct (compileIfNecessary H cx re input (mode_of (Some mp)))
    as [[[ok0 re0] cx0]| |] eqn:Hc; cbn [mbind outcome_bind] in Hprep; [|done..].
  destruct ok0; cbn [negb] in Hprep; [|done].
  destruct (MatchPairs.allocOrExpandArray _ mp _) as [[[ok1 mp0] mem1]| |];
    cbn [mbind outcome_bind] in Hprep; [|done..].
  injection Hprep as -> -> -> <-.
  destruct (compileIfNecessary_literal_after _ _ _ _ _ _ _ Hwf Hc Hlit)
    as (_ & -> & Hre & Hwf1).
  split; [done|]. split; [done|]. split; [done|].
  destruct (Hwf1 Hlit) as (Hs & _ & _ & Hp).
  rewrite sticky_slice_plain by done. unfold execute_dispatch. cbv zeta. rewrite Hlit.
  unfold pairCount in *. rewrite Hp in *. change (size_t_wrap (0 + 1)) with 1 in *.
  cbn [MOZ_ASSERT Z.eqb Pos.eqb mbind outcome_bind start charsOffset origLength].
  rewrite Z.add_0_r, size_t_wrap_small by lia. rewrite Hsrc1. fold res.
  pose proof (StringFindPattern_bound (chars input) (source re) start0 Hstart Hlen) as Hb.
  pose proof (str_length_nonneg (source re)) as Hsrc. fold res in Hb.
  destruct (Z.eqb_spec res (-1)) as [Hres|Hres]; [done|].
  destruct Hb as [?|[Hlo Hhi]]; [done|].
  rewrite (size_t_wrap_small res), size_t_wrap_small, int_wrap_small by lia.
  unfold MatchPairs.set_pair, MOZ_ASSERT, MatchPairs.store. rewrite Hcount.
  cbn [Z.of_nat Z.ltb Z.compare mbind outcome_bind].
  rewrite bool_decide_eq_true_2
    by (destruct (MatchPairs.block mp1); [done|cbn; lia]).
  change (Z.of_nat 0 <? 1) with true.
  cbn [mbind outcome_bind mret outcome_ret].
  unfold MatchPairs.checkAgainst, MOZ_ASSERT, MatchPairs.pairs, MatchPairs.set_block.
  cbn [MatchPairs.pairCount_ MatchPairs.block]. rewrite Hcount.
  assert (Hok : MatchPairs.pair_ok (str_length (chars input))
                  (MatchPairs.mkPair res (res + str_length (source re))) = true).
  { unfold MatchPairs.pair_ok. cbn [MatchPairs.start MatchPairs.limit].
    rewrite andb_true_iff, !offset_ok_spec. lia. }
  destruct (MatchPairs.block mp1) as [|p0 rest] eqn:Hbl; [done|].
  change (Z.to_nat 1) with 1%nat.
  cbn [insert list_insert take forallb]. rewrite take_0. cbn [forallb].
  rewrite Hok. reflexivity.
Qed.

End CompileMoreFacts.

(** ** The same, on the toy host *)

Section CompileMoreToy.
Import Flags RegExpShared Slots.

Lemma compile_memoized_witness :
  exists re' cx',
    compile Toy.host (Toy.context (Toy.quiet true)) Toy.sticky_a Toy.xxa Normal
      = Done (true, re', cx') /\
    compileIfNecessary Toy.host cx' re' Toy.xxa Normal = Done (true, re', cx').
Proof.
  eexists _, _. split; [reflexivity|].
  eapply (compile_memoized Toy.host (Toy.context (Toy.quiet true)) Toy.sticky_a
            Toy.xxa Normal);
    [apply slots_ok_new|reflexivity|reflexivity].
Defined.

Lemma compile_other_slots_witness :
  exists re' cx',
    compile Toy.host (Toy.context (Toy.quiet true)) Toy.sticky_a Toy.xxa Normal
      = Done (true, re', cx') /\
    compilation re' MatchOnly true = compilation Toy.sticky_a MatchOnly true.
Proof.
  eexists _, _. split; [reflexivity|].
  eapply (compile_other_slots Toy.host (Toy.context (Toy.quiet true)) Toy.sticky_a
            Toy.xxa Normal); [reflexivity|discriminate].
Defined.

Lemma compile_failure_not_memoized_witness :
  let cx := Toy.context (Toy.quiet true) in
  let re := new (lit "a*") 0 in
  exists cx',
    compile Toy.host cx re Toy.xxa Normal = Done (false, re, cx') /\
    compileIfNecessary Toy.host cx' re Toy.xxa Normal
      = compile Toy.host cx' re Toy.xxa Normal.
Proof.
  intros cx re. eexists. split; [reflexivity|].
  destruct (compile_failure_not_memoized Toy.host cx re Toy.xxa Normal _ _ eq_refl)
    as (_ & _ & _ & _ & _ & Hagain).
  apply Hagain.
Defined.

Lemma execute_keeps_key_witness :
  exists st re' m' cx',
    execute Toy.host 2 (Toy.context (Toy.quiet true)) Toy.sticky_a Toy.xxa 2
      Toy.fresh_pairs = Done (st, re', m', cx') /\
    source re' = source Toy.sticky_a /\ flags re' = flags Toy.sticky_a.
Proof.
  eexists _, _, _, _. split; [reflexivity|].
  destruct (execute_keeps_key Toy.host 2 (Toy.context (Toy.quiet true)) Toy.sticky_a
              Toy.xxa 2 Toy.fresh_pairs _ _ _ _ eq_refl) as (Hsrc & Hfl & _).
  by split.
Defined.

Lemma execute_plain_passthrough_witness :
  let cx := Toy.context (Toy.quiet true) in
  let re := new (lit "^(?:x)") 0 in
  exists re1 m1 cx1,
    sticky re = false /\
    execute_prepare Toy.host cx re Toy.xxa Toy.fresh_pairs = Done (true, re1, m1, cx1) /\
    canStringMatch re1 = false /\
    execute Toy.host 2 cx re Toy.xxa 0 Toy.fresh_pairs =
      r ← run_compiled Toy.host 2 (mkSlice 0 3 3 0 0) cx1 re1 Toy.xxa m1;
      match r with
      | (RegExpRunStatus_Success, Some mp, cx2) =>
          _ ← MatchPairs.checkAgainst 3 mp;
          mret (RegExpRunStatus_Success, re1, Some mp, cx2)
      | (st, m, cx2) => mret (st, re1, m, cx2)
      end.
Proof.
  intros cx re. eexists _, _, _.
  split; [reflexivity|]. split; [reflexivity|]. split; [reflexivity|].
  eapply (execute_plain_passthrough Toy.host 2 cx re Toy.xxa 0 Toy.fresh_pairs);
    reflexivity.
Defined.

Lemma execute_literal_captures_witness :
  let cx := Toy.context (Toy.quiet true) in
  let re := new (lit "abc") 0 in
  let input := mkString true (lit "xxabcxx") in
  exists re1 mp1 cx1,
    execute_prepare Toy.host cx re input Toy.fresh_pairs
      = Done (true, re1, Some mp1, cx1) /\
    canStringMatch re1 = true /\
    execute Toy.host 0 cx re input 0 Toy.fresh_pairs =
      Done (RegExpRunStatus_Success, re1,
            Some (MatchPairs.set_block mp1
                    (<[0%nat := MatchPairs.mkPair 2 5]> (MatchPairs.block mp1))),
            cx1).
Proof.
  intros cx re input. eexists _, _, _.
  split; [reflexivity|]. split; [reflexivity|].
  eapply (execute_literal_captures Toy.host 0 cx re input 0
            (MatchPairs.new MatchPairs.ScopedMatchPairs));
    [apply literal_ok_new|reflexivity|reflexivity|discriminate|done|reflexivity].
Defined.

End CompileMoreToy.

(** ** More on the table of instances *)

Section CompartmentMoreFacts.
Import Flags RegExpCompartment RegExpCompartmentOps.

Implicit Types (c : t) (heap : gmap positive RegExpShared.t).

(** sweep, entry by entry, for a table that agrees with its heap. *)
Lemma sweep_spec gc c heap :
  consistent c heap ->
  let r := sweep gc c heap in
  (forall key p shared, set_ c !! key = Some p -> heap !! p = Some shared ->
     if spec_retained gc shared
     then set_ r.1 !! key = Some p /\
          r.2 !! p = Some (RegExpShared.set_marked shared false)
     else set_ r.1 !! key = None /\ r.2 !! p = None) /\
  (forall key, set_ c !! key = None -> set_ r.1 !! key = None) /\
  (forall p, (forall key, set_ c !! key <> Some p) -> r.2 !! p = heap !! p).
Proof.
  intros [Hlive Hinj].
  assert (Hk : NoDup (map_to_list (set_ c)).*1) by apply NoDup_fst_map_to_list.
  assert (Hp : NoDup (map_to_list (set_ c)).*2).
  { apply NoDup_fmap_2_strong; [|apply NoDup_map_to_list].
    intros [k1 p1] [k2 p2] H1 H2 Heq. cbn in Heq. subst p2.
    apply elem_of_map_to_list in H1, H2. by rewrite (Hinj k1 k2 p1). }
  pose proof (sweep_loop_spec gc (map_to_list (set_ c)) (set_ c) heap Hk Hp) as Hloop.
  cbv zeta in Hloop. unfold sweep. cbv zeta.
  destruct (foldl (sweep_entry gc) (set_ c, heap) (map_to_list (set_ c)))
    as [set' heap'] eqn:Hfold.
  cbn [fst snd set_ matchResultTemplateObject_] in *.
  destruct Hloop as (Hin & Hkeys & Hptrs).
  split; [|split].
  - intros key p shared Hkp Hsh.
    assert (Hel : (key, p) ∈ map_to_list (set_ c)) by by apply elem_of_map_to_list.
    specialize (Hin key p shared Hel Hsh).
    destruct (spec_retained gc shared); [|done]. by rewrite <- Hkp.
  - intros key Hnone. rewrite Hkeys; [done|].
    intros Hel. apply list_elem_of_fmap in Hel as ([k p] & -> & Hel).
    apply elem_of_map_to_list in Hel. cbn in Hnone. congruence.
  - intros p Hnot. apply Hptrs.
    intros Hel. apply list_elem_of_fmap in Hel as ([k q] & -> & Hel).
    apply elem_of_map_to_list in Hel. by apply (Hnot k).
Qed.

(** What sweep leaves in the table was there, was retained, and has its mark
    cleared. *)
Lemma sweep_kept gc c heap key p :
  consistent c heap ->
  set_ (sweep gc c heap).1 !! key = Some p ->
  set_ c !! key = Some p /\
  exists shared, heap !! p = Some shared /\ spec_retained gc shared = true /\
    (sweep gc c heap).2 !! p = Some (RegExpShared.set_marked shared false).
Proof.
  intros Hcons Hkp. pose proof (sweep_spec gc c heap Hcons) as (Hin & Habs & _).
  cbv zeta in *. destruct Hcons as [Hlive _].
  destruct (set_ c !! key) as [q|] eqn:Hq.
  - destruct (Hlive key q Hq) as (shared & Hsh & _).
    specialize (Hin key q shared Hq Hsh).
    destruct (spec_retained gc shared) eqn:Hr.
    + destruct Hin as [Hin1 Hin2]. assert (q = p) as -> by congruence.
      split; [done|]. by exists shared.
    + destruct Hin as [Hin _]. congruence.
  - rewrite (Habs key Hq) in Hkp. discriminate.
Qed.

Lemma sweep_consistent gc c heap :
  consistent c heap -> consistent (sweep gc c heap).1 (sweep gc c heap).2.
Proof.
  intros Hcons. split.
  - intros key p Hkp.
    destruct (sweep_kept gc c heap key p Hcons Hkp) as (Hq & shared & Hsh & _ & Hr).
    exists (RegExpShared.set_marked shared false). split; [done|].
    destruct Hcons as [Hlive _]. destruct (Hlive key p Hq) as (sh & Hsh' & ->).
    by replace sh with shared by congruence.
  - intros k1 k2 p H1 H2. destruct Hcons as [Hlive Hinj]. apply (Hinj k1 k2 p).
    + by destruct (sweep_kept gc c heap k1 p (conj Hlive Hinj) H1).
    + by destruct (sweep_kept gc c heap k2 p (conj Hlive Hinj) H2).
Qed.

(** X15: the mark is good for one sweep.  Of two sweeps in a row with no
    marking in between, the second, unless the heap is being compacted,
    empties the table and deletes every instance the first one kept. *)
Theorem sweep_twice_empties gc1 gc2 c heap
    (Hcons : consistent c heap)
    (Hnc : isHeapCompacting gc2 = false) :
  let r1 := sweep gc1 c heap in
  let r2 := sweep gc2 r1.1 r1.2 in
  set_ r2.1 = ∅ /\
  forall key p, set_ r1.1 !! key = Some p -> r2.2 !! p = None.
Proof.
  intros r1 r2.
  pose proof (sweep_consistent gc1 c heap Hcons) as Hcons1. fold r1 in Hcons1.
  pose proof (sweep_spec gc2 r1.1 r1.2 Hcons1) as (Hin & Habs & _).
  cbv zeta in Hin, Habs. fold r2 in Hin, Habs.
  assert (Hgone : forall key p, set_ r1.1 !! key = Some p ->
            set_ r2.1 !! key = None /\ r2.2 !! p = None).
  { intros key p Hkp.
    destruct (sweep_kept gc1 c heap key p Hcons Hkp) as (_ & shared & _ & _ & Hr).
    fold r1 in Hr. specialize (Hin key p _ Hkp Hr).
    unfold spec_retained in Hin. by rewrite Hnc in Hin. }
  split.
  - apply map_eq. intros key. rewrite lookup_empty.
    destruct (set_ r1.1 !! key) as [p|] eqn:Hkp.
    + by destruct (Hgone key p Hkp).
    + by apply Habs.
  - intros key p Hkp. by destruct (Hgone key p Hkp).
Qed.

Lemma sweep_twice_empties_witness :
  let gc := mkGC false (fun _ => false) (fun _ => false) (fun _ => false) in
  let st := gets [(mkEnv true true true, lit "a*", GlobalFlag);
                  (mkEnv true true true, lit "b+", 0)] empty ∅ in
  set_ (sweep gc st.1 st.2).1 !! (lit "a*", GlobalFlag) = Some 1%positive /\
  set_ (sweep gc (sweep gc st.1 st.2).1 (sweep gc st.1 st.2).2).1 = ∅.
Proof.
  intros gc st. split; [by vm_compute|].
  apply (sweep_twice_empties gc gc st.1 st.2);
    [apply (gets_consistent _ empty ∅ consistent_empty)|reflexivity].
Defined.

(** X16: the read barrier.  An instance handed out by get while the zone
    needs an incremental barrier is marked, so the next sweep keeps its entry,
    provided its source string and its jit code are not about to be
    finalized; the sweep clears the mark again. *)
Theorem get_barrier_survives_sweep gc env c heap source flags g p c1 heap1 r1 shared
    (Hcons : consistent c heap)
    (Hget : get env c heap source flags g = (true, Some p, c1, heap1, r1))
    (Hbarrier : needsIncrementalBarrier env = true)
    (Hsh : heap1 !! p = Some shared)
    (Hstr : IsStringAboutToBeFinalized gc source = false)
    (Hcode : forallb (code_alive gc) (RegExpShared.compilationArray shared) = true) :
  RegExpShared.marked_ shared = true /\
  set_ (sweep gc c1 heap1).1 !! (source, flags) = Some p /\
  (sweep gc c1 heap1).2 !! p = Some (RegExpShared.set_marked shared false).
Proof.
  pose proof (get_consistent env c heap source flags g Hcons) as Hcons1.
  cbv zeta in Hcons1. rewrite Hget in Hcons1. cbn [fst snd] in Hcons1.
  destruct (get_success _ _ _ _ _ _ _ _ _ _ Hget) as [Hkp Hcase].
  assert (Hm : RegExpShared.marked_ shared = true).
  { destruct Hcase as [[Hold ->]|(_ & _ & _ & _ & Hnew)].
    - unfold get in Hget. cbv zeta in Hget. rewrite Hold in Hget.
      injection Hget as <- _. destruct Hcons as [Hlive _].
      destruct (Hlive _ _ Hold) as (sh & Hs & _).
      unfold MaybeTraceRegExpShared in Hsh. rewrite Hbarrier in Hsh.
      rewrite lookup_alter_eq, Hs in Hsh. by injection Hsh as <-.
    - rewrite Hbarrier, Hsh in Hnew. by injection Hnew as ->. }
  split; [done|].
  pose proof (sweep_spec gc c1 heap1 Hcons1) as (Hin & _). cbv zeta in Hin.
  specialize (Hin _ _ _ Hkp Hsh).
  destruct Hcons1 as [Hlive _]. destruct (Hlive _ _ Hkp) as (sh & Hs & Hkey).
  assert (sh = shared) as -> by congruence. injection Hkey as Hsrc _.
  unfold spec_retained in Hin. by rewrite Hm, <- Hsrc, Hstr, Hcode in Hin.
Qed.

Lemma get_barrier_survives_sweep_witness :
  let gc := mkGC false (fun _ => false) (fun _ => false) (fun _ => false) in
  let r := get (mkEnv true true true) empty ∅ (lit "a*") GlobalFlag None in
  set_ (sweep gc r.1.1.2 r.1.2).1 !! (lit "a*", GlobalFlag) = Some 1%positive.
Proof.
  intros gc r.
  eapply (get_barrier_survives_sweep gc (mkEnv true true true) empty ∅ (lit "a*")
            GlobalFlag None 1%positive);
    [apply consistent_empty|reflexivity|reflexivity|by vm_compute|reflexivity
    |reflexivity].
Defined.

(** X17: what sweep deletes is gone for good.  After a sweep that did not
    retain the instance of a key, a successful get of that key constructs a
    new instance: nothing is compiled in it and the literal flag is not
    set, whatever the deleted instance held. *)
Theorem get_after_sweep_is_new gc env c heap source flags g p shared
    (Hcons : consistent c heap)
    (Hkp : set_ c !! (source, flags) = Some p)
    (Hsh : heap !! p = Some shared)
    (Hgone : spec_retained gc shared = false)
    (Hnew : new_succeeds env = true) (Hadd : add_succeeds env = true) :
  let r := sweep gc c heap in
  exists q c1 heap1,
    get env r.1 r.2 source flags g = (true, Some q, c1, heap1, []) /\
    r.2 !! q = None /\
    heap1 !! q = Some (RegExpShared.trace (needsIncrementalBarrier env)
                         (RegExpShared.new source flags)).
Proof.
  intros r. pose proof (sweep_spec gc c heap Hcons) as (Hin & _). cbv zeta in Hin.
  specialize (Hin _ _ _ Hkp Hsh). rewrite Hgone in Hin. destruct Hin as [Hnone _].
  fold r in Hnone. unfold get. cbv zeta. rewrite Hnone, Hnew, Hadd. cbn [negb].
  eexists _, _, _. split; [reflexivity|].
  assert (Hfresh : r.2 !! fresh (dom r.2) = None) by apply not_elem_of_dom, is_fresh.
  split; [done|].
  unfold MaybeTraceRegExpShared, RegExpShared.trace.
  destruct (needsIncrementalBarrier env).
  - by rewrite lookup_alter_eq, lookup_insert_eq.
  - by rewrite lookup_insert_eq.
Qed.

Lemma get_after_sweep_is_new_witness :
  let gc := mkGC false (fun _ => false) (fun _ => false) (fun _ => false) in
  let env := mkEnv false true true in
  let st := gets [(env, lit "a*", GlobalFlag)] empty ∅ in
  let r := sweep gc st.1 st.2 in
  exists q c1 heap1,
    get env r.1 r.2 (lit "a*") GlobalFlag None = (true, Some q, c1, heap1, []) /\
    r.2 !! q = None /\
    heap1 !! q = Some (RegExpShared.new (lit "a*") GlobalFlag).
Proof.
  intros gc env st r.
  apply (get_after_sweep_is_new gc env st.1 st.2 (lit "a*") GlobalFlag None 1%positive
           (RegExpShared.new (lit "a*") GlobalFlag));
    [apply (gets_consistent _ empty ∅ consistent_empty)|by vm_compute..].
Defined.

(** X18: the overload of get that takes a flag string finds the instance
    whatever the order of the letters: once it has returned the instance at
    [p] for a flag string, it returns the instance at [p], entering nothing
    and reporting nothing, for every permutation of that string. *)
Theorem get_opt_order_irrelevant env1 env2 c heap atom (l1 l2 : JSLinearString)
    a1 a2 g1 g2 p c1 heap1 r1
    (Hperm : chars l1 ≡ₚ chars l2)
    (Hget : get_opt env1 c heap atom (Some (Some l1)) a1 g1
              = (true, Some p, c1, heap1, r1)) :
  get_opt env2 c1 heap1 atom (Some (Some l2)) a2 g2
    = (true, Some p, c1, MaybeTraceRegExpShared env2 p heap1, []).
Proof.
  unfold get_opt, js_ParseRegExpFlags in *. cbv zeta in *.
  destruct (ParseRegExpFlags_true (chars l1) a1) as [Hok1 Hb1].
  destruct (ParseRegExpFlags_true (chars l2) a2) as [Hok2 Hb2].
  destruct (ParseRegExpFlags (chars l1) a1) as [[ok1 fl1] lp1].
  destruct (ParseRegExpFlags (chars l2) a2) as [[ok2 fl2] lp2].
  cbn [fst snd] in *.
  destruct ok1; cbn [negb] in Hget; [|discriminate].
  assert (ok2 = true) as ->.
  { apply Hok2. rewrite <- Hperm. by apply Hok1. }
  cbn [negb].
  assert (fl2 = fl1) as ->.
  { apply (bits_of_letters_unique (chars l2) (chars l1)); [by apply Hb2|by apply Hb1|].
    intros ch. by rewrite Hperm. }
  apply get_hit. by destruct (get_success _ _ _ _ _ _ _ _ _ _ Hget).
Qed.

Lemma get_opt_order_irrelevant_witness :
  let env := mkEnv false true true in
  exists p c1 heap1,
    get_opt env empty ∅ (lit "a*") (Some (Some (mkString true (lit "gi")))) 0 None
      = (true, Some p, c1, heap1, []) /\
    get_opt env c1 heap1 (lit "a*") (Some (Some (mkString false (lit "ig")))) 0 None
      = (true, Some p, c1, heap1, []).
Proof.
  intros env. eexists _, _, _. split; [reflexivity|].
  eapply (get_opt_order_irrelevant env env empty ∅ (lit "a*")
            (mkString true (lit "gi")) (mkString false (lit "ig")) 0 0 None None);
    [apply (bool_decide_unpack _); by vm_compute|reflexivity].
Defined.

(** X19: get leaks nothing.  If every instance of the heap is entered in the
    table before a call of get, so it is after it, also when the allocation
    of the instance or of its entry fails. *)
Theorem get_no_leak env c heap source flags g
    (Hleak : no_leak c heap) :
  let r := get env c heap source flags g in
  no_leak r.1.1.2 r.1.2.
Proof.
  assert (Htrace : forall c0 heap0 q,
            no_leak c0 heap0 -> no_leak c0 (MaybeTraceRegExpShared env q heap0)).
  { intros c0 heap0 q Hl p0 Hsome. apply Hl.
    unfold MaybeTraceRegExpShared in Hsome.
    destruct (needsIncrementalBarrier env); [|done].
    destruct (decide (q = p0)) as [->|Hne].
    - rewrite lookup_alter_eq in Hsome. by apply fmap_is_Some in Hsome.
    - by rewrite lookup_alter_ne in Hsome. }
  unfold get. cbv zeta.
  destruct (set_ c !! (source, flags)) as [q|] eqn:Hq.
  { cbn [fst snd]. by apply Htrace. }
  destruct (new_succeeds env); [|done].
  destruct (add_succeeds env); [|done].
  cbn [negb fst snd]. apply Htrace.
  intros p0. cbn [set_]. destruct (decide (p0 = fresh (dom heap))) as [->|Hne].
  - intros _. exists (source, flags). by rewrite lookup_insert_eq.
  - rewrite lookup_insert_ne by done. intros Hsome.
    destruct (Hleak p0 Hsome) as [key Hkey]. exists key.
    rewrite lookup_insert_ne; [done|]. congruence.
Qed.

Lemma get_no_leak_witness :
  let r := get (mkEnv true true false) empty ∅ (lit "a*") GlobalFlag None in
  r.1.1.1.1 = false /\ no_leak r.1.1.2 r.1.2.
Proof.
  intros r. split; [reflexivity|].
  apply (get_no_leak (mkEnv true true false) empty ∅ (lit "a*") GlobalFlag None).
  intros p0 Hsome. rewrite lookup_empty in Hsome. by destruct Hsome.
Defined.

(** X20: sweep leaks nothing.  On a table that agrees with its heap and
    enters every instance of it, sweep deletes each instance whose entry it
    removes: afterwards every instance of the heap is still entered. *)
Theorem sweep_no_leak gc c heap
    (Hcons : consistent c heap) (Hleak : no_leak c heap) :
  no_leak (sweep gc c heap).1 (sweep gc c heap).2.
Proof.
  pose proof (sweep_spec gc c heap Hcons) as (Hin & _ & Hother). cbv zeta in *.
  intros p0 Hsome. destruct (heap !! p0) as [shared|] eqn:Hsh.
  - destruct (Hleak p0) as [key Hkey]; [by rewrite Hsh|].
    specialize (Hin key p0 shared Hkey Hsh).
    destruct (spec_retained gc shared).
    + exists key. by destruct Hin.
    + destruct Hin as [_ Hnone]. rewrite Hnone in Hsome. by destruct Hsome.
  - rewrite Hother, Hsh in Hsome; [by destruct Hsome|].
    intros key Hkey. destruct Hcons as [Hlive _].
    destruct (Hlive key p0 Hkey) as (? & ? & _). congruence.
Qed.

Lemma sweep_no_leak_witness :
  let gc := mkGC false (fun _ => false) (fun _ => false) (fun _ => false) in
  let st := gets [(mkEnv true true true, lit "a*", GlobalFlag);
                  (mkEnv false true true, lit "b+", 0)] empty ∅ in
  no_leak (sweep gc st.1 st.2).1 (sweep gc st.1 st.2).2.
Proof.
  intros gc st. apply (sweep_no_leak gc st.1 st.2).
  - apply (gets_consistent _ empty ∅ consistent_empty).
  - intros p0 [x Hx]. apply elem_of_map_to_list in Hx.
    assert (Hp : p0 = 1%positive \/ p0 = 2%positive).
    { remember (map_to_list st.2) as l eqn:Hl. vm_compute in Hl. subst l.
      apply elem_of_cons in Hx as [[= -> _]|Hx]; [tauto|].
      apply elem_of_cons in Hx as [[= -> _]|Hx]; [tauto|].
      by apply elem_of_nil in Hx. }
    destruct Hp as [-> | ->]; [exists (lit "a*", GlobalFlag)|exists (lit "b+", 0)];
      by vm_compute.
Defined.

Lemma destroy_loop_lookup (l : list (Key * positive)) : forall heap p,
  foldl (fun heap (e : Key * positive) => delete e.2 heap) heap l !! p
    = if bool_decide (p ∈ l.*2) then None else heap !! p.
Proof.
  induction l as [|[k q] l IH]; intros heap p; cbn [foldl fmap list_fmap snd].
  - rewrite bool_decide_eq_false_2; [done|]. apply not_elem_of_nil.
  - rewrite IH. destruct (decide (p ∈ l.*2)) as [Hin|Hnin].
    + rewrite !bool_decide_eq_true_2; [done|by apply elem_of_cons; right|done].
    + rewrite (bool_decide_eq_false_2 (p ∈ l.*2)) by done.
      destruct (decide (p = q)) as [->|Hne].
      * rewrite bool_decide_eq_true_2 by (apply elem_of_cons; by left).
        by rewrite lookup_delete_eq.
      * rewrite bool_decide_eq_false_2, lookup_delete_ne; [done|done|].
        intros [?|?]%elem_of_cons; done.
Qed.

(** X21: the destructor deletes exactly the instances that are entered: it
    leaves every other address of the heap alone, and when every instance of
    the heap is entered, as get and sweep maintain it, nothing is left. *)
Theorem destroy_deletes_entered c heap :
  (forall key p, set_ c !! key = Some p -> destroy c heap !! p = None) /\
  (forall p, (forall key, set_ c !! key <> Some p) -> destroy c heap !! p = heap !! p) /\
  (no_leak c heap -> destroy c heap = ∅).
Proof.
  assert (Hmem : forall p, p ∈ (map_to_list (set_ c)).*2 <->
                           exists key, set_ c !! key = Some p).
  { intros p. rewrite list_elem_of_fmap. split.
    - intros ([k q] & -> & Hel). exists k. by apply elem_of_map_to_list.
    - intros [k Hk]. exists (k, p). split; [done|]. by apply elem_of_map_to_list. }
  split; [|split].
  - intros key p Hkp. unfold destroy. rewrite destroy_loop_lookup.
    rewrite bool_decide_eq_true_2; [done|]. apply Hmem. by exists key.
  - intros p Hnot. unfold destroy. rewrite destroy_loop_lookup.
    rewrite bool_decide_eq_false_2; [done|].
    intros [key Hkey]%Hmem. by apply (Hnot key).
  - intros Hleak. apply map_eq. intros p. rewrite lookup_empty.
    unfold destroy. rewrite destroy_loop_lookup.
    destruct (decide (p ∈ (map_to_list (set_ c)).*2)) as [Hin|Hnin].
    + by rewrite bool_decide_eq_true_2.
    + rewrite bool_decide_eq_false_2 by done.
      destruct (heap !! p) eqn:Hp; [|done]. exfalso. apply Hnin, Hmem, Hleak.
      by rewrite Hp.
Qed.

Lemma destroy_deletes_entered_witness :
  let st := gets [(mkEnv true true true, lit "a*", GlobalFlag);
                  (mkEnv false true true, lit "b+", 0)] empty ∅ in
  destroy st.1 st.2 = ∅.
Proof.
  intros st. apply (destroy_deletes_entered st.1 st.2).
  intros p0 [x Hx]. apply elem_of_map_to_list in Hx.
  assert (Hp : p0 = 1%positive \/ p0 = 2%positive).
  { remember (map_to_list st.2) as l eqn:Hl. vm_compute in Hl. subst l.
    apply elem_of_cons in Hx as [[= -> _]|Hx]; [tauto|].
    apply elem_of_cons in Hx as [[= -> _]|Hx]; [tauto|].
    by apply elem_of_nil in Hx. }
  destruct Hp as [-> | ->]; [exists (lit "a*", GlobalFlag)|exists (lit "b+", 0)];
    by vm_compute.
Defined.

End CompartmentMoreFacts.

(** ** Vector-based buffers *)

Section VectorMatchPairsFacts.
Import MatchPairs.

Lemma pairs_initialised n (b : list MatchPair) mp :
  0 <= n -> pairCount_ mp = n ->
  block mp = replicate (Z.to_nat n) invalid_pair ++ b ->
  pairs mp = replicate (Z.to_nat n) invalid_pair.
Proof.
  intros Hn Hc Hb. unfold pairs. rewrite Hc, Hb.
  rewrite take_app_le by (rewrite length_replicate; lia).
  by rewrite take_ge by (rewrite length_replicate; lia).
Qed.

(** X22: a vector-based buffer, unlike a scoped one, may be sized again.
    Whatever count it held, initArray(n) asserts nothing: it returns false
    with buffer and allocator untouched when the vector cannot grow, and
    otherwise true with the count n, the first n pairs at (-1, -1), and a
    vector resized to sizeof(MatchPair) * n elements, eight times the n pairs
    in use. *)
Theorem initArray_vector_resizes n mp mem
    (Hn : 0 < n)
    (Hsize : sizeof_MatchPair * (sizeof_MatchPair * n) < 2 ^ SIZE_BITS)
    (Hclass : class_ mp = VectorMatchPairs) :
  exists ok mp1 mem1,
    initArray n mp mem = Done (ok, mp1, mem1) /\
    (ok = false -> mp1 = mp /\ mem1 = mem) /\
    (ok = true ->
       pairCount_ mp1 = n /\ class_ mp1 = VectorMatchPairs /\
       array_length (block mp1) = sizeof_MatchPair * n /\
       pairs mp1 = replicate (Z.to_nat n) invalid_pair).
Proof.
  unfold sizeof_MatchPair in Hsize.
  unfold initArray, MOZ_ASSERT. destruct (Z.ltb_spec 0 n) as [_|]; [|lia].
  cbn [mbind outcome_bind]. unfold allocOrExpandArray. rewrite Hclass.
  unfold Vector_allocOrExpandArray. cbv zeta. unfold sizeof_MatchPair.
  rewrite (size_t_wrap_small (8 * n)) by lia.
  rewrite (size_t_wrap_small (8 * (8 * n))) by lia.
  unfold array_length.
  destruct (Z.leb_spec (8 * n) (Z.of_nat (List.length (block mp)))) as [Hfit|Hgrow].
  - destruct (Z.ltb_spec 0 (8 * n)) as [_|]; [|lia]. unfold MOZ_ASSERT.
    cbn [mbind outcome_bind mret outcome_ret negb block].
    rewrite initArray_loop_ok by (rewrite length_take; lia).
    cbn [mbind outcome_bind mret outcome_ret]. eexists _, _, _. split; [reflexivity|].
    split; [done|]. intros _. rewrite take_0. cbn [app Nat.add].
    unfold set_block. cbn [pairCount_ class_ block].
    split; [done|]. split; [done|]. split.
    + rewrite length_app, length_replicate, length_drop, length_take. lia.
    + by eapply pairs_initialised; [lia|reflexivity|reflexivity].
  - unfold alloc. destruct (Z.leb_spec (8 * (8 * n)) (available mem)) as [Hav|Hno].
    + cbn [mbind outcome_bind mret outcome_ret negb block].
      assert (Hlen : List.length (block mp
                       ++ drop (List.length (block mp))
                            (fresh_block mem (next_free mem) (8 * (8 * n))))
                     = Z.to_nat (8 * n)).
      { rewrite length_app, length_drop, fresh_block_length. unfold sizeof_MatchPair.
        replace (8 * (8 * n) / 8) with (8 * n)
          by (symmetry; rewrite Z.mul_comm; apply Z.div_mul; lia).
        lia. }
      rewrite initArray_loop_ok by (rewrite Hlen; lia).
      cbn [mbind outcome_bind mret outcome_ret]. eexists _, _, _. split; [reflexivity|].
      split; [done|]. intros _. rewrite take_0. cbn [app Nat.add].
      unfold set_block. cbn [pairCount_ class_ block].
      split; [done|]. split; [done|]. split.
      * rewrite length_app, length_replicate, length_drop, Hlen. lia.
      * by eapply pairs_initialised; [lia|reflexivity|reflexivity].
    + cbn [mbind outcome_bind mret outcome_ret negb].
      eexists _, _, _. split; [reflexivity|]. split; [done|discriminate].
Qed.

Lemma initArray_vector_resizes_witness :
  let mem := mkMemory 4096 1024 (fun _ => mkPair 7 9) in
  exists mp1 mem1 mp2 mem2,
    initArray 1 (new VectorMatchPairs) mem = Done (true, mp1, mem1) /\
    initArray 2 mp1 mem1 = Done (true, mp2, mem2) /\
    pairs mp2 = [invalid_pair; invalid_pair] /\ array_length (block mp2) = 16.
Proof.
  intros mem. eexists _, _, _, _. split; [reflexivity|]. split; [reflexivity|].
  destruct (initArray_vector_resizes 2
              (mk VectorMatchPairs 1 (Some 4096)
                 (invalid_pair :: replicate 7 (mkPair 7 9)))
              (mkMemory 4160 960 (fun _ => mkPair 7 9)))
    as (ok & mp2 & mem2 & Hinit & _ & Hok); [lia|reflexivity|reflexivity|].
  vm_compute in Hinit. injection Hinit as <- <- <-.
  destruct (Hok eq_refl) as (_ & _ & Hlen & Hpairs). by split.
Defined.

End VectorMatchPairsFacts.

(** ** More on the rendering *)

Section ToStringMoreFacts.
Import Flags RegExpObject.

Lemma split_at_last {A} (x : A) (s1 s2 l1 l2 : list A) :
  x ∉ l1 -> x ∉ l2 -> s1 ++ x :: l1 = s2 ++ x :: l2 -> s1 = s2 /\ l1 = l2.
Proof.
  intros H1 H2. revert s2. induction s1 as [|a s1 IH]; intros [|b s2] Heq.
  - by injection Heq as ->.
  - injection Heq as _ Hl. exfalso. apply H1. rewrite Hl.
    rewrite elem_of_app, elem_of_cons. tauto.
  - injection Heq as _ Hl. exfalso. apply H2. rewrite <- Hl.
    rewrite elem_of_app, elem_of_cons. tauto.
  - injection Heq as -> Heq. destruct (IH s2 Heq) as [Hs Hl]. by rewrite Hs, Hl.
Qed.

Lemma slash_not_flag_letter flags : chr "/" ∉ spec_flag_letters flags.
Proof.
  intros Hin. apply spec_flag_letters_elem in Hin as (f & Hf & _).
  by vm_compute in Hf.
Qed.

Lemma spec_flag_letters_inj f1 f2 :
  0 <= f1 <= AllFlags -> 0 <= f2 <= AllFlags ->
  spec_flag_letters f1 = spec_flag_letters f2 -> f1 = f2.
Proof.
  intros H1 H2 Heq. apply small_flags_ext; [done..|].
  intros c f Hf. apply eq_true_iff_eq.
  assert (Hmem : forall fl, has_flag fl f = true <-> c ∈ spec_flag_letters fl).
  { intros fl. rewrite spec_flag_letters_elem. split.
    - intros Hh. by exists f.
    - intros (f' & Hf' & Hh). congruence. }
  by rewrite !Hmem, Heq.
Qed.

(** X23: the rendering tells regular expressions apart.  Two objects with
    sources that are not empty and flags within the four bits that toString
    renders to the same string have the same source and the same flags. *)
Theorem toString_injective limit self1 self2 src1 src2 f1 f2 out
    (Hne1 : src1 <> []) (Hne2 : src2 <> [])
    (Hf1 : 0 <= f1 <= AllFlags) (Hf2 : 0 <= f2 <= AllFlags)
    (Hl1 : str_length src1 + 2 < 2 ^ SIZE_BITS)
    (Hl2 : str_length src2 + 2 < 2 ^ SIZE_BITS)
    (H1 : toString limit (init true self1 src1 f1).2 = Done (Some out))
    (H2 : toString limit (init true self2 src2 f2).2 = Done (Some out)) :
  src1 = src2 /\ f1 = f2.
Proof.
  apply toString_Some in H1, H2; [|done..]. rewrite H1 in H2. clear H1.
  assert (Hb : forall s, s <> [] -> spec_body s = chr "/" :: s ++ [chr "/"]).
  { by intros [|]. }
  rewrite !Hb in H2 by done. injection H2 as Heq.
  rewrite <- !app_assoc in Heq. cbn [app] in Heq.
  apply split_at_last in Heq as [Hs Hl]; [|apply slash_not_flag_letter..].
  split; [done|]. by apply spec_flag_letters_inj.
Qed.

Lemma toString_injective_witness :
  exists out,
    toString 64 (init true blank (lit "a/") GlobalFlag).2 = Done (Some out) /\
    (lit "a/" = lit "a/" /\ GlobalFlag = GlobalFlag).
Proof.
  eexists. split; [reflexivity|].
  eapply (toString_injective 64 blank blank (lit "a/") (lit "a/") GlobalFlag GlobalFlag);
    [done|done|by vm_compute|by vm_compute|reflexivity|reflexivity|reflexivity
    |reflexivity].
Defined.

(** X24: the one exception.  The empty source is rendered as [(?:)], so an
    object with the empty source and an object with the source [(?:)] are
    rendered alike, flags and failure on a short buffer included. *)
Theorem toString_empty_source_collides limit self1 self2 flags :
  toString limit (init true self1 [] flags).2
    = toString limit (init true self2 (lit "(?:)") flags).2.
Proof.
  rewrite !toString_init by (by vm_compute). reflexivity.
Qed.

End ToStringMoreFacts.
